(** * Meta aggregator: extraction, aggregation and scoring (src/app.py)

    A shallow embedding of the parsing and aggregation engine of
    [src/app.py], with the properties its specification states.

    Conventions of the embedding.
    - Text is a list of characters; a character is a code point below 256
      ([ascii]).  On such text Python's [\d] is [0-9], and [\s] and
      [str.strip] use the white space of [str.isspace].
    - Python [int] is [Z].  Python [float] is an IEEE 754 binary64 value,
      here a [spec_float] with the operations of [SpecFloat] at precision 53
      and maximal exponent 1024.
    - An exception is [None] in the [option] monad.
    - A [dict] keeps insertion order, so it is an association list updated in
      place or extended at its end.
    - A [set] of strings is iterated in the order of its hash table, and the
      hashes of strings are salted per interpreter process: the iteration
      order is a parameter, of which the properties assume at most that it
      enumerates the set.
    - The pages of the network and their reduction to text are inputs. *)

From Stdlib Require Import Ascii String.
From Stdlib Require Import List ZArith Lia Bool.
From Stdlib Require Import Permutation Sorted.
From Stdlib Require Import PrimFloat FloatOps SpecFloat.
Import ListNotations.

Local Open Scope Z_scope.

(** ** The option monad for exceptions *)

Definition bind {A B : Type} (x : option A) (f : A -> option B) : option B :=
  match x with
  | Some a => f a
  | None => None
  end.

Notation "x <- c ;; k" := (bind c (fun x => k))
  (at level 61, c at next level, right associativity).

Fixpoint mapM {A B : Type} (f : A -> option B) (l : list A) : option (list B) :=
  match l with
  | [] => Some []
  | a :: l' =>
      b <- f a ;;
      bs <- mapM f l' ;;
      Some (b :: bs)
  end.

(** ** Text *)

Definition text := list ascii.

Definition str (s : string) : text := list_ascii_of_string s.

Definition text_eqb (a b : text) : bool :=
  if list_eq_dec ascii_dec a b then true else false.

Definition code (c : ascii) : N := N_of_ascii c.

Definition in_range (lo hi : N) (c : ascii) : bool :=
  ((lo <=? code c) && (code c <=? hi))%N.

(** [\d] *)
Definition is_digit (c : ascii) : bool := in_range 48 57 c.

(** [\s], and the characters removed by [str.strip()] *)
Definition is_space (c : ascii) : bool :=
  in_range 9 13 c || in_range 28 32 c
  || (code c =? 133)%N || (code c =? 160)%N.

(** [[A-Z0-9]] *)
Definition is_upper_or_digit (c : ascii) : bool :=
  in_range 65 90 c || is_digit c.

(** [[^%]] *)
Definition not_percent (c : ascii) : bool := negb (code c =? 37)%N.

(** [[.,]] *)
Definition is_sep (c : ascii) : bool :=
  (code c =? 46)%N || (code c =? 44)%N.

Definition is_char (a : ascii) (c : ascii) : bool := (code c =? code a)%N.

(** Lower case of a code point below 256, as used by [re.IGNORECASE]. *)
Definition lower (c : ascii) : ascii :=
  if in_range 65 90 c
     || (in_range 192 222 c && negb (code c =? 215)%N)
  then ascii_of_N (code c + 32)
  else c.

Fixpoint lstrip (s : text) : text :=
  match s with
  | c :: s' => if is_space c then lstrip s' else s
  | [] => []
  end.

Definition rstrip (s : text) : text := rev (lstrip (rev s)).

(** [s.strip()] *)
Definition strip (s : text) : text := rstrip (lstrip s).

(** [s.endswith("%")], and [s[:-1]] *)
Definition ends_with_percent (s : text) : bool :=
  match rev s with
  | c :: _ => negb (not_percent c)
  | [] => false
  end.

Definition drop_last (s : text) : text := removelast s.

(** [s.replace(",", ".")] *)
Definition replace_comma (s : text) : text :=
  map (fun c => if (code c =? 44)%N then "."%char else c) s.

Fixpoint prefix_ci (ci : bool) (p s : text) : option text :=
  match p, s with
  | [], _ => Some s
  | a :: p', c :: s' =>
      if (if ci then code (lower a) =? code (lower c) else code a =? code c)%N
      then prefix_ci ci p' s'
      else None
  | _ :: _, [] => None
  end.

(** [string.endswith(suffix)] *)
Definition ends_with (suffix s : text) : bool :=
  match prefix_ci false (rev suffix) (rev s) with
  | Some _ => true
  | None => false
  end.

(** ** Integers from digits: [int(s)] on a group matched by [\d+] *)

Definition digit_val (c : ascii) : Z := Z.of_N (code c) - 48.

Definition digits_val (s : text) : Z :=
  fold_left (fun acc c => 10 * acc + digit_val c) s 0.

(** The default bound of the interpreter on the number of digits that [int]
    converts and that [str] writes ([sys.get_int_max_str_digits()]). *)
Definition int_max_str_digits : nat := 4300.

(** [int(s)] for a string of decimal digits: a [ValueError] when the digits,
    leading zeros included, are more than [int_max_str_digits].  Any other
    string is a [ValueError] here (signs, blanks and underscores, which [int]
    accepts, do not occur in a group matched by [\d+]). *)
Definition py_int (s : text) : option Z :=
  match s with
  | [] => None
  | _ =>
      if forallb is_digit s && (List.length s <=? int_max_str_digits)%nat
      then Some (digits_val s)
      else None
  end.

(** ** Floating point: binary64 *)

Definition float := spec_float.

Definition prec : Z := 53.
Definition emax : Z := 1024.

Definition fadd : float -> float -> float := SFadd prec emax.
Definition fsub : float -> float -> float := SFsub prec emax.
Definition fmul : float -> float -> float := SFmul prec emax.
Definition fdiv : float -> float -> float := SFdiv prec emax.
Definition fltb : float -> float -> bool := SFltb.
Definition feqb : float -> float -> bool := SFeqb.

Definition is_nan (x : float) : bool :=
  match x with S754_nan => true | _ => false end.

Definition is_finite (x : float) : bool :=
  match x with S754_zero _ | S754_finite _ _ _ => true | _ => false end.

(** The integer [z] as a float of exponent 0 (any mantissa), the exact
    operand from which the correctly rounded results below are taken. *)
Definition exact_int (z : Z) : float :=
  match z with
  | Z0 => S754_zero false
  | Zpos m => S754_finite false m 0
  | Zneg m => S754_finite true m 0
  end.

(** The nearest binary64 value of an integer (ties to even), infinite when
    out of range. *)
Definition round_int (z : Z) : float := binary_normalize prec emax z 0 false.

(** [float(z)] and the implicit conversion of an [int] operand in mixed
    arithmetic: [OverflowError] when the integer is too large. *)
Definition float_of_int (z : Z) : option float :=
  let f := round_int z in
  if is_finite f then Some f else None.

(** [a / b] on two [int]s: the correctly rounded quotient,
    [ZeroDivisionError] on [b = 0], [OverflowError] when the quotient is out of
    range. *)
Definition int_truediv (a b : Z) : option float :=
  if b =? 0 then None
  else
    let q := fdiv (exact_int a) (exact_int b) in
    if is_finite q then Some q else None.

(** [x / z] with a float [x] and an [int] [z]. *)
Definition fdiv_int (x : float) (z : Z) : option float :=
  if z =? 0 then None
  else d <- float_of_int z ;; Some (fdiv x d).

(** The float literals of the source. *)
Definition f0_0 : float := S754_zero false.
Definition f0_5 : float := S754_finite false 4503599627370496 (-53).
Definition f0_4 : float := S754_finite false 7205759403792794 (-54).
Definition f0_2 : float := S754_finite false 7205759403792794 (-55).
Definition f50 : float := S754_finite false 7036874417766400 (-47).
Definition f100 : float := S754_finite false 7036874417766400 (-46).

(** [float(s)] on a decimal numeral: optional blanks around, an optional sign,
    digits with at most one point and at least one digit.  The value is the
    correctly rounded quotient of the digits read as an integer by the power
    of ten of the fraction length.  Every other string is a [ValueError] here:
    the exponent, [inf], [nan] and underscore forms which [float] also accepts
    cannot occur in a group matched by [\d+[.,]?\d*]. *)
Fixpoint span_digits (s : text) : text * text :=
  match s with
  | c :: s' =>
      if is_digit c then let '(d, r) := span_digits s' in (c :: d, r)
      else ([], s)
  | [] => ([], [])
  end.

Definition decimal_value (neg : bool) (ip fp : text) : float :=
  let m := digits_val (ip ++ fp) in
  let q := fdiv (exact_int m) (exact_int (10 ^ Z.of_nat (length fp))) in
  if neg then SFopp q else q.

Definition py_float_unsigned (neg : bool) (s : text) : option float :=
  let '(ip, r) := span_digits s in
  match r with
  | [] =>
      match ip with
      | [] => None
      | _ => Some (decimal_value neg ip [])
      end
  | c :: r' =>
      if is_char "."%char c then
        let '(fp, r'') := span_digits r' in
        match r'', ip ++ fp with
        | [], _ :: _ => Some (decimal_value neg ip fp)
        | _, _ => None
        end
      else None
  end.

Definition py_float (s : text) : option float :=
  match strip s with
  | c :: s' =>
      if is_char "-"%char c then py_float_unsigned true s'
      else if is_char "+"%char c then py_float_unsigned false s'
      else py_float_unsigned false (c :: s')
  | [] => None
  end.

(** ** [parse_percentage_str] (app.py, lines 15-20) *)

Definition parse_percentage_str (s : text) : option float :=
  let s := strip s in
  let s := if ends_with_percent s then drop_last s else s in
  let s := replace_comma s in
  py_float s.

(** ** Regular expressions: the fragment of [re] the patterns use

    Backtracking matching with the priorities of [re]: a greedy repetition
    tries the longest run first, a lazy one the shortest; the first success in
    that order is the match.  Repetitions range over one-character classes,
    which is all the patterns of the source contain. *)

Module Re.

Inductive regex : Type :=
| Lit (ci : bool) (s : text)        (* literal text; [ci]: IGNORECASE *)
| Cls (p : ascii -> bool)           (* one character of a class *)
| Opt (p : ascii -> bool)           (* [c?] *)
| Star (p : ascii -> bool)          (* [c*] *)
| Plus (p : ascii -> bool)          (* [c+] *)
| LazyPlus (p : ascii -> bool)      (* [c+?] *)
| Group (r : regex)                 (* a capturing group *)
| Seq (r1 r2 : regex).

(** The groups captured so far, in the order of their closing parenthesis
    (the patterns have no nested group, so this is the group number). *)
Definition captures := list text.

Section Matcher.

Context {R : Type}.

(** What remains to be matched: given the rest of the text and the
    captures, the final result, if any. *)
Definition cont := text -> captures -> option R.

Definition or_else (a : option R) (b : option R) : option R :=
  match a with
  | Some r => Some r
  | None => b
  end.

(** [c*] and then [k]: the longest run first. *)
Fixpoint star_greedy (p : ascii -> bool) (k : text -> option R) (s : text)
  : option R :=
  match s with
  | c :: s' =>
      if p c then or_else (star_greedy p k s') (k s) else k s
  | [] => k []
  end.

(** [c*?] and then [k]: the shortest run first. *)
Fixpoint star_lazy (p : ascii -> bool) (k : text -> option R) (s : text)
  : option R :=
  or_else (k s)
    match s with
    | c :: s' => if p c then star_lazy p k s' else None
    | [] => None
    end.

Definition one (p : ascii -> bool) (k : text -> option R) (s : text)
  : option R :=
  match s with
  | c :: s' => if p c then k s' else None
  | [] => None
  end.

Fixpoint run (r : regex) (s : text) (caps : captures) (k : cont)
  : option R :=
  match r with
  | Lit ci l =>
      match prefix_ci ci l s with
      | Some s' => k s' caps
      | None => None
      end
  | Cls p => one p (fun s' => k s' caps) s
  | Opt p => or_else (one p (fun s' => k s' caps) s) (k s caps)
  | Star p => star_greedy p (fun s' => k s' caps) s
  | Plus p => one p (star_greedy p (fun s' => k s' caps)) s
  | LazyPlus p => one p (star_lazy p (fun s' => k s' caps)) s
  | Group r1 =>
      run r1 s caps
        (fun s' caps' =>
           k s' (caps' ++ [firstn (List.length s - List.length s') s]))
  | Seq r1 r2 =>
      run r1 s caps (fun s' caps' => run r2 s' caps' k)
  end.

End Matcher.

(** A match anchored at the start of [s]: the groups and the unmatched rest. *)
Definition match_here (r : regex) (s : text) : option (captures * text) :=
  run r s [] (fun s' caps => Some (caps, s')).

(** [pattern.search(s)]: the match at the leftmost position that has one. *)
Fixpoint search (r : regex) (s : text) : option captures :=
  match match_here r s with
  | Some (caps, _) => Some caps
  | None =>
      match s with
      | _ :: s' => search r s'
      | [] => None
      end
  end.

(** [pattern.finditer(s)]: the successive non-overlapping matches, left to
    right.  [skip] counts the characters of the previous match still to pass.
    (The patterns match no empty string, for which [re] has a special rule.) *)
Fixpoint finditer_from (r : regex) (skip : nat) (s : text) : list captures :=
  match s with
  | [] => []
  | _ :: s' =>
      match skip with
      | S n => finditer_from r n s'
      | O =>
          match match_here r s with
          | Some (caps, rest) =>
              caps ::
              finditer_from r (List.length s - List.length rest - 1) s'
          | None => finditer_from r 0 s'
          end
      end
  end.

Definition finditer (r : regex) (s : text) : list captures :=
  finditer_from r 0 s.

End Re.

Import Re.

Declare Scope regex_scope.
Delimit Scope regex_scope with re.
Infix "@@" := Seq (at level 60, right associativity) : regex_scope.

(** [m.group(i)], for [i >= 1] *)
Definition group (caps : captures) (i : nat) : text :=
  nth (i - 1) caps [].

(** A percentage, the group around [\d+[.,]?\d*] *)
Definition percent_group : regex :=
  Group (Plus is_digit @@ Opt is_sep @@ Star is_digit)%re.

(** The record, three groups [\d+] separated by [\s*-\s*] *)
Definition wlt_groups : regex :=
  (Group (Plus is_digit) @@
   Star is_space @@ Cls (is_char "-") @@ Star is_space @@
   Group (Plus is_digit) @@
   Star is_space @@ Cls (is_char "-") @@ Star is_space @@
   Group (Plus is_digit))%re.

(** ** Records *)

Record SummaryRecord : Type := {
  s_deck : text;
  s_players : Z;
  s_share : float;
  s_wins : Z;
  s_losses : Z;
  s_ties : Z;
  s_win_pct : float
}.

Record ConversionRecord : Type := {
  c_deck : text;
  c_day1_players : Z;
  c_day2_players : Z;
  c_conv_pct : float
}.

(** ** [extract_overall_or_day] (app.py, lines 25-73), on the page text *)

Definition summary_pattern : regex :=
  (Group (Plus is_digit) @@ Plus is_space @@
   Group (Cls is_upper_or_digit @@ LazyPlus not_percent) @@ Plus is_space @@
   percent_group @@ Cls (is_char "%") @@ Plus is_space @@
   wlt_groups @@ Plus is_space @@
   percent_group @@ Cls (is_char "%"))%re.

Definition summary_of_match (m : captures) : option SummaryRecord :=
  players <- py_int (group m 1) ;;
  let deck := strip (group m 2) in
  share <- parse_percentage_str (group m 3) ;;
  wins <- py_int (group m 4) ;;
  losses <- py_int (group m 5) ;;
  ties <- py_int (group m 6) ;;
  win_pct <- parse_percentage_str (group m 7) ;;
  Some {| s_deck := deck; s_players := players; s_share := share;
          s_wins := wins; s_losses := losses; s_ties := ties;
          s_win_pct := win_pct |}.

Definition extract_overall_or_day (txt : text) : option (list SummaryRecord) :=
  mapM summary_of_match (finditer summary_pattern txt).

(** ** [extract_conversion] (app.py, lines 76-117), on the page text *)

Definition conversion_pattern : regex :=
  (Group (Cls is_upper_or_digit @@ LazyPlus not_percent) @@ Plus is_space @@
   Group (Plus is_digit) @@ Plus is_space @@
   Group (Plus is_digit) @@ Plus is_space @@
   percent_group @@ Cls (is_char "%"))%re.

(** One match: [Some None] when the row is dropped by [continue], [None] when
    an exception escapes. *)
Definition conversion_of_match (m : captures)
  : option (option ConversionRecord) :=
  let deck := strip (group m 1) in
  match py_int (group m 2), py_int (group m 3) with
  | Some day1, Some day2 =>
      conv_pct <- parse_percentage_str (group m 4) ;;
      Some (Some {| c_deck := deck; c_day1_players := day1;
                    c_day2_players := day2; c_conv_pct := conv_pct |})
  | _, _ => Some None
  end.

Fixpoint keep_some {A : Type} (l : list (option A)) : list A :=
  match l with
  | Some a :: l' => a :: keep_some l'
  | None :: l' => keep_some l'
  | [] => []
  end.

Definition extract_conversion (txt : text) : option (list ConversionRecord) :=
  rows <- mapM conversion_of_match (finditer conversion_pattern txt) ;;
  Some (keep_some rows).

(** ** Dictionaries in insertion order *)

Section Dict.

Context {V : Type}.

Definition dict := list (text * V).

(** [d.get(k)] *)
Fixpoint dict_get (d : dict) (k : text) : option V :=
  match d with
  | (k', v) :: d' => if text_eqb k' k then Some v else dict_get d' k
  | [] => None
  end.

(** [k in d] *)
Definition dict_mem (d : dict) (k : text) : bool :=
  match dict_get d k with Some _ => true | None => false end.

(** [d.keys()] *)
Definition dict_keys (d : dict) : list text := map fst d.

(** [d[k] = f(d[k])] on a [defaultdict] whose missing entries are [dflt]:
    an entry present is changed in place, a missing one is created at the
    end. *)
Fixpoint dict_upd (dflt : V) (f : V -> V) (d : dict) (k : text) : dict :=
  match d with
  | (k', v) :: d' =>
      if text_eqb k' k then (k', f v) :: d'
      else (k', v) :: dict_upd dflt f d' k
  | [] => [(k, f dflt)]
  end.

(** [d[k] = v] *)
Definition dict_set (d : dict) (k : text) (v : V) : dict :=
  dict_upd v (fun _ => v) d k.

End Dict.

Arguments dict V : clear implicits.

(** A set of strings, by its elements in insertion order.  Iterating over it
    goes through [set_iter], see below. *)
Definition strset := list text.

Definition set_mem (s : strset) (x : text) : bool := existsb (text_eqb x) s.

Definition set_add (s : strset) (x : text) : strset :=
  if set_mem s x then s else s ++ [x].

(** ** [extract_matchups_from_html] (app.py, lines 154-193) *)

Record Matchup : Type := {
  m_wins : Z;
  m_losses : Z;
  m_ties : Z;
  m_win_pct : float
}.

(** [re.escape(opp)] followed by [\s+(\d+)\s+], the record and the
    percentage, with [re.IGNORECASE] *)
Definition matchup_pattern (opp : text) : regex :=
  (Lit true opp @@ Plus is_space @@ Group (Plus is_digit) @@ Plus is_space @@
   wlt_groups @@ Plus is_space @@ percent_group @@ Cls (is_char "%"))%re.

Definition matchup_of_match (m : captures) : option Matchup :=
  w <- py_int (group m 2) ;;
  l <- py_int (group m 3) ;;
  t <- py_int (group m 4) ;;
  win_pct <- parse_percentage_str (group m 5) ;;
  Some {| m_wins := w; m_losses := l; m_ties := t; m_win_pct := win_pct |}.

(** The loop body for one candidate opponent; [meta_decks] is given in its
    iteration order. *)
Definition matchup_step (html_text this_deck : text)
    (result : option (dict Matchup)) (opp : text) : option (dict Matchup) :=
  result <- result ;;
  if text_eqb opp this_deck then Some result
  else
    match search (matchup_pattern opp) html_text with
    | None => Some result
    | Some m =>
        v <- matchup_of_match m ;;
        Some (dict_set result opp v)
    end.

Definition extract_matchups_from_html (html_text this_deck : text)
    (meta_decks : list text) : option (dict Matchup) :=
  fold_left (matchup_step html_text this_deck) meta_decks (Some []).

(** ** Statistics *)

Record Stats : Type := {
  wins : Z;
  losses : Z;
  ties : Z;
  players : Z
}.

Record ConvStats : Type := {
  day1 : Z;
  day2 : Z
}.

Record Cell : Type := {
  cell_wins : Z;
  cell_losses : Z;
  cell_ties : Z
}.

Definition stats0 : Stats := {| wins := 0; losses := 0; ties := 0; players := 0 |}.
Definition conv0 : ConvStats := {| day1 := 0; day2 := 0 |}.
Definition cell0 : Cell := {| cell_wins := 0; cell_losses := 0; cell_ties := 0 |}.

(** What [fetch_tournament_data_with_links] returns for one tournament. *)
Record TournamentData : Type := {
  overall : list SummaryRecord;
  day2_rows : list SummaryRecord;
  conversion : list ConversionRecord;
  deck_urls : dict text
}.

(** The three page texts of a tournament and the deck links of its main
    page ([extract_deck_urls] reads them from markup, which is not modelled). *)
Record TournamentPages : Type := {
  main_text : text;
  day2_text : text;
  conv_text : text;
  page_links : dict text
}.

(** [fetch_tournament_data_with_links] (app.py, lines 218-249), after the
    three pages were fetched. *)
Definition fetch_tournament_data_with_links (p : TournamentPages)
  : option TournamentData :=
  o <- extract_overall_or_day (main_text p) ;;
  d <- extract_overall_or_day (day2_text p) ;;
  c <- extract_conversion (conv_text p) ;;
  Some {| overall := o; day2_rows := d; conversion := c;
          deck_urls := page_links p |}.

(** The four accumulators of [aggregate_tournaments_with_matchups]. *)
Record AggState : Type := {
  overall_stats : dict Stats;
  day2_stats : dict Stats;
  conv_stats : dict ConvStats;
  deck_urls_global : dict strset
}.

Definition agg0 : AggState :=
  {| overall_stats := []; day2_stats := []; conv_stats := [];
     deck_urls_global := [] |}.

Definition add_summary (d : SummaryRecord) (s : Stats) : Stats :=
  {| wins := wins s + s_wins d;
     losses := losses s + s_losses d;
     ties := ties s + s_ties d;
     players := players s + s_players d |}.

Definition add_conversion (c : ConversionRecord) (s : ConvStats) : ConvStats :=
  {| day1 := day1 s + c_day1_players c;
     day2 := day2 s + c_day2_players c |}.

(** Lines 279-286: one record of the overall feed *)
Definition overall_step (urls : dict text) (st : dict Stats * dict strset)
    (d : SummaryRecord) : dict Stats * dict strset :=
  let name := s_deck d in
  (dict_upd stats0 (add_summary d) (fst st) name,
   match dict_get urls name with
   | Some u => dict_upd [] (fun s => set_add s u) (snd st) name
   | None => snd st
   end).

(** Lines 288-293 *)
Definition day2_step (st : dict Stats) (d : SummaryRecord) : dict Stats :=
  dict_upd stats0 (add_summary d) st (s_deck d).

(** Lines 295-298 *)
Definition conv_step (st : dict ConvStats) (c : ConversionRecord)
  : dict ConvStats :=
  dict_upd conv0 (add_conversion c) st (c_deck c).

(** Lines 276-298: one tournament *)
Definition agg_step (st : AggState) (data : TournamentData) : AggState :=
  let ou := fold_left (overall_step (deck_urls data))
                      (overall data) (overall_stats st, deck_urls_global st) in
  {| overall_stats := fst ou;
     day2_stats := fold_left day2_step (day2_rows data) (day2_stats st);
     conv_stats := fold_left conv_step (conversion data) (conv_stats st);
     deck_urls_global := snd ou |}.

Definition aggregate_from (st : AggState) (ts : list TournamentData) : AggState :=
  fold_left agg_step ts st.

Definition aggregate (ts : list TournamentData) : AggState :=
  aggregate_from agg0 ts.

(** ** Scores *)

(** [(w + 0.5 * t) / games * 100], the expression of lines 311, 317 and 410.
    Converting an [int] operand to [float] may raise [OverflowError]. *)
Definition win_pct (w t games : Z) : option float :=
  ft <- float_of_int t ;;
  fw <- float_of_int w ;;
  q <- fdiv_int (fadd fw (fmul f0_5 ft)) games ;;
  Some (fmul q f100).

Record BaseRow : Type := {
  deck : text;
  players_overall : Z;
  overall_win_pct : float;
  players_day2 : Z;
  day2_win_pct : option float;
  conv_pct : option float;
  base_score : float
}.

Definition w_overall : float := f0_4.
Definition w_day2 : float := f0_4.
Definition w_conv : float := f0_2.

(** Lines 313-323: the day-2 win percentage and player count *)
Definition day2_of (day2 : dict Stats) (name : text)
  : option (option float * Z) :=
  match dict_get day2 name with
  | Some d2 =>
      let games_d2 := wins d2 + losses d2 + ties d2 in
      if games_d2 >? 0 then
        p <- win_pct (wins d2) (ties d2) games_d2 ;;
        Some (Some p, players d2)
      else Some (None, players d2)
  | None => Some (None, 0)
  end.

(** Lines 325-329 *)
Definition conv_of (conv : dict ConvStats) (name : text)
  : option (option float) :=
  match dict_get conv name with
  | Some c =>
      if day1 c >? 0 then
        q <- int_truediv (day2 c) (day1 c) ;;
        Some (Some (fmul q f100))
      else Some None
  | None => Some None
  end.

Definition or_default (x : option float) (d : float) : float :=
  match x with Some v => v | None => d end.

(** Lines 338-342 *)
Definition base_score_of (overall_win_pct d2_win_for_score conv_for_score : float)
  : float :=
  fadd (fadd (fmul w_overall overall_win_pct) (fmul w_day2 d2_win_for_score))
       (fmul w_conv conv_for_score).

(** Lines 302-354, the body of the loop over [overall_stats.items()]:
    [Some None] when the deck is skipped by [continue]. *)
Definition base_row (min_players : Z) (st : AggState) (e : text * Stats)
  : option (option BaseRow) :=
  let '(name, o) := e in
  if players o <? min_players then Some None
  else
    let total_games_overall := wins o + losses o + ties o in
    if total_games_overall <=? 0 then Some None
    else
      owp <- win_pct (wins o) (ties o) total_games_overall ;;
      d2 <- day2_of (day2_stats st) name ;;
      cp <- conv_of (conv_stats st) name ;;
      let d2_win_for_score := or_default (fst d2) owp in
      let conv_for_score := or_default cp f50 in
      Some (Some {| deck := name;
                    players_overall := players o;
                    overall_win_pct := owp;
                    players_day2 := snd d2;
                    day2_win_pct := fst d2;
                    conv_pct := cp;
                    base_score :=
                      base_score_of owp d2_win_for_score conv_for_score |}).

Definition base_rows_of (min_players : Z) (st : AggState)
  : option (list BaseRow) :=
  rows <- mapM (base_row min_players st) (overall_stats st) ;;
  Some (keep_some rows).

(** ** Sorting

    [l.sort(key=..., reverse=True)]: a stable sort into descending order of
    the keys, compared with [<] only.  [lt x y] is [key(x) < key(y)].  When
    [<] is a strict weak order on the keys every stable sort returns the same
    list, so insertion stands for the one of Python; this holds for integer
    keys and for float keys without NaN. *)

Section Sort.

Context {A : Type} (lt : A -> A -> bool).

Fixpoint insert_desc (x : A) (l : list A) : list A :=
  match l with
  | [] => [x]
  | y :: l' => if lt x y then y :: insert_desc x l' else x :: l
  end.

Definition sort_desc (l : list A) : list A := fold_right insert_desc [] l.

End Sort.

(** How often [a] counts as an occurrence of [x] *)
Definition count_one {A : Type} (eq_dec : forall x y : A, {x = y} + {x <> y})
    (x a : A) : nat :=
  if eq_dec a x then 1%nat else 0%nat.

(** ** The sort of the interpreter

    When a key is NaN, [<] is no order on the keys and what [list.sort] leaves
    depends on how it proceeds.  This is the algorithm of CPython 3.11
    (Objects/listobject.c): natural runs, binary insertion, merges with
    galloping, and the merge order of powersort.  Indices are integers;
    loops that the source bounds by a condition take the length as fuel. *)

Module ListSort.

Section ListSort.

Context {A : Type} (lt : A -> A -> bool).

(** [a[i]] *)
Definition item (a : list A) (i : Z) (d : A) : A := nth (Z.to_nat i) a d.

(** [a[:k]] and [a[k:]] for [0 <= k] *)
Definition take (k : Z) (a : list A) : list A := firstn (Z.to_nat k) a.
Definition drop (k : Z) (a : list A) : list A := skipn (Z.to_nat k) a.
Definition len (a : list A) : Z := Z.of_nat (List.length a).

(** [count_run]: the length of the run at the head of the list, and whether
    it descends strictly (it is then reversed in place) *)
Fixpoint run_asc (prev : A) (l : list A) : nat :=
  match l with
  | x :: l' => if lt x prev then O else S (run_asc x l')
  | [] => O
  end.

Fixpoint run_desc (prev : A) (l : list A) : nat :=
  match l with
  | x :: l' => if lt x prev then S (run_desc x l') else O
  | [] => O
  end.

Definition count_run (l : list A) : nat * bool :=
  match l with
  | [] => (O, false)
  | [x] => (1%nat, false)
  | x :: y :: l' =>
      if lt y x then (S (S (run_desc y l')), true)
      else (S (S (run_asc y l')), false)
  end.

(** [binarysort]: binary insertion of the elements after a sorted prefix;
    the pivot goes after the elements it is not smaller than. *)
Fixpoint bisect (fuel : nat) (pivot : A) (a : list A) (l r : Z) : Z :=
  match fuel with
  | O => l
  | S fuel' =>
      let p := l + Z.shiftr (r - l) 1 in
      let l' := if lt pivot (item a p pivot) then l else p + 1 in
      let r' := if lt pivot (item a p pivot) then p else r in
      if l' <? r' then bisect fuel' pivot a l' r' else l'
  end.

Definition binary_insert (sorted : list A) (pivot : A) : list A :=
  let l := bisect (List.length sorted) pivot sorted 0 (len sorted) in
  take l sorted ++ pivot :: drop l sorted.

Definition binarysort (sorted rest : list A) : list A :=
  fold_left binary_insert rest sorted.

(** [gallop_left] and [gallop_right]: the offsets grow as [1, 3, 7, ...] from
    the hint, then a binary search between the last two. *)
Fixpoint gallop_to (fuel : nat) (go_on : Z -> bool) (maxofs lastofs ofs : Z)
  : Z * Z :=
  match fuel with
  | O => (lastofs, ofs)
  | S fuel' =>
      if (ofs <? maxofs) && go_on ofs
      then gallop_to fuel' go_on maxofs ofs (Z.shiftl ofs 1 + 1)
      else (lastofs, ofs)
  end.

Fixpoint gallop_bisect (fuel : nat) (right : Z -> bool) (lastofs ofs : Z) : Z :=
  match fuel with
  | O => ofs
  | S fuel' =>
      if lastofs <? ofs then
        let m := lastofs + Z.shiftr (ofs - lastofs) 1 in
        if right m then gallop_bisect fuel' right (m + 1) ofs
        else gallop_bisect fuel' right lastofs m
      else ofs
  end.

Definition gallop_left (key : A) (a : list A) (n hint : Z) : Z :=
  let fuel := S (List.length a) in
  let '(lastofs, ofs) :=
    if lt (item a hint key) key then
      let maxofs := n - hint in
      let '(lastofs, ofs) :=
        gallop_to fuel (fun o => lt (item a (hint + o) key) key) maxofs 0 1 in
      let ofs := if maxofs <? ofs then maxofs else ofs in
      (lastofs + hint, ofs + hint)
    else
      let maxofs := hint + 1 in
      let '(lastofs, ofs) :=
        gallop_to fuel (fun o => negb (lt (item a (hint - o) key) key))
                  maxofs 0 1 in
      let ofs := if maxofs <? ofs then maxofs else ofs in
      (hint - ofs, hint - lastofs) in
  gallop_bisect fuel (fun m => lt (item a m key) key) (lastofs + 1) ofs.

Definition gallop_right (key : A) (a : list A) (n hint : Z) : Z :=
  let fuel := S (List.length a) in
  let '(lastofs, ofs) :=
    if lt key (item a hint key) then
      let maxofs := hint + 1 in
      let '(lastofs, ofs) :=
        gallop_to fuel (fun o => lt key (item a (hint - o) key)) maxofs 0 1 in
      let ofs := if maxofs <? ofs then maxofs else ofs in
      (hint - ofs, hint - lastofs)
    else
      let maxofs := n - hint in
      let '(lastofs, ofs) :=
        gallop_to fuel (fun o => negb (lt key (item a (hint + o) key)))
                  maxofs 0 1 in
      let ofs := if maxofs <? ofs then maxofs else ofs in
      (lastofs + hint, ofs + hint) in
  gallop_bisect fuel (fun m => negb (lt key (item a m key))) (lastofs + 1) ofs.

Definition MIN_GALLOP : Z := 7.

Inductive merge_mode : Type :=
| straight (acount bcount : Z)
| galloping.

(** [merge_lo]: the loops.  [min_gallop] is the local variable and [saved]
    the field [ms->min_gallop]. *)
Fixpoint merge_lo_loop (fuel : nat) (mode : merge_mode)
    (min_gallop saved : Z) (a b dest : list A) : list A * Z :=
  match fuel with
  | O => (dest ++ a ++ b, saved)
  | S fuel' =>
      match a, b with
      | a0 :: a', b0 :: b' =>
          match mode with
          | straight acount bcount =>
              if lt b0 a0 then
                match b' with
                | [] => (dest ++ [b0] ++ a, saved)
                | _ :: _ =>
                    if min_gallop <=? bcount + 1
                    then merge_lo_loop fuel' galloping (min_gallop + 1) saved
                           a b' (dest ++ [b0])
                    else merge_lo_loop fuel' (straight 0 (bcount + 1))
                           min_gallop saved a b' (dest ++ [b0])
                end
              else
                match a' with
                | [_] => (dest ++ [a0] ++ b ++ a', saved)
                | _ =>
                    if min_gallop <=? acount + 1
                    then merge_lo_loop fuel' galloping (min_gallop + 1) saved
                           a' b (dest ++ [a0])
                    else merge_lo_loop fuel' (straight (acount + 1) 0)
                           min_gallop saved a' b (dest ++ [a0])
                end
          | galloping =>
              let min_gallop := if 1 <? min_gallop then min_gallop - 1
                                else min_gallop in
              let saved := min_gallop in
              let k := gallop_right b0 a (len a) 0 in
              let acount := k in
              let dest := dest ++ take k a in
              let a := drop k a in
              if negb (k =? 0) && (len a =? 1) then (dest ++ b ++ a, saved)
              else if negb (k =? 0) && (len a =? 0) then (dest ++ a ++ b, saved)
              else
                let dest := dest ++ [b0] in
                match b' with
                | [] => (dest ++ a, saved)
                | _ :: _ =>
                    let b := b' in
                    let k := gallop_left (hd b0 a) b (len b) 0 in
                    let bcount := k in
                    let dest := dest ++ take k b in
                    let b := drop k b in
                    if negb (k =? 0) && (len b =? 0)
                    then (dest ++ a ++ b, saved)
                    else
                      let dest := dest ++ firstn 1 a in
                      let a := tl a in
                      if len a =? 1 then (dest ++ b ++ a, saved)
                      else if (MIN_GALLOP <=? acount) || (MIN_GALLOP <=? bcount)
                      then merge_lo_loop fuel' galloping min_gallop saved
                             a b dest
                      else merge_lo_loop fuel' (straight 0 0)
                             (min_gallop + 1) (min_gallop + 1) a b dest
                end
          end
      | _, _ => (dest ++ a ++ b, saved)
      end
  end.

Definition merge_lo (a b : list A) (saved : Z) : list A * Z :=
  match b with
  | [] => (a, saved)
  | b0 :: b' =>
      match b', a with
      | [], _ => (b0 :: a, saved)
      | _, [a0] => (b0 :: b' ++ [a0], saved)
      | _, _ =>
          merge_lo_loop (S (List.length a + List.length b)) (straight 0 0)
            saved saved a b' [b0]
      end
  end.

(** [merge_hi]: the same from the right end.  The two runs are held
    reversed, so that their heads are the elements the source points at, and
    [dest] is the part already in place at the end. *)
Fixpoint merge_hi_loop (fuel : nat) (mode : merge_mode)
    (min_gallop saved : Z) (ra rb dest : list A) : list A * Z :=
  match fuel with
  | O => (rev ra ++ rev rb ++ dest, saved)
  | S fuel' =>
      match ra, rb with
      | al :: ra', bl :: rb' =>
          match mode with
          | straight acount bcount =>
              if lt bl al then
                match ra' with
                | [] => (rev rb ++ al :: dest, saved)
                | _ :: _ =>
                    if min_gallop <=? acount + 1
                    then merge_hi_loop fuel' galloping (min_gallop + 1) saved
                           ra' rb (al :: dest)
                    else merge_hi_loop fuel' (straight (acount + 1) 0)
                           min_gallop saved ra' rb (al :: dest)
                end
              else
                match rb' with
                | [_] => (rev rb' ++ rev ra ++ bl :: dest, saved)
                | _ =>
                    if min_gallop <=? bcount + 1
                    then merge_hi_loop fuel' galloping (min_gallop + 1) saved
                           ra rb' (bl :: dest)
                    else merge_hi_loop fuel' (straight 0 (bcount + 1))
                           min_gallop saved ra rb' (bl :: dest)
                end
          | galloping =>
              let min_gallop := if 1 <? min_gallop then min_gallop - 1
                                else min_gallop in
              let saved := min_gallop in
              let na := len ra in
              let k := na - gallop_right bl (rev ra) na (na - 1) in
              let acount := k in
              let dest := rev (take k ra) ++ dest in
              let ra := drop k ra in
              if negb (k =? 0) && (len ra =? 0)
              then (rev ra ++ rev rb ++ dest, saved)
              else
                let dest := bl :: dest in
                let rb := rb' in
                if len rb =? 1 then (rev rb ++ rev ra ++ dest, saved)
                else
                  let nb := len rb in
                  let k := nb - gallop_left (hd al ra) (rev rb) nb (nb - 1) in
                  let bcount := k in
                  let dest := rev (take k rb) ++ dest in
                  let rb := drop k rb in
                  if negb (k =? 0) && (len rb =? 1)
                  then (rev rb ++ rev ra ++ dest, saved)
                  else if negb (k =? 0) && (len rb =? 0)
                  then (rev ra ++ rev rb ++ dest, saved)
                  else
                    let dest := firstn 1 ra ++ dest in
                    let ra := tl ra in
                    if len ra =? 0 then (rev ra ++ rev rb ++ dest, saved)
                    else if (MIN_GALLOP <=? acount) || (MIN_GALLOP <=? bcount)
                    then merge_hi_loop fuel' galloping min_gallop saved
                           ra rb dest
                    else merge_hi_loop fuel' (straight 0 0)
                           (min_gallop + 1) (min_gallop + 1) ra rb dest
              end
      | _, _ => (rev ra ++ rev rb ++ dest, saved)
      end
  end.

Definition merge_hi (a b : list A) (saved : Z) : list A * Z :=
  match rev a with
  | [] => (b, saved)
  | al :: ra' =>
      match ra', b with
      | [], _ => (b ++ [al], saved)
      | _, [b0] => (b0 :: rev ra' ++ [al], saved)
      | _, _ =>
          merge_hi_loop (S (List.length a + List.length b)) (straight 0 0)
            saved saved ra' (rev b) [al]
      end
  end.

(** [merge_at] on two adjacent runs: the head of the first that is already in
    place and the tail of the second that is are left where they are. *)
Definition merge_at (a b : list A) (saved : Z) : list A * Z :=
  match a, b with
  | a0 :: _, b0 :: _ =>
      let k := gallop_right b0 a (len a) 0 in
      let a' := drop k a in
      match a' with
      | [] => (a ++ b, saved)
      | _ :: _ =>
          let nb := gallop_left (last a' a0) b (len b) (len b - 1) in
          if nb <=? 0 then (a ++ b, saved)
          else
            let b' := take nb b in
            let res :=
              if len a' <=? len b' then merge_lo a' b' saved
              else merge_hi a' b' saved in
            (take k a ++ fst res ++ drop nb b, snd res)
      end
  | _, _ => (a ++ b, saved)
  end.

(** A pending run: its elements, the index of its first element and its
    power. *)
Record pending : Type := { r_items : list A; r_base : Z; r_power : Z }.

(** The elements of a stack of runs, the most recent run first *)
Definition stack_items (stack : list pending) : list A :=
  concat (map r_items stack).

(** [powerloop]: the power of the boundary between the run at [s1] of
    length [n1] and the next of length [n2], in a list of [n] elements *)
Fixpoint powerloop (fuel : nat) (a b n : Z) (result : Z) : Z :=
  match fuel with
  | O => result
  | S fuel' =>
      let result := result + 1 in
      if n <=? a then powerloop fuel' (2 * (a - n)) (2 * (b - n)) n result
      else if n <=? b then result
      else powerloop fuel' (2 * a) (2 * b) n result
  end.

Definition power_of (s1 n1 n2 n : Z) : Z :=
  let a := 2 * s1 + n1 in
  let b := a + n1 + n2 in
  powerloop (S (Z.to_nat (Z.log2 n) + 2)) a b n 0.

(** [found_new_run]: the two runs on top are merged while the power below
    exceeds that of the new boundary.  The stack holds the most recent run
    first. *)
Fixpoint collapse_power (fuel : nat) (power : Z) (stack : list pending)
    (saved : Z) : list pending * Z :=
  match fuel, stack with
  | S fuel', top :: second :: below =>
      if power <? r_power second then
        let m := merge_at (r_items second) (r_items top) saved in
        collapse_power fuel' power
          ({| r_items := fst m; r_base := r_base second;
              r_power := r_power second |} :: below) (snd m)
      else (stack, saved)
  | _, _ => (stack, saved)
  end.

Definition found_new_run (n2 n : Z) (stack : list pending) (saved : Z)
  : list pending * Z :=
  match stack with
  | [] => (stack, saved)
  | top :: _ =>
      let power := power_of (r_base top) (len (r_items top)) n2 n in
      let '(stack, saved) :=
        collapse_power (List.length stack) power stack saved in
      (match stack with
       | top :: below =>
           {| r_items := r_items top; r_base := r_base top;
              r_power := power |} :: below
       | [] => []
       end, saved)
  end.

(** [merge_force_collapse] *)
Fixpoint force_collapse (fuel : nat) (stack : list pending) (saved : Z)
  : list pending :=
  match fuel, stack with
  | S fuel', top :: second :: below =>
      match below with
      | third :: below' =>
          if len (r_items third) <? len (r_items top) then
            let m := merge_at (r_items third) (r_items second) saved in
            force_collapse fuel'
              (top :: {| r_items := fst m; r_base := r_base third;
                         r_power := r_power third |} :: below') (snd m)
          else
            let m := merge_at (r_items second) (r_items top) saved in
            force_collapse fuel'
              ({| r_items := fst m; r_base := r_base second;
                  r_power := r_power second |} :: below) (snd m)
      | [] =>
          let m := merge_at (r_items second) (r_items top) saved in
          force_collapse fuel'
            ({| r_items := fst m; r_base := r_base second;
                r_power := r_power second |} :: below) (snd m)
      end
  | _, _ => stack
  end.

(** [merge_compute_minrun]: the length itself below 64 *)
Fixpoint compute_minrun (fuel : nat) (n r : Z) : Z :=
  match fuel with
  | O => n + r
  | S fuel' =>
      if 64 <=? n
      then compute_minrun fuel' (Z.shiftr n 1) (Z.lor r (Z.land n 1))
      else n + r
  end.

Definition merge_compute_minrun (n : Z) : Z :=
  compute_minrun (Z.to_nat (Z.log2 n) + 1) n 0.

(** The loop of [list_sort_impl] over the runs *)
Fixpoint sort_loop (fuel : nat) (n minrun base : Z) (rest : list A)
    (stack : list pending) (saved : Z) : list pending * Z :=
  match fuel, rest with
  | S fuel', _ :: _ =>
      let '(k, descending) := count_run rest in
      let r := firstn k rest in
      let r := if descending then rev r else r in
      let nremaining := len rest in
      let force := if nremaining <=? minrun then nremaining else minrun in
      let k' := if Z.of_nat k <? minrun then Z.to_nat force else k in
      let r := if Z.of_nat k <? minrun
               then binarysort r (firstn (k' - k) (skipn k rest)) else r in
      let '(stack, saved) := found_new_run (Z.of_nat k') n stack saved in
      sort_loop fuel' n minrun (base + Z.of_nat k') (skipn k' rest)
        ({| r_items := r; r_base := base; r_power := 0 |} :: stack) saved
  | _, _ => (stack, saved)
  end.

(** [l.sort()]: the runs are found, short ones extended to [minrun] by
    [binarysort], and merged as their powers tell; [lt x y] is
    [key(x) < key(y)]. *)
Definition list_sort (l : list A) : list A :=
  match l with
  | [] | [_] => l
  | _ =>
      let n := len l in
      let '(stack, saved) :=
        sort_loop (List.length l) n (merge_compute_minrun n) 0 l []
                  MIN_GALLOP in
      concat (map r_items
                (rev (force_collapse (List.length stack) stack saved)))
  end.

(** [l.sort(reverse=True)]: the list is reversed, sorted, and reversed
    again. *)
Definition list_sort_reverse (l : list A) : list A := rev (list_sort (rev l)).

End ListSort.

End ListSort.

(** [l[:n]] *)
Definition slice_to {A : Type} (n : Z) (l : list A) : list A :=
  if n <? 0 then firstn (Z.to_nat (Z.of_nat (List.length l) + n)) l
  else firstn (Z.to_nat n) l.

(** ** Meta pool (lines 356-367) *)

Definition by_players (x y : BaseRow) : bool :=
  players_overall x <? players_overall y.

(** [{row["deck"] for row in base_rows[:meta_pool_size]}] *)
Definition meta_decks_of (meta_pool_size : Z) (base_rows : list BaseRow)
  : strset :=
  fold_left set_add (map deck (slice_to meta_pool_size base_rows)) [].

Definition total_players_meta_of (meta_decks : strset)
    (base_rows : list BaseRow) : Z :=
  fold_left Z.add
    (map players_overall
         (filter (fun row => set_mem meta_decks (deck row)) base_rows)) 0.

Definition meta_weight_step (meta_decks : strset) (total_players_meta : Z)
    (mw : option (dict float)) (row : BaseRow) : option (dict float) :=
  mw <- mw ;;
  if set_mem meta_decks (deck row) && (total_players_meta >? 0) then
    q <- int_truediv (players_overall row) total_players_meta ;;
    Some (dict_set mw (deck row) q)
  else Some mw.

Definition meta_weight_of (meta_decks : strset) (base_rows : list BaseRow)
  : option (dict float) :=
  fold_left
    (meta_weight_step meta_decks (total_players_meta_of meta_decks base_rows))
    base_rows (Some []).

(** ** Matchup matrix (lines 369-398) *)

Definition matrix := dict (dict Cell).

Definition add_cell (w l t : Z) (c : Cell) : Cell :=
  {| cell_wins := cell_wins c + w;
     cell_losses := cell_losses c + l;
     cell_ties := cell_ties c + t |}.

(** [matchups_agg[a][b]] with its three [+=] *)
Definition bump (m : matrix) (a b : text) (w l t : Z) : matrix :=
  dict_upd [] (fun inner => dict_upd cell0 (add_cell w l t) inner b) m a.

(** Lines 385-398 *)
Definition record_matchup (deck : text) (m : matrix) (e : text * Matchup)
  : matrix :=
  let '(opp, stats) := e in
  let w := m_wins stats in
  let l := m_losses stats in
  let t := m_ties stats in
  bump (bump m deck opp w l t) opp deck l w t.

Definition cell (m : matrix) (x y : text) : option Cell :=
  match dict_get m x with
  | Some inner => dict_get inner y
  | None => None
  end.

(** [s.rstrip("/")] *)
Definition rstrip_slash (s : text) : text :=
  rev ((fix go (r : text) : text :=
          match r with
          | c :: r' => if is_char "/" c then go r' else r
          | [] => []
          end) (rev s)).

(** A request of the page fetcher: the deck it is made for and the URL. *)
Definition request := (text * text)%type.

(** Lines 203-204: the URL of the matchup tab *)
Definition matchups_url (deck_url : text) : text :=
  if ends_with (str "/matchups") deck_url then deck_url
  else rstrip_slash deck_url ++ str "/matchups".

Section Pipeline.

(** The page fetcher followed by the reduction to text: the text of the
    page at a URL, or [None] when fetching raises. *)
Variable fetch_page : text -> option text.

(** The iteration order of a set of strings, from its elements in insertion
    order: [for x in s] and [list(s)] go through [set_iter s]. *)
Variable set_iter : strset -> list text.

(** [fetch_matchups_for_deck] (app.py, lines 196-213); [meta_decks] in
    iteration order. *)
Definition fetch_matchups_for_deck (deck_url this_deck : text)
    (meta_decks : list text) : option (dict Matchup) :=
  page <- fetch_page (matchups_url deck_url) ;;
  extract_matchups_from_html page this_deck meta_decks.

(** Lines 378-398: one URL of a meta deck.  The state is the matrix and the
    requests made so far; an exception of the fetch is caught and the URL
    skipped. *)
Definition url_step (deck : text) (meta_decks : list text)
    (st : matrix * list request) (url : text) : matrix * list request :=
  (match fetch_matchups_for_deck url deck meta_decks with
   | None => fst st
   | Some per_tournament_matchups =>
       fold_left (record_matchup deck) per_tournament_matchups (fst st)
   end,
   snd st ++ [(deck, matchups_url url)]).

(** Lines 373-398: one meta deck *)
Definition deck_step (urls_global : dict strset) (meta_decks : list text)
    (st : matrix * list request) (deck : text) : matrix * list request :=
  let urls :=
    match dict_get urls_global deck with
    | Some s => set_iter s
    | None => []
    end in
  fold_left (url_step deck meta_decks) urls st.

Definition matchups_run (urls_global : dict strset) (meta_decks : strset)
  : matrix * list request :=
  let order := set_iter meta_decks in
  fold_left (deck_step urls_global order) order ([], []).

End Pipeline.

(** ** Matchup score and final score (lines 400-420) *)

Record ScoredDeckRow : Type := {
  row : BaseRow;
  matchup_score : float;
  final_score : float
}.

(** Lines 406-413: one opponent of the deck *)
Definition matchup_term (meta_weight : dict float) (acc : option float)
    (e : text * Cell) : option float :=
  acc <- acc ;;
  let '(opp, s) := e in
  let games := cell_wins s + cell_losses s + cell_ties s in
  if games <=? 0 then Some acc
  else
    win_pct_vs_opp <- win_pct (cell_wins s) (cell_ties s) games ;;
    let delta := fsub win_pct_vs_opp f50 in
    let weight_opp := or_default (dict_get meta_weight opp) f0_0 in
    Some (fadd acc (fmul weight_opp delta)).

Definition matchup_score_of (meta_weight : dict float) (m_vs : dict Cell)
  : option float :=
  fold_left (matchup_term meta_weight) m_vs (Some f0_0).

(** Lines 401-416: one row *)
Definition score_row (matchup_weight : float) (meta_weight : dict float)
    (matchups_agg : matrix) (r : BaseRow) : option ScoredDeckRow :=
  let m_vs :=
    match dict_get matchups_agg (deck r) with
    | Some inner => inner
    | None => []
    end in
  ms <- matchup_score_of meta_weight m_vs ;;
  Some {| row := r;
          matchup_score := ms;
          final_score := fadd (base_score r) (fmul matchup_weight ms) |}.

Definition by_final_score (x y : ScoredDeckRow) : bool :=
  fltb (final_score x) (final_score y).

(** Line 419: [base_rows.sort(key=lambda x: x["final_score"], reverse=True)].
    When no final score is NaN, [<] orders the keys and the sort, which is
    stable, returns the one stable descending order; with a NaN the rows come
    out as the algorithm of the interpreter leaves them. *)
Definition sort_by_final_score (rows : list ScoredDeckRow)
  : list ScoredDeckRow :=
  if forallb (fun r => negb (is_nan (final_score r))) rows
  then sort_desc by_final_score rows
  else ListSort.list_sort_reverse by_final_score rows.

Section Aggregate.

Variable fetch_page : text -> option text.
Variable set_iter : strset -> list text.

(** Lines 300-416 on the accumulated statistics: the rows before the final
    sort, the matrix, and the requests made. *)
Definition score_all (st : AggState)
    (min_players meta_pool_size : Z) (matchup_weight : float)
  : option (list ScoredDeckRow * matrix * list request) :=
  rows <- base_rows_of min_players st ;;
  let base_rows := sort_desc by_players rows in
  let meta_decks := meta_decks_of meta_pool_size base_rows in
  meta_weight <- meta_weight_of meta_decks base_rows ;;
  let run :=
    matchups_run fetch_page set_iter (deck_urls_global st) meta_decks in
  let matchups_agg := fst run in
  scored <- mapM (score_row matchup_weight meta_weight matchups_agg)
                 base_rows ;;
  Some (scored, matchups_agg, snd run).

(** [aggregate_tournaments_with_matchups] (app.py, lines 252-420), on the
    data of the tournaments in the order of [tournament_ids]. *)
Definition aggregate_tournaments_with_matchups (ts : list TournamentData)
    (min_players meta_pool_size : Z) (matchup_weight : float)
  : option (list ScoredDeckRow * matrix) :=
  res <- score_all (aggregate ts) min_players meta_pool_size matchup_weight ;;
  Some (sort_by_final_score (fst (fst res)), snd (fst res)).

End Aggregate.

(** The defaults of the signature *)
Definition default_min_players : Z := 20.
Definition default_meta_pool_size : Z := 20.
Definition default_matchup_weight : float := f0_5.

(** ** Notions used by the statements *)

(** Two dictionaries with the same entries, whatever their order. *)
Definition same_entries {V : Type} (d1 d2 : dict V) : Prop :=
  forall k, dict_get d1 k = dict_get d2 k.

(** One record folded into a dictionary of sums, in the manner of lines
    279-298: the entry of its key is created from [dflt] or updated. *)
Definition upd_step {V R : Type} (dflt : V) (f : R -> V -> V)
    (key : R -> text) (d : dict V) (r : R) : dict V :=
  dict_upd dflt (f r) d (key r).

(** The cell of the reverse pairing: wins and losses exchanged. *)
Definition mirror (c : Cell) : Cell :=
  {| cell_wins := cell_losses c;
     cell_losses := cell_wins c;
     cell_ties := cell_ties c |}.

(** A cell never created counts as zeros. *)
Definition cell_or_zero (c : option Cell) : Cell :=
  match c with Some c => c | None => cell0 end.

Definition symmetric (m : matrix) : Prop :=
  forall x y, cell m x y = option_map mirror (cell m y x).

(** [x] is not below [y] in the order [lt]: what a descending sort puts
    between an element and every later one. *)
Definition not_below {A : Type} (lt : A -> A -> bool) (x y : A) : Prop :=
  lt x y = false.

(** The rank of a float that is not NaN in the order of [<]. *)
Definition fkey (x : float) : Z * Z * Z :=
  match x with
  | S754_infinity true => (-2, 0, 0)
  | S754_finite true m e => (-1, - e, Zneg m)
  | S754_zero _ => (0, 0, 0)
  | S754_nan => (0, 0, 0)
  | S754_finite false m e => (1, e, Zpos m)
  | S754_infinity false => (2, 0, 0)
  end.

Definition lex3 (a b : Z * Z * Z) : comparison :=
  let '(a1, a2, a3) := a in
  let '(b1, b2, b3) := b in
  match a1 ?= b1 with
  | Eq => match a2 ?= b2 with Eq => a3 ?= b3 | c => c end
  | c => c
  end.


(** ** The base score as the specification words it

    A bucket that was never created counts as zeros. *)

Definition bucket (d : dict Stats) (name : text) : Stats :=
  match dict_get d name with Some s => s | None => stats0 end.

Definition conv_bucket (d : dict ConvStats) (name : text) : ConvStats :=
  match dict_get d name with Some c => c | None => conv0 end.

Definition games (s : Stats) : Z := wins s + losses s + ties s.

(** [(wins + 0.5·ties) / (wins+losses+ties) × 100], each operation rounded to
    binary64; the three counts must be in the range of a float. *)
Definition spec_win_pct (s : Stats) : option float :=
  w <- float_of_int (wins s) ;;
  t <- float_of_int (ties s) ;;
  g <- float_of_int (wins s + losses s + ties s) ;;
  Some (fmul (fdiv (fadd w (fmul f0_5 t)) g) f100).

(** [day2_win_pct] if day-2 games > 0, else [overall_win_pct] *)
Definition spec_day2_term (st : AggState) (name : text) (owp : float)
  : option float :=
  let d2 := bucket (day2_stats st) name in
  if 0 <? games d2 then spec_win_pct d2 else Some owp.

(** [conv_pct] if accumulated day1 > 0, else [50.0] *)
Definition spec_conv_term (st : AggState) (name : text) : option float :=
  let c := conv_bucket (conv_stats st) name in
  if 0 <? day1 c then
    q <- int_truediv (day2 c) (day1 c) ;;
    Some (fmul q f100)
  else Some f50.

(** [0.4 × overall + 0.4 × day-2 term + 0.2 × conversion term] *)
Definition spec_base_score (st : AggState) (name : text) (o : Stats)
  : option float :=
  owp <- spec_win_pct o ;;
  d2 <- spec_day2_term st name owp ;;
  c <- spec_conv_term st name ;;
  Some (fadd (fadd (fmul f0_4 owp) (fmul f0_4 d2)) (fmul f0_2 c)).

(** The requests made for the URLs of a deck, in order. *)
Definition requests_for (deck : text) (urls : list text) : list request :=
  map (fun u => (deck, matchups_url u)) urls.

(** [list(deck_urls_global.get(deck, []))] *)
Definition urls_of (set_iter : strset -> list text)
    (urls_global : dict strset) (deck : text) : list text :=
  match dict_get urls_global deck with
  | Some s => set_iter s
  | None => []
  end.

(** ** A sample run

    Two tournaments; four decks, of which one stays below twenty players and
    one is outside a pool of two; one matchup page that cannot be fetched. *)

Definition sample_pages1 : TournamentPages :=
  {| main_text :=
       str ("307 Gholdengo Lunatone 14.52% 1295 - 1054 - 456 51.59% " ++
            "250 Dragapult Dusknoir 11% 500 - 400 - 100 52% " ++
            "100 Gardevoir 5% 100 - 120 - 10 47% " ++
            "10 Rogue 1% 20 - 1 - 0 90%");
     day2_text := str "77 Gholdengo Lunatone 14,52% 300 - 200 - 100 51.59%";
     conv_text := str "Gholdengo Lunatone 307 77 25.08% Gardevoir 100 10 10%";
     page_links :=
       [(str "Gholdengo Lunatone", str "/0001/decks/a");
        (str "Dragapult Dusknoir", str "/0001/decks/b");
        (str "Gardevoir", str "/0001/decks/c")] |}.

Definition sample_pages2 : TournamentPages :=
  {| main_text :=
       str ("40 Gholdengo Lunatone 10% 90 - 80 - 30 50% " ++
            "5 Rogue 1% 9 - 0 - 0 100%");
     day2_text := str "";
     conv_text := str "";
     page_links := [(str "Gholdengo Lunatone", str "/0002/decks/a/")] |}.

Definition sample_fetch (url : text) : option text :=
  if text_eqb url (str "/0001/decks/a/matchups") then
    Some (str ("Dragapult Dusknoir 361 182 - 125 - 54 55.40% " ++
               "Gardevoir 310 154 - 91 - 65 56.67%"))
  else if text_eqb url (str "/0001/decks/b/matchups") then
    Some (str "gholdengo lunatone 361 120 - 180 - 50 44% ")
  else None.

Definition sample_iter (s : strset) : list text := s.

Definition sample_ts : list TournamentData :=
  Eval vm_compute in
    match mapM fetch_tournament_data_with_links [sample_pages1; sample_pages2]
    with Some l => l | None => [] end.

Definition sample_state : AggState := Eval vm_compute in aggregate sample_ts.

Definition sample_rows : list ScoredDeckRow :=
  Eval vm_compute in
    match aggregate_tournaments_with_matchups sample_fetch sample_iter
            sample_ts 20 2 f0_5
    with Some res => fst res | None => [] end.

Definition sample_matrix : matrix :=
  Eval vm_compute in
    match aggregate_tournaments_with_matchups sample_fetch sample_iter
            sample_ts 20 2 f0_5
    with Some res => snd res | None => [] end.

(** ** The order of the ranking *)

(** [x] may stand before [y] in a descending ranking:
    [final_score(y) <= final_score(x)]. *)
Definition ranks_before (x y : ScoredDeckRow) : Prop :=
  SFleb (final_score y) (final_score x) = true.

(** The rows whose final score equals [k], in their order in [l]. *)
Definition tied_at (k : float) (l : list ScoredDeckRow) : list ScoredDeckRow :=
  filter (fun r => feqb (final_score r) k) l.

(** ** Signs and non-negative counts *)

(** A float whose sign bit is clear, or NaN. *)
Definition not_negative (x : float) : bool :=
  match x with
  | S754_zero s | S754_infinity s | S754_finite s _ _ => negb s
  | S754_nan => true
  end.

Definition summary_nonneg (r : SummaryRecord) : bool :=
  (0 <=? s_players r) && (0 <=? s_wins r) && (0 <=? s_losses r)
  && (0 <=? s_ties r).

Definition conversion_nonneg (r : ConversionRecord) : bool :=
  (0 <=? c_day1_players r) && (0 <=? c_day2_players r).

(** The counts of a tournament are natural numbers, as the extractors
    produce them. *)
Definition nonneg_data (d : TournamentData) : bool :=
  forallb summary_nonneg (overall d) && forallb summary_nonneg (day2_rows d)
  && forallb conversion_nonneg (conversion d).

Definition stats_nonneg (s : Stats) : Prop :=
  0 <= wins s /\ 0 <= losses s /\ 0 <= ties s /\ 0 <= players s.

Definition conv_nonneg (c : ConvStats) : Prop := 0 <= day1 c /\ 0 <= day2 c.

Definition dict_all {V : Type} (P : V -> Prop) (d : dict V) : Prop :=
  Forall (fun e => P (snd e)) d.

(** What [float("inf")] reads from the form field of the weight (line 606) *)
Definition f_inf : float := S754_infinity false.

(** A tournament of three decks, in descending order of players: the page of
    the first shows that it loses against the third, and the second has no
    matchup. *)
Definition nan_pages : TournamentPages :=
  {| main_text :=
       str ("300 Papa 50% 10 - 10 - 0 50% " ++
            "200 Quebec 30% 10 - 10 - 0 50% " ++
            "100 Romeo 20% 10 - 10 - 0 50%");
     day2_text := str "";
     conv_text := str "";
     page_links := [(str "Papa", str "/0003/decks/p")] |}.

Definition nan_fetch (url : text) : option text :=
  if text_eqb url (str "/0003/decks/p/matchups") then
    Some (str "Romeo 30 10 - 20 - 0 33.33%")
  else None.

Definition nan_ts : list TournamentData :=
  Eval vm_compute in
    match mapM fetch_tournament_data_with_links [nan_pages]
    with Some l => l | None => [] end.

Definition sample_base_rows : list BaseRow :=
  Eval vm_compute in
    match base_rows_of 20 sample_state with Some l => l | None => [] end.

Definition sample_outside_row : BaseRow :=
  Eval vm_compute in
    nth 2 sample_base_rows
        (Build_BaseRow [] 0 f0_0 0 None None f0_0).

(** ** What a pattern matches

    [matches r u caps caps']: the pattern [r] matches exactly the text [u],
    and extends the captures [caps] to [caps'].  The backtracking matcher
    finds one of these; which one is a matter of priorities. *)

Inductive matches : regex -> text -> captures -> captures -> Prop :=
| M_Lit ci l u caps :
    prefix_ci ci l u = Some [] -> matches (Lit ci l) u caps caps
| M_Cls p c caps :
    p c = true -> matches (Cls p) [c] caps caps
| M_Opt_one p c caps :
    p c = true -> matches (Opt p) [c] caps caps
| M_Opt_none p caps :
    matches (Opt p) [] caps caps
| M_Star p u caps :
    forallb p u = true -> matches (Star p) u caps caps
| M_Plus p c u caps :
    forallb p (c :: u) = true -> matches (Plus p) (c :: u) caps caps
| M_LazyPlus p c u caps :
    forallb p (c :: u) = true -> matches (LazyPlus p) (c :: u) caps caps
| M_Group r u caps caps' :
    matches r u caps caps' -> matches (Group r) u caps (caps' ++ [u])
| M_Seq r1 r2 u1 u2 caps caps1 caps2 :
    matches r1 u1 caps caps1 -> matches r2 u2 caps1 caps2 ->
    matches (Seq r1 r2) (u1 ++ u2) caps caps2.

(** ** Rows of a page, as the docstrings show them *)

(** A numeral of the shape [\d+[.,]?\d*]: digits, and possibly a separator
    followed by digits. *)
Record Numeral : Type := {
  n_int : text;
  n_sep : option ascii;
  n_frac : text
}.

Definition numeral_text (n : Numeral) : text :=
  match n_sep n with
  | Some c => n_int n ++ c :: n_frac n
  | None => n_int n
  end.

Definition is_digits (s : text) : bool :=
  match s with [] => false | _ => forallb is_digit s end.

Definition valid_numeral (n : Numeral) : bool :=
  is_digits (n_int n) &&
  match n_sep n with
  | Some c => is_sep c && forallb is_digit (n_frac n)
  | None => match n_frac n with [] => true | _ => false end
  end.

(** [[0-9.,]] *)
Definition numeral_char (c : ascii) : bool := is_digit c || is_sep c.

(** The number a numeral denotes: its digits over the power of ten of its
    fraction, correctly rounded. *)
Definition numeral_value (n : Numeral) : float :=
  decimal_value false (n_int n) (n_frac n).


(** ["P D S% W - L - T R%"] *)
Definition summary_row (p d : text) (s : Numeral) (w l t : text) (r : Numeral)
  : text :=
  p ++ str " " ++ d ++ str " " ++ numeral_text s ++ str "% " ++
  w ++ str " - " ++ l ++ str " - " ++ t ++ str " " ++
  numeral_text r ++ str "%".





(** ["D day1 day2 C%"] *)
Definition conversion_row (d day1 day2 : text) (c : Numeral) : text :=
  d ++ str " " ++ day1 ++ str " " ++ day2 ++ str " " ++
  numeral_text c ++ str "%".

(** The first character of a name is in [[A-Z0-9]]. *)
Definition anchored (d : text) : Prop :=
  exists c rest, d = c :: rest /\ is_upper_or_digit c = true.

(** ** The path of first priority

    [stops p s]: the text [s] does not go on with a character of [p].
    [leads r s caps s' caps']: the alternative the matcher tries first for
    [r] on [s] leaves [s'] and [caps'], so that it is the match as soon as
    what follows succeeds there. *)

Definition stops (p : ascii -> bool) (s : text) : Prop :=
  match s with
  | c :: _ => p c = false
  | [] => True
  end.

Definition leads (r : regex) (s : text) (caps : captures)
    (s' : text) (caps' : captures) : Prop :=
  forall (R : Type) (k : @cont R) (res : R),
    k s' caps' = Some res -> run r s caps k = Some res.




(** ** A run whose float sums depend on the iteration order

    One tournament of four decks; the matchup page of the first gives its
    record against the three others. *)

Definition order_pages : TournamentPages :=
  {| main_text :=
       str ("400 Alpha 40% 500 - 400 - 100 55% " ++
            "300 Bravo 30% 300 - 300 - 50 50% " ++
            "200 Charlie 20% 200 - 210 - 30 49% " ++
            "100 Delta 10% 100 - 120 - 10 47%");
     day2_text := str "";
     conv_text := str "";
     page_links := [(str "Alpha", str "/0003/decks/x")] |}.

Definition order_fetch (url : text) : option text :=
  if text_eqb url (str "/0003/decks/x/matchups") then
    Some (str ("Bravo 11 7 - 3 - 1 68.18% " ++
               "Charlie 11 5 - 3 - 3 59.09% " ++
               "Delta 11 7 - 3 - 1 68.18%"))
  else None.

Definition order_ts : list TournamentData :=
  Eval vm_compute in
    match mapM fetch_tournament_data_with_links [order_pages]
    with Some l => l | None => [] end.

(** Two iteration orders of the same sets. *)
Definition iter_forward (s : strset) : list text := s.
Definition iter_backward (s : strset) : list text := rev s.

Definition order_rows_forward : list ScoredDeckRow :=
  Eval vm_compute in
    match aggregate_tournaments_with_matchups order_fetch iter_forward
            order_ts 20 20 f0_5
    with Some res => fst res | None => [] end.

Definition order_matrix_forward : matrix :=
  Eval vm_compute in
    match aggregate_tournaments_with_matchups order_fetch iter_forward
            order_ts 20 20 f0_5
    with Some res => snd res | None => [] end.

Definition order_rows_backward : list ScoredDeckRow :=
  Eval vm_compute in
    match aggregate_tournaments_with_matchups order_fetch iter_backward
            order_ts 20 20 f0_5
    with Some res => fst res | None => [] end.

(** ** The updates of the matrix, one by one *)

(** Two matrices with the same cells, whatever the order of their entries. *)
Definition same_cells (m m' : matrix) : Prop :=
  forall x y, cell m x y = cell m' x y.

(** An iteration order of sets: the elements of the set, each once. *)
Definition iter_ok (set_iter : strset -> list text) : Prop :=
  forall s, NoDup s -> Permutation s (set_iter s).

(** One [+=] group of lines 391-398: the pair and the counts added. *)
Definition bump_rec := (text * text * (Z * Z * Z))%type.

Definition apply_bump (m : matrix) (b : bump_rec) : matrix :=
  let '(a, o, (w, l, t)) := b in bump m a o w l t.

(** The two groups one discovered matchup gives rise to. *)
Definition bumps_of (deck : text) (e : text * Matchup) : list bump_rec :=
  let '(opp, stats) := e in
  [(deck, opp, (m_wins stats, m_losses stats, m_ties stats));
   (opp, deck, (m_losses stats, m_wins stats, m_ties stats))].

(** What one candidate opponent contributes to the result of
    [extract_matchups_from_html]: nothing, one entry, or an exception. *)
Definition matchup_entry (html_text this_deck opp : text)
  : option (list (text * Matchup)) :=
  if text_eqb opp this_deck then Some []
  else
    match search (matchup_pattern opp) html_text with
    | None => Some []
    | Some m => v <- matchup_of_match m ;; Some [(opp, v)]
    end.

(** Two outcomes that fail together or succeed with the same elements. *)
Definition operm {A : Type} (o o' : option (list A)) : Prop :=
  match o, o' with
  | None, None => True
  | Some a, Some b => Permutation a b
  | _, _ => False
  end.

(** The updates one page gives rise to; none when fetching raises. *)
Definition page_bumps (fetch_page : text -> option text) (deck : text)
    (order : list text) (url : text) : list bump_rec :=
  match fetch_matchups_for_deck fetch_page url deck order with
  | None => []
  | Some per => flat_map (bumps_of deck) per
  end.

(** All the updates of a run, in the order they are made. *)
Definition all_bumps (fetch_page : text -> option text)
    (set_iter : strset -> list text) (urls_global : dict strset)
    (meta_decks : strset) : list bump_rec :=
  flat_map
    (fun d => flat_map (page_bumps fetch_page d (set_iter meta_decks))
                       (urls_of set_iter urls_global d))
    (set_iter meta_decks).

(** The opponents recorded for a deck. *)
Definition inner_of (m : matrix) (x : text) : dict Cell :=
  match dict_get m x with Some i => i | None => [] end.

(** No opponent is recorded twice for a deck. *)
Definition inner_nodup (m : matrix) : Prop :=
  dict_all (fun i : dict Cell => NoDup (dict_keys i)) m.

(** The matchup score exists when every term does. *)
Definition term_defined (mw : dict float) (e : text * Cell) : Prop :=
  matchup_term mw (Some f0_0) e <> None.


(** ** More of [str] *)

(** [s.startswith(p)] *)
Definition starts_with (p s : text) : bool :=
  match prefix_ci false p s with
  | Some _ => true
  | None => false
  end.

(** [needle in s] *)
Fixpoint contains (needle s : text) : bool :=
  starts_with needle s ||
  match s with
  | _ :: s' => contains needle s'
  | [] => false
  end.

(** [[^/]] *)
Definition not_slash (c : ascii) : bool := negb (is_char "/" c).

(** [c.isdigit()] on a code point below 256: the decimal digits and the
    superscripts two, three and one. *)
Definition is_digit_char (c : ascii) : bool :=
  is_digit c || (code c =? 178)%N || (code c =? 179)%N || (code c =? 185)%N.

(** [s.isdigit()] *)
Definition isdigit (s : text) : bool :=
  match s with
  | [] => false
  | _ => forallb is_digit_char s
  end.

(** [s.zfill(width)]: zeros on the left, after a sign if there is one *)
Definition zfill (width : nat) (s : text) : text :=
  let pad := repeat "0"%char (width - List.length s) in
  match s with
  | c :: s' =>
      if is_char "+" c || is_char "-" c then c :: pad ++ s' else pad ++ s
  | [] => pad
  end.

(** The line boundaries of [str.splitlines] below 256 *)
Definition is_linebreak (c : ascii) : bool :=
  in_range 10 13 c || in_range 28 30 c || (code c =? 133)%N.

(** [s.splitlines()]: [cur] is the line being read, reversed.  A carriage
    return followed by a line feed is one boundary, and a boundary at the end
    of the text opens no further line. *)
Fixpoint splitlines_from (cur : text) (s : text) : list text :=
  match s with
  | [] =>
      match cur with
      | [] => []
      | _ => [rev cur]
      end
  | c :: s' =>
      if is_linebreak c then
        rev cur ::
        match s' with
        | c' :: s'' =>
            if ((code c =? 13) && (code c' =? 10))%N
            then splitlines_from [] s''
            else splitlines_from [] s'
        | [] => []
        end
      else splitlines_from (c :: cur) s'
  end.

Definition splitlines (s : text) : list text := splitlines_from [] s.

(** The lines of a text field, each followed by the line end [eol] *)
Definition join_lines (eol : text) (lines : list text) : text :=
  concat (map (fun l => l ++ eol) lines).

Definition LF : ascii := "010"%char.
Definition CR : ascii := "013"%char.

(** [str(z)] *)
Definition digit_char (d : Z) : ascii := ascii_of_N (Z.to_N (48 + d)).

Fixpoint digits_of (fuel : nat) (n : Z) (acc : text) : text :=
  match fuel with
  | O => acc
  | S fuel' =>
      let acc' := digit_char (n mod 10) :: acc in
      if n <? 10 then acc' else digits_of fuel' (n / 10) acc'
  end.

(** The decimal digits of [n >= 0]; a number has at most as many decimal
    digits as binary ones. *)
Definition str_of_nat (n : Z) : text :=
  digits_of (S (Z.to_nat (Z.log2 n))) n [].

Definition str_of_int (z : Z) : text :=
  if z <? 0 then "-"%char :: str_of_nat (- z) else str_of_nat z.

(** [m * 2^e] rounded to an integer, ties to even *)
Definition round_half_even (m e : Z) : Z :=
  if 0 <=? e then m * 2 ^ e
  else
    let d := 2 ^ (- e) in
    let q := m / d in
    let r := m mod d in
    if 2 * r <? d then q
    else if d <? 2 * r then q + 1
    else if Z.even q then q else q + 1.

(** [f"{x:.1f}"]: the decimal numeral with one digit after the point that is
    nearest to the value of [x] *)
Definition format_1f (x : float) : text :=
  let sign (s : bool) : text := if s then str "-" else [] in
  match x with
  | S754_nan => str "nan"
  | S754_infinity s => sign s ++ str "inf"
  | S754_zero s => sign s ++ str "0.0"
  | S754_finite s m e =>
      let n := round_half_even (10 * Zpos m) e in
      sign s ++ str_of_nat (n / 10) ++ "."%char :: [digit_char (n mod 10)]
  end.

(** ** Totals of the records of a deck *)

Definition zsum (l : list Z) : Z := fold_right Z.add 0 l.

(** The records of a name in a feed *)
Definition summaries_of (name : text) (l : list SummaryRecord)
  : list SummaryRecord :=
  filter (fun d => text_eqb (s_deck d) name) l.

Definition conversions_of (name : text) (l : list ConversionRecord)
  : list ConversionRecord :=
  filter (fun c => text_eqb (c_deck c) name) l.

Definition summary_totals (l : list SummaryRecord) : Stats :=
  {| wins := zsum (map s_wins l);
     losses := zsum (map s_losses l);
     ties := zsum (map s_ties l);
     players := zsum (map s_players l) |}.

Definition conversion_totals (l : list ConversionRecord) : ConvStats :=
  {| day1 := zsum (map c_day1_players l);
     day2 := zsum (map c_day2_players l) |}.

(** The totals of a name that has a record, [None] for one that has none *)
Definition totals_of {R V : Type} (total : list R -> V) (l : list R)
  : option V :=
  match l with
  | [] => None
  | _ => Some (total l)
  end.

(** The set of URLs kept for a deck, empty when there is none *)
Definition url_set (urls_global : dict strset) (name : text) : strset :=
  match dict_get urls_global name with
  | Some s => s
  | None => []
  end.

(** Every cell of a matrix pairs two distinct names of [decks], and its
    counts are natural numbers. *)
Definition cells_within (decks : list text) (m : matrix) : Prop :=
  forall x y c,
    cell m x y = Some c ->
    x <> y /\ In x decks /\ In y decks /\
    0 <= cell_wins c /\ 0 <= cell_losses c /\ 0 <= cell_ties c.

(** ** [extract_deck_urls] (app.py, lines 120-149)

    The markup is read by the parser of the page; what the function does with
    the elements [<a href=...>] that the parser finds, in document order, is
    this.  An element is given by its [href] and by its text, the value of
    [a.get_text(strip=True)]. *)

Record Anchor : Type := {
  href : text;
  anchor_text : text
}.

Definition site : text := str "https://labs.limitlesstcg.com".

(** [d.setdefault(k, v)] *)
Definition dict_setdefault {V : Type} (d : dict V) (k : text) (v : V)
  : dict V :=
  match dict_get d k with
  | Some _ => d
  | None => d ++ [(k, v)]
  end.

(** Line 139: the generic links of the navigation *)
Definition is_navigation (name : text) : bool :=
  contains (str "Decks") name || contains (str "Players") name
  || contains (str "Conversion") name.

(** Lines 142-145 *)
Definition absolute_url (href : text) : text :=
  if starts_with (str "http") href then href else site ++ href.

(** Lines 130-147: one element *)
Definition deck_url_step (tid : text) (deck_urls : dict text) (a : Anchor)
  : dict text :=
  if negb (contains (str "/" ++ tid ++ str "/decks/") (href a)) then deck_urls
  else
    match anchor_text a with
    | [] => deck_urls
    | name =>
        if is_navigation name then deck_urls
        else dict_setdefault deck_urls name (absolute_url (href a))
    end.

Definition extract_deck_urls (anchors : list Anchor) (tid : text) : dict text :=
  fold_left (deck_url_step tid) anchors [].

(** The elements that pass the three tests of lines 131-140. *)
Definition is_deck_link (tid : text) (a : Anchor) : bool :=
  contains (str "/" ++ tid ++ str "/decks/") (href a)
  && match anchor_text a with [] => false | _ => true end
  && negb (is_navigation (anchor_text a)).

(** ** [normalize_tournament_id] (app.py, lines 570-579)

    [None] is the value [None] of the source: the function raises nothing. *)

(** [/(\d{4})] *)
Definition tournament_id_pattern : regex :=
  (Lit false (str "/") @@
   Group (Cls is_digit @@ Cls is_digit @@ Cls is_digit @@ Cls is_digit))%re.

Definition normalize_tournament_id (line : text) : option text :=
  match strip line with
  | [] => None
  | line =>
      match search tournament_id_pattern line with
      | Some m => Some (group m 1)
      | None => if isdigit line then Some (zfill 4 line) else None
      end
  end.

(** Lines 610-614: the identifiers of the lines of the form field, those that
    are neither [None] nor empty *)
Fixpoint tids_of (lines : list text) : list text :=
  match lines with
  | [] => []
  | line :: lines' =>
      match normalize_tournament_id line with
      | Some (c :: tid) => (c :: tid) :: tids_of lines'
      | _ => tids_of lines'
      end
  end.

(** [BASE_TOURNAMENT_URL.format(tid=tid)] (line 10) *)
Definition BASE_TOURNAMENT_URL (tid : text) : text :=
  site ++ str "/" ++ tid ++ str "/decks".

(** ** From tournament identifiers to the page of results

    The network and the parser of the markup are parameters:
    [http_get url] is the body that [requests.get(url, timeout=20)] followed
    by [raise_for_status()] delivers, or [None] when either raises;
    [get_text html] is [BeautifulSoup(html, "html.parser").get_text(" ",
    strip=True)], and [find_all_a html] the elements of
    [find_all("a", href=True)]. *)

Module Net.

Section Net.

Variable http_get : text -> option text.
Variable get_text : text -> text.
Variable find_all_a : text -> list Anchor.
Variable set_iter : strset -> list text.

(** Lines 206-209: a page of matchups, reduced to text *)
Definition fetch_page (url : text) : option text :=
  html <- http_get url ;;
  Some (get_text html).

(** [fetch_tournament_data_with_links] (app.py, lines 218-249) *)
Definition fetch_tournament_data_with_links (tid : text)
  : option TournamentData :=
  let base_url := BASE_TOURNAMENT_URL tid in
  html_main <- http_get base_url ;;
  overall <- extract_overall_or_day (get_text html_main) ;;
  let deck_urls := extract_deck_urls (find_all_a html_main) tid in
  r_day2 <- http_get (base_url ++ str "?day=2") ;;
  day2 <- extract_overall_or_day (get_text r_day2) ;;
  r_conv <- http_get (base_url ++ str "?conversion=") ;;
  conv <- extract_conversion (get_text r_conv) ;;
  Some {| overall := overall; day2_rows := day2; conversion := conv;
          deck_urls := deck_urls |}.

(** [aggregate_tournaments_with_matchups] (app.py, lines 252-420) from the
    identifiers: an exception of a tournament page escapes the loop of line
    276. *)
Definition aggregate_tournaments_with_matchups (tournament_ids : list text)
    (min_players meta_pool_size : Z) (matchup_weight : float)
  : option (list ScoredDeckRow * matrix) :=
  ts <- mapM fetch_tournament_data_with_links tournament_ids ;;
  aggregate_tournaments_with_matchups fetch_page set_iter ts
    min_players meta_pool_size matchup_weight.

(** ** [index] (app.py, lines 583-664): a POST request

    From the field [tournaments] of the form and the three numbers read from
    the other fields (lines 610-656) to the values handed to the template. *)

Inductive CellType : Type := type_diag | type_empty | type_data.

Record MatrixCell : Type := {
  c_text : text;
  c_wr : option float;
  c_type : CellType
}.

Definition diag_cell : MatrixCell :=
  {| c_text := str "-"; c_wr := None; c_type := type_diag |}.

Definition empty_cell : MatrixCell :=
  {| c_text := []; c_wr := None; c_type := type_empty |}.

(** Line 650: ["W-L-T (wr%)"].  The counts of a cell whose win rate was
    computed were converted to [float], so they are far below the bound of
    the interpreter on the digits [str] writes. *)
Definition cell_label (stats : Cell) (wr : float) : text :=
  str_of_int (cell_wins stats) ++ str "-" ++
  str_of_int (cell_losses stats) ++ str "-" ++
  str_of_int (cell_ties stats) ++ str " (" ++ format_1f wr ++ str "%)".

(** Lines 639-653: one cell; [None] when the arithmetic raises *)
Definition matrix_cell (matchups_agg : matrix) (deck_a deck_b : text)
  : option MatrixCell :=
  if text_eqb deck_a deck_b then Some diag_cell
  else
    match cell matchups_agg deck_a deck_b with
    | None => Some empty_cell
    | Some stats =>
        let g := cell_wins stats + cell_losses stats + cell_ties stats in
        if g >? 0 then
          wr <- win_pct (cell_wins stats) (cell_ties stats) g ;;
          Some {| c_text := cell_label stats wr; c_wr := Some wr;
                  c_type := type_data |}
        else Some empty_cell
    end.

(** Lines 636-654: the rows appended to [matrix] until an exception escapes,
    and whether one did. *)
Fixpoint matrix_rows (matchups_agg : matrix) (matrix_headers : list text)
    (decks : list text) : list (list MatrixCell) * bool :=
  match decks with
  | [] => ([], false)
  | deck_a :: decks' =>
      match mapM (matrix_cell matchups_agg deck_a) matrix_headers with
      | None => ([], true)
      | Some r =>
          let rest := matrix_rows matchups_agg matrix_headers decks' in
          (r :: fst rest, snd rest)
      end
  end.

(** The cell of row [i] and column [j] *)
Definition matrix_at (mx : list (list MatrixCell)) (i j : nat)
  : option MatrixCell :=
  match nth_error mx i with
  | Some r => nth_error r j
  | None => None
  end.

(** The three messages of [error]; the text of the exception that the third
    one quotes is not modelled. *)
Inductive Error : Type :=
| no_valid_tournament_id   (* line 617 *)
| no_deck_passed           (* line 627 *)
| fetch_or_parse_failure.  (* line 656 *)

(** The arguments of [render_template_string] *)
Record View : Type := {
  results : option (list ScoredDeckRow);
  error : option Error;
  matrix_view : option (list (list MatrixCell));
  matrix_headers : option (list text)
}.

Definition error_view (e : Error) : View :=
  {| results := None; error := Some e; matrix_view := None;
     matrix_headers := None |}.

Definition index_post (raw : text) (min_players meta_pool_size : Z)
    (matchup_weight : float) : View :=
  match tids_of (splitlines raw) with
  | [] => error_view no_valid_tournament_id
  | tids =>
      match aggregate_tournaments_with_matchups tids min_players
              meta_pool_size matchup_weight with
      | None => error_view fetch_or_parse_failure
      | Some (all_results, matchups_agg) =>
          match all_results with
          | [] => error_view no_deck_passed
          | _ =>
              let top := slice_to 10 all_results in
              let headers := map (fun r => deck (row r)) top in
              let built := matrix_rows matchups_agg headers headers in
              {| results := Some top;
                 error := if snd built then Some fetch_or_parse_failure
                          else None;
                 matrix_view := Some (fst built);
                 matrix_headers := Some headers |}
          end
      end
  end.

End Net.

End Net.

(** ** A sample site

    One tournament, [0001], with the three pages of the first sample
    tournament, two deck links and the matchup page of one deck. *)

Definition sample_http (url : text) : option text :=
  if text_eqb url (BASE_TOURNAMENT_URL (str "0001"))
  then Some (main_text sample_pages1)
  else if text_eqb url (BASE_TOURNAMENT_URL (str "0001") ++ str "?day=2")
  then Some (day2_text sample_pages1)
  else if text_eqb url
            (BASE_TOURNAMENT_URL (str "0001") ++ str "?conversion=")
  then Some (conv_text sample_pages1)
  else if text_eqb url
            (str "https://labs.limitlesstcg.com/0001/decks/a/matchups")
  then Some (str ("Dragapult Dusknoir 361 182 - 125 - 54 55.40% " ++
                  "Gardevoir 310 154 - 91 - 65 56.67%"))
  else None.

Definition sample_get_text (html : text) : text := html.

Definition sample_find_all_a (html : text) : list Anchor :=
  [{| href := str "/0001/decks"; anchor_text := str "Decks" |};
   {| href := str "/0001/decks/a"; anchor_text := str "Gholdengo Lunatone" |};
   {| href := str "/0001/decks/b"; anchor_text := str "Dragapult Dusknoir" |}].

(** The form field: the identifier without its zeros, a line that is no
    identifier, and line ends as a browser sends them. *)
Definition sample_raw : text :=
  str "1" ++ ["013"; "010"]%char ++ str "latest" ++ ["013"; "010"]%char.

Definition sample_view : Net.View :=
  Eval vm_compute in
    Net.index_post sample_http sample_get_text sample_find_all_a sample_iter
      sample_raw 20 20 f0_5.

Definition sample_view_matrix : list (list Net.MatrixCell) :=
  Eval vm_compute in
    match Net.matrix_view sample_view with Some mx => mx | None => [] end.

(** * Properties *)

(** ** Text equality, the option monad *)

Lemma text_eqb_true (a b : text) : text_eqb a b = true <-> a = b.
Proof.
  unfold text_eqb. destruct (list_eq_dec ascii_dec a b); split; congruence.
Qed.

Lemma text_eqb_false (a b : text) : text_eqb a b = false <-> a <> b.
Proof.
  unfold text_eqb. destruct (list_eq_dec ascii_dec a b); split; congruence.
Qed.

Lemma text_eqb_refl (a : text) : text_eqb a a = true.
Proof. now apply text_eqb_true. Qed.

Lemma text_eqb_sym (a b : text) : text_eqb a b = text_eqb b a.
Proof.
  destruct (text_eqb b a) eqn:E.
  - apply text_eqb_true in E. subst. apply text_eqb_refl.
  - apply text_eqb_false in E. apply text_eqb_false. congruence.
Qed.

Lemma bind_some {A B : Type} (x : option A) (f : A -> option B) (b : B) :
  bind x f = Some b -> exists a, x = Some a /\ f a = Some b.
Proof. destruct x; simpl; [eauto | discriminate]. Qed.

Ltac inv_bind H :=
  let a := fresh "v" in
  let Ha := fresh "E" in
  apply bind_some in H; destruct H as (a & Ha & H).

Lemma mapM_some {A B : Type} (f : A -> option B) (l : list A) (bs : list B) :
  mapM f l = Some bs -> Forall2 (fun a b => f a = Some b) l bs.
Proof.
  revert bs. induction l as [|a l IH]; simpl; intros bs H.
  - inversion H. constructor.
  - inv_bind H. inv_bind H. inversion H; subst. constructor; auto.
Qed.

Lemma Forall2_in_r {A B : Type} (P : A -> B -> Prop) l l' (b : B) :
  Forall2 P l l' -> In b l' -> exists a : A, In a l /\ P a b.
Proof.
  induction 1; simpl; intros Hin; [contradiction|].
  destruct Hin as [<- | Hin]; [eauto|].
  destruct (IHForall2 Hin) as (a & ? & ?). eauto.
Qed.

Lemma Forall2_in_l {A B : Type} (P : A -> B -> Prop) l l' (a : A) :
  Forall2 P l l' -> In a l -> exists b : B, In b l' /\ P a b.
Proof.
  induction 1; simpl; intros Hin; [contradiction|].
  destruct Hin as [<- | Hin]; [eauto|].
  destruct (IHForall2 Hin) as (b & ? & ?). eauto.
Qed.

Lemma in_keep_some {A : Type} (l : list (option A)) (a : A) :
  In a (keep_some l) <-> In (Some a) l.
Proof.
  induction l as [|[x|] l IH]; simpl; [tauto | |].
  - rewrite IH. split; intros [H | H]; auto; left; congruence.
  - rewrite IH. split; [auto | intros [H | H]; [discriminate | auto]].
Qed.

(** ** Character classes *)

Ltac ascii_cases c :=
  destruct c as [[] [] [] [] [] [] [] []]; vm_compute;
  try reflexivity; try discriminate; auto.

Lemma upper_or_digit_not_space c : is_upper_or_digit c = true -> is_space c = false.
Proof. ascii_cases c. Qed.

Lemma digit_not_space c : is_digit c = true -> is_space c = false.
Proof. ascii_cases c. Qed.

Lemma digit_not_percent c : is_digit c = true -> not_percent c = true.
Proof. ascii_cases c. Qed.

Lemma sep_not_space c : is_sep c = true -> is_space c = false.
Proof. ascii_cases c. Qed.

Lemma sep_not_percent c : is_sep c = true -> not_percent c = true.
Proof. ascii_cases c. Qed.


Lemma upper_or_digit_digit c : is_digit c = true -> is_upper_or_digit c = true.
Proof. ascii_cases c. Qed.

(** ** Dictionaries *)

Section DictFacts.

Context {V : Type}.

Lemma dict_get_in (d : dict V) k v : dict_get d k = Some v -> In (k, v) d.
Proof.
  induction d as [|[k' v'] d IH]; simpl; [discriminate|].
  destruct (text_eqb k' k) eqn:E.
  - apply text_eqb_true in E. intros [= ->]. subst. now left.
  - auto.
Qed.

Lemma dict_get_none (d : dict V) k :
  dict_get d k = None <-> ~ In k (dict_keys d).
Proof.
  induction d as [|[k' v'] d IH]; simpl; [tauto|].
  destruct (text_eqb k' k) eqn:E.
  - apply text_eqb_true in E. split; [discriminate | intros H; destruct H; auto].
  - apply text_eqb_false in E. rewrite IH. tauto.
Qed.

Lemma in_dict_get (d : dict V) k v :
  NoDup (dict_keys d) -> In (k, v) d -> dict_get d k = Some v.
Proof.
  induction d as [|[k' v'] d IH]; simpl; [contradiction|].
  intros Hnd Hin. inversion Hnd as [|? ? Hk Hnd']; subst.
  destruct Hin as [[= -> ->] | Hin].
  - now rewrite text_eqb_refl.
  - destruct (text_eqb k' k) eqn:E; [|auto].
    apply text_eqb_true in E. subst. exfalso. apply Hk.
    change k with (fst (k, v)). now apply in_map.
Qed.

Lemma dict_get_upd (dflt : V) f (d : dict V) k k' :
  dict_get (dict_upd dflt f d k) k' =
  if text_eqb k k'
  then Some (f (match dict_get d k with Some v => v | None => dflt end))
  else dict_get d k'.
Proof.
  induction d as [|[k0 v0] d IH]; simpl.
  - reflexivity.
  - destruct (text_eqb k0 k) eqn:E0; simpl.
    + apply text_eqb_true in E0. subst k0.
      destruct (text_eqb k k'); reflexivity.
    + destruct (text_eqb k0 k') eqn:E1.
      * apply text_eqb_true in E1. subst k0.
        rewrite text_eqb_sym, E0. reflexivity.
      * exact IH.
Qed.

Lemma dict_keys_upd (dflt : V) f (d : dict V) k :
  dict_keys (dict_upd dflt f d k) =
  if dict_mem d k then dict_keys d else dict_keys d ++ [k].
Proof.
  unfold dict_mem.
  induction d as [|[k0 v0] d IH]; simpl; [reflexivity|].
  destruct (text_eqb k0 k) eqn:E0; simpl.
  - apply text_eqb_true in E0. now subst.
  - rewrite IH. now destruct (dict_get d k).
Qed.

Lemma dict_upd_nodup (dflt : V) f (d : dict V) k :
  NoDup (dict_keys d) -> NoDup (dict_keys (dict_upd dflt f d k)).
Proof.
  intros Hnd. rewrite dict_keys_upd. unfold dict_mem.
  destruct (dict_get d k) eqn:E; [assumption|].
  apply dict_get_none in E.
  apply NoDup_rev in Hnd. rewrite <- (rev_involutive (_ ++ _)).
  apply NoDup_rev. rewrite rev_app_distr. simpl. constructor; [|assumption].
  now rewrite <- in_rev.
Qed.

Lemma in_dict_keys_upd (dflt : V) f (d : dict V) k x :
  In x (dict_keys (dict_upd dflt f d k)) <-> x = k \/ In x (dict_keys d).
Proof.
  rewrite dict_keys_upd. unfold dict_mem.
  destruct (dict_get d k) eqn:E.
  - split; [auto | intros [-> | H]; [|exact H]].
    apply dict_get_in in E. change k with (fst (k, v)). now apply in_map.
  - rewrite in_app_iff. simpl. intuition.
Qed.

End DictFacts.

(** ** The stable descending sort *)

Section SortFacts.

Context {A : Type} (lt : A -> A -> bool).

Lemma insert_desc_perm (x : A) (l : list A) :
  Permutation (insert_desc lt x l) (x :: l).
Proof.
  induction l as [|y l IH]; simpl; [reflexivity|].
  destruct (lt x y); [|reflexivity].
  rewrite IH. apply perm_swap.
Qed.

Lemma sort_desc_perm (l : list A) : Permutation (sort_desc lt l) l.
Proof.
  induction l as [|x l IH]; simpl; [reflexivity|].
  rewrite insert_desc_perm. now constructor.
Qed.

Lemma in_sort_desc (l : list A) (x : A) : In x (sort_desc lt l) <-> In x l.
Proof.
  split; apply Permutation_in;
    [apply sort_desc_perm | symmetry; apply sort_desc_perm].
Qed.

(** Sortedness, on a domain [P] where [lt] is asymmetric and its negation
    transitive. *)
Variable P : A -> Prop.
Hypothesis lt_asym : forall x y, P x -> P y -> lt x y = true -> lt y x = false.
Hypothesis lt_negtrans :
  forall x y z, P x -> P y -> P z ->
    lt x y = false -> lt y z = false -> lt x z = false.

Lemma insert_desc_sorted (x : A) (l : list A) :
  P x -> Forall P l ->
  StronglySorted (not_below lt) l -> StronglySorted (not_below lt) (insert_desc lt x l).
Proof.
  intros Px. induction l as [|y l IH]; simpl; intros HP Hs.
  - repeat constructor.
  - inversion HP as [|? ? Py HPl]; subst.
    inversion Hs as [|? ? Hsl Hy]; subst.
    destruct (lt x y) eqn:E.
    + constructor; [auto|].
      apply Forall_forall. intros z Hz.
      apply (Permutation_in _ (insert_desc_perm x l)) in Hz.
      destruct Hz as [<- | Hz].
      * now apply lt_asym.
      * rewrite Forall_forall in Hy. now apply Hy.
    + constructor; [assumption|].
      constructor; [exact E|].
      rewrite Forall_forall in Hy, HPl |- *. intros z Hz.
      apply (lt_negtrans x y z); auto. now apply Hy.
Qed.

Lemma sort_desc_sorted (l : list A) :
  Forall P l -> StronglySorted (not_below lt) (sort_desc lt l).
Proof.
  induction l as [|x l IH]; simpl; intros HP; [constructor|].
  inversion HP; subst. apply insert_desc_sorted; auto.
  rewrite Forall_forall in *. intros z Hz. rewrite in_sort_desc in Hz. auto.
Qed.

(** Stability: the members of a class [c] no two of which are below one
    another keep their order. *)
Lemma sort_desc_stable (c : A -> bool) (l : list A) :
  (forall x y, c x = true -> c y = true -> lt x y = false) ->
  filter c (sort_desc lt l) = filter c l.
Proof.
  intros Hc.
  assert (Hins : forall x l0,
             filter c (insert_desc lt x l0) = filter c (x :: l0)).
  { intros x l0. induction l0 as [|y l0 IH]; [reflexivity|].
    simpl insert_desc. destruct (lt x y) eqn:E; [|reflexivity].
    simpl in *. rewrite IH.
    destruct (c x) eqn:Cx, (c y) eqn:Cy; try reflexivity.
    rewrite (Hc x y Cx Cy) in E. discriminate. }
  induction l as [|x l IH]; [reflexivity|].
  simpl sort_desc. rewrite Hins. simpl. now rewrite IH.
Qed.

End SortFacts.

(** ** The order of floats *)

Lemma SFcompare_fkey (a b : float) :
  is_nan a = false -> is_nan b = false ->
  SFcompare a b = Some (lex3 (fkey a) (fkey b)).
Proof.
  destruct a as [sa|sa| |sa ma ea], b as [sb|sb| |sb mb eb];
    try discriminate; intros _ _;
    try (destruct sa); try (destruct sb); try reflexivity.
  - simpl. rewrite Z.compare_opp.
    destruct (ea ?= eb) eqn:E.
    + apply Z.compare_eq in E. subst. rewrite Z.compare_refl.
      change (Pos.compare_cont Eq ma mb) with (Pos.compare ma mb).
      reflexivity.
    + rewrite Z.compare_antisym, E. reflexivity.
    + rewrite Z.compare_antisym, E. reflexivity.
Qed.

Lemma lex3_lt (a b : Z * Z * Z) :
  lex3 a b = Lt <->
  fst (fst a) < fst (fst b) \/
  (fst (fst a) = fst (fst b) /\
   (snd (fst a) < snd (fst b) \/
    (snd (fst a) = snd (fst b) /\ snd a < snd b))).
Proof.
  destruct a as [[a1 a2] a3], b as [[b1 b2] b3]. simpl.
  destruct (Z.compare_spec a1 b1), (Z.compare_spec a2 b2),
    (Z.compare_spec a3 b3); split; intros Hx; try discriminate;
    try reflexivity; try lia.
Qed.

Lemma lex3_eq (a b : Z * Z * Z) : lex3 a b = Eq <-> a = b.
Proof.
  destruct a as [[a1 a2] a3], b as [[b1 b2] b3]. simpl.
  destruct (Z.compare_spec a1 b1), (Z.compare_spec a2 b2),
    (Z.compare_spec a3 b3); split; intros Hx; try discriminate;
    try reflexivity; try congruence; try (injection Hx; lia).
Qed.

Lemma fltb_fkey (a b : float) :
  is_nan a = false -> is_nan b = false ->
  (fltb a b = true <-> lex3 (fkey a) (fkey b) = Lt).
Proof.
  intros Ha Hb. unfold fltb, SFltb. rewrite (SFcompare_fkey a b Ha Hb).
  destruct (lex3 _ _); split; congruence.
Qed.

Lemma fltb_nan_l (a b : float) : is_nan a = true -> fltb a b = false.
Proof. destruct a; try discriminate. reflexivity. Qed.

Lemma fltb_nan_r (a b : float) : is_nan b = true -> fltb a b = false.
Proof. destruct b; try discriminate. now destruct a. Qed.

Lemma fltb_asym (a b : float) : fltb a b = true -> fltb b a = false.
Proof.
  intros H.
  destruct (is_nan a) eqn:Ha; [now rewrite fltb_nan_l in H|].
  destruct (is_nan b) eqn:Hb; [now rewrite fltb_nan_r in H|].
  apply (fltb_fkey a b Ha Hb) in H. apply lex3_lt in H.
  destruct (fltb b a) eqn:E; [|reflexivity].
  apply (fltb_fkey b a Hb Ha) in E. apply lex3_lt in E. lia.
Qed.

Lemma fltb_negtrans (a b c : float) :
  is_nan a = false -> is_nan b = false -> is_nan c = false ->
  fltb a b = false -> fltb b c = false -> fltb a c = false.
Proof.
  intros Ha Hb Hc Hab Hbc.
  destruct (fltb a c) eqn:E; [|reflexivity].
  apply (fltb_fkey a c Ha Hc) in E. apply lex3_lt in E.
  assert (Nab : ~ lex3 (fkey a) (fkey b) = Lt).
  { intros H. apply (fltb_fkey a b Ha Hb) in H. congruence. }
  assert (Nbc : ~ lex3 (fkey b) (fkey c) = Lt).
  { intros H. apply (fltb_fkey b c Hb Hc) in H. congruence. }
  rewrite lex3_lt in Nab, Nbc. lia.
Qed.

Lemma feqb_not_nan (a b : float) :
  feqb a b = true -> is_nan a = false /\ is_nan b = false.
Proof.
  destruct a, b; simpl; try discriminate; auto.
Qed.

Lemma feqb_class (a b k : float) :
  feqb a k = true -> feqb b k = true -> fltb a b = false.
Proof.
  intros Ha Hb.
  destruct (feqb_not_nan _ _ Ha) as [Na Nk].
  destruct (feqb_not_nan _ _ Hb) as [Nb _].
  unfold feqb, SFeqb in Ha, Hb.
  rewrite (SFcompare_fkey a k Na Nk) in Ha.
  rewrite (SFcompare_fkey b k Nb Nk) in Hb.
  destruct (lex3 (fkey a) (fkey k)) eqn:Ea; try discriminate.
  destruct (lex3 (fkey b) (fkey k)) eqn:Eb; try discriminate.
  apply lex3_eq in Ea, Eb.
  destruct (fltb a b) eqn:E; [|reflexivity].
  apply (fltb_fkey a b Na Nb) in E. apply lex3_lt in E.
  rewrite Ea, Eb in E. lia.
Qed.

(** ** The sort of the interpreter permutes

    Every step of the algorithm moves elements between the runs, the part
    already merged and the stack: whatever the comparisons answer, each
    element is counted in the result as often as in the list. *)

Module ListSortFacts.

Import ListSort.

Section Counts.

Context {A : Type} (lt : A -> A -> bool).
Hypothesis eq_dec : forall x y : A, {x = y} + {x <> y}.
Variable x : A.

Lemma cnt_cons (a : A) (l : list A) :
  count_occ eq_dec (a :: l) x
  = (count_one eq_dec x a + count_occ eq_dec l x)%nat.
Proof. unfold count_one. simpl. destruct (eq_dec a x); reflexivity. Qed.

Lemma cnt_firstn_skipn (n : nat) (a : list A) :
  (count_occ eq_dec (firstn n a) x + count_occ eq_dec (skipn n a) x
   = count_occ eq_dec a x)%nat.
Proof. now rewrite <- count_occ_app, firstn_skipn. Qed.

Lemma cnt_take_drop (k : Z) (a : list A) :
  (count_occ eq_dec (take k a) x + count_occ eq_dec (drop k a) x
   = count_occ eq_dec a x)%nat.
Proof. apply cnt_firstn_skipn. Qed.

Lemma cnt_tl (a : list A) :
  (count_occ eq_dec (firstn 1 a) x + count_occ eq_dec (tl a) x
   = count_occ eq_dec a x)%nat.
Proof. destruct a as [|a0 a]; [reflexivity|]. simpl firstn. simpl tl.
  rewrite !cnt_cons. simpl. lia. Qed.

Ltac cnt_norm :=
  repeat first [ rewrite count_occ_app | rewrite cnt_cons
               | rewrite count_occ_rev | rewrite count_occ_nil ].

Ltac cnt_fact H :=
  let F := fresh "F" in
  pose proof H as F; repeat rewrite cnt_cons in F;
  repeat rewrite count_occ_nil in F.

Ltac cnt_facts :=
  repeat match goal with
    | |- context [take ?k ?a] =>
        lazymatch goal with
        | H : (count_occ eq_dec (take k a) x + _ = _)%nat |- _ => fail
        | _ => cnt_fact (cnt_take_drop k a)
        end
    | |- context [firstn 1 ?a] =>
        lazymatch goal with
        | H : (count_occ eq_dec (firstn 1 a) x + _ = _)%nat |- _ => fail
        | _ => cnt_fact (cnt_tl a)
        end
    end.

Lemma binary_insert_cnt (s : list A) (p : A) :
  count_occ eq_dec (binary_insert lt s p) x
  = (count_one eq_dec x p + count_occ eq_dec s x)%nat.
Proof.
  unfold binary_insert. cnt_norm.
  pose proof (cnt_take_drop (bisect lt (length s) p s 0 (len s)) s). lia.
Qed.

Lemma binarysort_cnt (rest s : list A) :
  count_occ eq_dec (binarysort lt s rest) x
  = (count_occ eq_dec s x + count_occ eq_dec rest x)%nat.
Proof.
  unfold binarysort. revert s.
  induction rest as [|p rest IH]; intros s; simpl fold_left.
  - cnt_norm. lia.
  - rewrite IH, binary_insert_cnt. cnt_norm. lia.
Qed.

Lemma merge_lo_loop_cnt (fuel : nat) :
  forall mode mg saved a b dest,
    count_occ eq_dec (fst (merge_lo_loop lt fuel mode mg saved a b dest)) x
    = (count_occ eq_dec dest x + count_occ eq_dec a x
       + count_occ eq_dec b x)%nat.
Proof.
  induction fuel as [|fuel IH]; intros mode mg saved a b dest;
    cbn [merge_lo_loop].
  - cbn [fst]. cnt_norm. lia.
  - destruct a as [|a0 a']; [cbn [fst]; cnt_norm; lia|].
    destruct b as [|b0 b']; [cbn [fst]; cnt_norm; lia|].
    destruct mode as [ac bc|]; cbv zeta.
    + destruct (lt b0 a0).
      * destruct b' as [|b1 b'']; [cbn [fst]; cnt_norm; lia|].
        destruct (mg <=? bc + 1); rewrite IH; cnt_norm; lia.
      * destruct a' as [|a1 [|a2 a'']];
          try (cbn [fst]; cnt_norm; lia);
          destruct (mg <=? ac + 1); rewrite IH; cnt_norm; lia.
    + repeat match goal with
        | |- context [if ?c then _ else _] =>
            lazymatch c with
            | context [if _ then _ else _] => fail
            | _ => destruct c
            end
        | |- context [match ?l with [] => _ | _ :: _ => _ end] =>
            destruct l
        end;
        try rewrite IH; cbn [fst]; cnt_norm; cnt_facts; cnt_norm; lia.
Qed.

Lemma merge_lo_cnt (a b : list A) (saved : Z) :
  count_occ eq_dec (fst (merge_lo lt a b saved)) x
  = (count_occ eq_dec a x + count_occ eq_dec b x)%nat.
Proof.
  unfold merge_lo.
  destruct b as [|b0 [|b1 b']]; [cbn [fst]; cnt_norm; lia | |].
  - cbn [fst]. cnt_norm. lia.
  - destruct a as [|a0 [|a1 a']]; try rewrite merge_lo_loop_cnt;
      cbn [fst]; cnt_norm; lia.
Qed.

Lemma merge_hi_loop_cnt (fuel : nat) :
  forall mode mg saved ra rb dest,
    count_occ eq_dec (fst (merge_hi_loop lt fuel mode mg saved ra rb dest)) x
    = (count_occ eq_dec dest x + count_occ eq_dec ra x
       + count_occ eq_dec rb x)%nat.
Proof.
  induction fuel as [|fuel IH]; intros mode mg saved ra rb dest;
    cbn [merge_hi_loop].
  - cbn [fst]. cnt_norm. lia.
  - destruct ra as [|al ra']; [cbn [fst]; cnt_norm; lia|].
    destruct rb as [|bl rb']; [cbn [fst]; cnt_norm; lia|].
    destruct mode as [ac bc|]; cbv zeta.
    + destruct (lt bl al).
      * destruct ra' as [|a1 ra'']; [cbn [fst]; cnt_norm; lia|].
        destruct (mg <=? ac + 1); rewrite IH; cnt_norm; lia.
      * destruct rb' as [|b1 [|b2 rb'']];
          try (cbn [fst]; cnt_norm; lia);
          destruct (mg <=? bc + 1); rewrite IH; cnt_norm; lia.
    + repeat match goal with
        | |- context [if ?c then _ else _] =>
            lazymatch c with
            | context [if _ then _ else _] => fail
            | _ => destruct c
            end
        end;
        try rewrite IH; cbn [fst]; cnt_norm; cnt_facts; cnt_norm; lia.
Qed.

Lemma merge_hi_cnt (a b : list A) (saved : Z) :
  count_occ eq_dec (fst (merge_hi lt a b saved)) x
  = (count_occ eq_dec a x + count_occ eq_dec b x)%nat.
Proof.
  unfold merge_hi. rewrite <- (count_occ_rev eq_dec a x).
  destruct (rev a) as [|al [|a1 ra']]; [cbn [fst]; cnt_norm; lia | |].
  - cbn [fst]. cnt_norm. lia.
  - destruct b as [|b0 [|b1 b']]; try rewrite merge_hi_loop_cnt;
      cbn [fst]; cnt_norm; lia.
Qed.

Lemma merge_at_cnt (a b : list A) (saved : Z) :
  count_occ eq_dec (fst (merge_at lt a b saved)) x
  = (count_occ eq_dec a x + count_occ eq_dec b x)%nat.
Proof.
  unfold merge_at.
  destruct a as [|a0 a']; [cbn [fst]; cnt_norm; lia|].
  destruct b as [|b0 b']; [cbn [fst]; cnt_norm; lia|].
  cbv zeta.
  set (k := gallop_right lt b0 (a0 :: a') (len (a0 :: a')) 0).
  pose proof (cnt_take_drop k (a0 :: a')) as Fa.
  destruct (drop k (a0 :: a')) as [|d0 d'] eqn:Ed;
    [cbn [fst]; cnt_norm; lia|].
  set (nb := gallop_left lt _ _ _ _).
  pose proof (cnt_take_drop nb (b0 :: b')) as Fb.
  destruct (nb <=? 0); [cbn [fst]; cnt_norm; lia|].
  cbn [fst]. cnt_norm.
  destruct (len (d0 :: d') <=? len (take nb (b0 :: b')));
    [rewrite merge_lo_cnt | rewrite merge_hi_cnt];
    repeat rewrite cnt_cons in *; lia.
Qed.

Lemma collapse_power_cnt (fuel : nat) :
  forall power stack saved,
    count_occ eq_dec
      (stack_items (fst (collapse_power lt fuel power stack saved))) x
    = count_occ eq_dec (stack_items stack) x.
Proof.
  induction fuel as [|fuel IH]; intros power stack saved;
    cbn [collapse_power]; [reflexivity|].
  destruct stack as [|top [|second below]]; try reflexivity.
  destruct (power <? r_power second); [|reflexivity].
  rewrite IH. unfold stack_items. cbn [map concat r_items].
  cnt_norm. rewrite merge_at_cnt. lia.
Qed.

Lemma found_new_run_cnt (n2 n : Z) stack saved :
  count_occ eq_dec (stack_items (fst (found_new_run lt n2 n stack saved))) x
  = count_occ eq_dec (stack_items stack) x.
Proof.
  unfold found_new_run. destruct stack as [|top below]; [reflexivity|].
  cbv zeta.
  pose proof (collapse_power_cnt (length (top :: below))
                (power_of (r_base top) (len (r_items top)) n2 n)
                (top :: below) saved) as H.
  destruct (collapse_power _ _ _ _ _) as [stack' saved'].
  cbn [fst] in *. rewrite <- H. now destruct stack'.
Qed.

Lemma force_collapse_cnt (fuel : nat) :
  forall stack saved,
    count_occ eq_dec (stack_items (force_collapse lt fuel stack saved)) x
    = count_occ eq_dec (stack_items stack) x.
Proof.
  induction fuel as [|fuel IH]; intros stack saved;
    cbn [force_collapse]; [reflexivity|].
  destruct stack as [|top [|second [|third below]]]; try reflexivity.
  - rewrite IH. unfold stack_items. cbn [map concat r_items].
    cnt_norm. rewrite merge_at_cnt. lia.
  - destruct (len (r_items third) <? len (r_items top)); rewrite IH;
      unfold stack_items; cbn [map concat r_items];
      cnt_norm; rewrite merge_at_cnt; lia.
Qed.

Lemma stack_items_rev stack :
  count_occ eq_dec (concat (map r_items (rev stack))) x
  = count_occ eq_dec (stack_items stack) x.
Proof.
  unfold stack_items. induction stack as [|r stack IH]; [reflexivity|].
  cbn [rev map concat]. rewrite map_app, concat_app. cbn [map concat].
  cnt_norm. rewrite IH. lia.
Qed.

Lemma run_asc_le (l : list A) : forall p, (run_asc lt p l <= length l)%nat.
Proof.
  induction l as [|y l IH]; intros p; simpl; [lia|].
  destruct (lt y p); [lia|]. specialize (IH y). lia.
Qed.

Lemma run_desc_le (l : list A) : forall p, (run_desc lt p l <= length l)%nat.
Proof.
  induction l as [|y l IH]; intros p; simpl; [lia|].
  destruct (lt y p); [|lia]. specialize (IH y). lia.
Qed.

Lemma count_run_bounds (l : list A) :
  l <> [] ->
  (1 <= fst (count_run lt l) <= length l)%nat.
Proof.
  destruct l as [|y [|z l]]; [congruence | simpl; lia |]. intros _.
  cbn [count_run]. destruct (lt z y); cbn [fst length].
  - pose proof (run_desc_le l z). lia.
  - pose proof (run_asc_le l z). lia.
Qed.

Lemma sort_loop_cnt (fuel : nat) :
  forall n minrun base rest stack saved,
    (List.length rest <= fuel)%nat ->
    count_occ eq_dec
      (stack_items (fst (sort_loop lt fuel n minrun base rest stack saved))) x
    = (count_occ eq_dec (stack_items stack) x
       + count_occ eq_dec rest x)%nat.
Proof.
  induction fuel as [|fuel IH]; intros n minrun base rest stack saved Hl.
  - destruct rest; [|simpl in Hl; lia]. cbn [sort_loop fst]. cnt_norm. lia.
  - cbn [sort_loop]. destruct rest as [|r0 rest']; [cbn [fst]; cnt_norm; lia|].
    set (rest := r0 :: rest') in *.
    pose proof (count_run_bounds rest ltac:(discriminate)) as Hk.
    destruct (count_run lt rest) as [k descending]. cbn [fst] in Hk.
    cbv zeta.
    set (k' := if Z.of_nat k <? minrun then _ else k).
    set (r := if Z.of_nat k <? minrun then _ else _).
    pose proof (found_new_run_cnt (Z.of_nat k') n stack saved) as Hf.
    destruct (found_new_run lt (Z.of_nat k') n stack saved)
      as [stack' saved'].
    cbn [fst] in Hf.
    assert (Hk' : (k <= k')%nat).
    { unfold k'. destruct (Z.of_nat k <? minrun) eqn:E; [|lia].
      apply Z.ltb_lt in E. unfold len.
      destruct (Z.of_nat (length rest) <=? minrun) eqn:E'; lia. }
    assert (Hr : (count_occ eq_dec r x + count_occ eq_dec (skipn k' rest) x
                  = count_occ eq_dec rest x)%nat).
    { pose proof (cnt_firstn_skipn k rest) as F1.
      pose proof (cnt_firstn_skipn (k' - k) (skipn k rest)) as F2.
      rewrite skipn_skipn in F2.
      replace (k' - k + k)%nat with k' in F2 by lia.
      assert (Hrun : count_occ eq_dec
                       (if descending then rev (firstn k rest)
                        else firstn k rest) x
                     = count_occ eq_dec (firstn k rest) x)
        by (destruct descending; [apply count_occ_rev | reflexivity]).
      unfold r. destruct (Z.of_nat k <? minrun) eqn:E.
      - rewrite binarysort_cnt, Hrun. lia.
      - change k' with k in *. rewrite Hrun. lia. }
    rewrite IH.
    + change (stack_items ({| r_items := r; r_base := base; r_power := 0 |}
                             :: stack'))
        with (r ++ stack_items stack').
      cnt_norm. clearbody r k' rest. lia.
    + rewrite length_skipn. clearbody r k' rest. lia.
Qed.

Lemma list_sort_cnt (l : list A) :
  count_occ eq_dec (list_sort lt l) x = count_occ eq_dec l x.
Proof.
  unfold list_sort. destruct l as [|a [|b l']]; try reflexivity.
  set (l := a :: b :: l'). cbv zeta.
  pose proof (sort_loop_cnt (length l) (len l) (merge_compute_minrun (len l))
                0 l [] MIN_GALLOP (le_n _)) as H.
  destruct (sort_loop _ _ _ _ _ _ _ _) as [stack saved]. cbn [fst] in H.
  cbv beta iota. rewrite stack_items_rev, force_collapse_cnt, H.
  reflexivity.
Qed.

Lemma list_sort_reverse_cnt (l : list A) :
  count_occ eq_dec (list_sort_reverse lt l) x = count_occ eq_dec l x.
Proof.
  unfold list_sort_reverse.
  now rewrite count_occ_rev, list_sort_cnt, count_occ_rev.
Qed.

End Counts.

Lemma list_sort_reverse_perm {A : Type} (lt : A -> A -> bool)
    (eq_dec : forall x y : A, {x = y} + {x <> y}) (l : list A) :
  Permutation (list_sort_reverse lt l) l.
Proof.
  apply (Permutation_count_occ eq_dec). intros x.
  apply list_sort_reverse_cnt.
Qed.

End ListSortFacts.

Lemma float_eq_dec (x y : float) : {x = y} + {x <> y}.
Proof.
  unfold float. decide equality;
    try apply Z.eq_dec; try apply Pos.eq_dec; apply bool_dec.
Qed.

Lemma text_eq_dec (x y : text) : {x = y} + {x <> y}.
Proof. apply list_eq_dec, ascii_dec. Qed.

Lemma BaseRow_eq_dec (x y : BaseRow) : {x = y} + {x <> y}.
Proof.
  decide equality; try apply float_eq_dec; try apply Z.eq_dec;
    try apply text_eq_dec; decide equality; apply float_eq_dec.
Qed.

Lemma ScoredDeckRow_eq_dec (x y : ScoredDeckRow) : {x = y} + {x <> y}.
Proof. decide equality; try apply float_eq_dec. apply BaseRow_eq_dec. Qed.

(** ** The final sort *)

Lemma sort_by_final_score_perm (rows : list ScoredDeckRow) :
  Permutation (sort_by_final_score rows) rows.
Proof.
  unfold sort_by_final_score. destruct (forallb _ rows).
  - apply sort_desc_perm.
  - apply ListSortFacts.list_sort_reverse_perm, ScoredDeckRow_eq_dec.
Qed.

Lemma in_sort_by_final_score (rows : list ScoredDeckRow) (r : ScoredDeckRow) :
  In r (sort_by_final_score rows) <-> In r rows.
Proof.
  split; apply Permutation_in;
    [|symmetry]; apply sort_by_final_score_perm.
Qed.

(** Without a NaN the final sort is the stable descending sort. *)
Lemma sort_by_final_score_ordered (rows : list ScoredDeckRow) :
  Forall (fun r => is_nan (final_score r) = false) rows ->
  sort_by_final_score rows = sort_desc by_final_score rows.
Proof.
  intros H. unfold sort_by_final_score.
  replace (forallb _ rows) with true; [reflexivity|].
  symmetry. apply forallb_forall. rewrite Forall_forall in H.
  intros r Hr. now rewrite (H r Hr).
Qed.

(** ** The accumulated dictionaries have no duplicate key *)

Lemma fold_upd_nodup {V R : Type} (dflt : V) (f : R -> V -> V)
    (key : R -> text) (l : list R) (d : dict V) :
  NoDup (dict_keys d) ->
  NoDup (dict_keys (fold_left (fun d r => dict_upd dflt (f r) d (key r)) l d)).
Proof.
  revert d. induction l as [|r l IH]; simpl; intros d Hd; [assumption|].
  apply IH. now apply dict_upd_nodup.
Qed.

Lemma fst_fold_overall_step (urls : dict text) (l : list SummaryRecord)
    (st : dict Stats * dict strset) :
  fst (fold_left (overall_step urls) l st) = fold_left day2_step l (fst st).
Proof.
  revert st. induction l as [|r l IH]; simpl; intros st; [reflexivity|].
  now rewrite IH.
Qed.

Lemma overall_stats_step (st : AggState) (data : TournamentData) :
  overall_stats (agg_step st data) =
  fold_left day2_step (overall data) (overall_stats st).
Proof. unfold agg_step. simpl. now rewrite fst_fold_overall_step. Qed.

Lemma overall_stats_nodup_from (ts : list TournamentData) (st : AggState) :
  NoDup (dict_keys (overall_stats st)) ->
  NoDup (dict_keys (overall_stats (aggregate_from st ts))).
Proof.
  unfold aggregate_from. revert st.
  induction ts as [|t ts IH]; simpl; intros st Hst; [assumption|].
  apply IH. rewrite overall_stats_step.
  now apply (fold_upd_nodup stats0 add_summary s_deck).
Qed.

Lemma overall_stats_nodup (ts : list TournamentData) :
  NoDup (dict_keys (overall_stats (aggregate ts))).
Proof. apply overall_stats_nodup_from. constructor. Qed.

(** ** The base rows *)

(** The expression of lines 311, 317 and 410 is the stated percentage
    whenever there is a game. *)
Lemma win_pct_spec (s : Stats) :
  games s <> 0 -> win_pct (wins s) (ties s) (games s) = spec_win_pct s.
Proof.
  unfold win_pct, spec_win_pct, fdiv_int, games. intros Hg.
  apply Z.eqb_neq in Hg. rewrite Hg.
  destruct (float_of_int (ties s)), (float_of_int (wins s)),
    (float_of_int (wins s + losses s + ties s)); reflexivity.
Qed.

Lemma day2_of_spec (st : AggState) (name : text) (owp : float) d2 :
  day2_of (day2_stats st) name = Some d2 ->
  spec_day2_term st name owp = Some (or_default (fst d2) owp).
Proof.
  unfold day2_of, spec_day2_term, bucket.
  destruct (dict_get (day2_stats st) name) as [s|].
  - rewrite Z.gtb_ltb. fold (games s).
    destruct (0 <? games s) eqn:Eg.
    + apply Z.ltb_lt in Eg. rewrite <- win_pct_spec by lia.
      intros H. inv_bind H. injection H as <-. simpl. assumption.
    + intros [= <-]. reflexivity.
  - intros [= <-]. reflexivity.
Qed.

Lemma conv_of_spec (st : AggState) (name : text) cp :
  conv_of (conv_stats st) name = Some cp ->
  spec_conv_term st name = Some (or_default cp f50).
Proof.
  unfold conv_of, spec_conv_term, conv_bucket.
  destruct (dict_get (conv_stats st) name) as [c|].
  - rewrite Z.gtb_ltb. destruct (0 <? day1 c).
    + intros H. inv_bind H. injection H as <-. simpl. rewrite E. reflexivity.
    + intros [= <-]. reflexivity.
  - intros [= <-]. reflexivity.
Qed.

Lemma base_row_some (minp : Z) (st : AggState) name o br :
  base_row minp st (name, o) = Some (Some br) ->
  deck br = name /\ players_overall br = players o /\
  minp <= players o /\ 0 < games o /\
  spec_win_pct o = Some (overall_win_pct br) /\
  spec_base_score st name o = Some (base_score br).
Proof.
  unfold base_row, spec_base_score.
  destruct (players o <? minp) eqn:Ep; [discriminate|].
  fold (games o).
  destruct (games o <=? 0) eqn:Eg; [discriminate|].
  apply Z.ltb_ge in Ep. apply Z.leb_gt in Eg.
  rewrite <- win_pct_spec by lia.
  intros H. inv_bind H. inv_bind H. inv_bind H.
  injection H as <-. simpl.
  repeat split; try assumption.
  rewrite E. simpl.
  rewrite (day2_of_spec st name v v0 E0). simpl.
  rewrite (conv_of_spec st name v1 E1). reflexivity.
Qed.

Lemma base_row_pass (minp : Z) (st : AggState) name o b :
  minp <= players o -> 0 < games o ->
  base_row minp st (name, o) = Some b -> exists br, b = Some br.
Proof.
  unfold base_row, games. intros Hp Hg.
  apply Z.ltb_ge in Hp. apply Z.leb_gt in Hg. rewrite Hp, Hg.
  intros H. inv_bind H. inv_bind H. inv_bind H.
  injection H as <-. eauto.
Qed.

Lemma base_rows_of_in (minp : Z) (st : AggState) brs br :
  base_rows_of minp st = Some brs ->
  (In br brs <->
   exists e, In e (overall_stats st) /\ base_row minp st e = Some (Some br)).
Proof.
  unfold base_rows_of. intros H. inv_bind H. injection H as <-.
  apply mapM_some in E. rewrite in_keep_some. split.
  - intros Hin. apply (Forall2_in_r _ _ _ _ E Hin).
  - intros (e & He & Hb).
    destruct (Forall2_in_l _ _ _ _ E He) as (b & Hb1 & Hb2).
    congruence.
Qed.

(** ** The stages of the pipeline *)

Section Stages.

Variable fetch_page : text -> option text.
Variable set_iter : strset -> list text.

Lemma score_row_some beta mw m br r :
  score_row beta mw m br = Some r ->
  row r = br /\
  final_score r = fadd (base_score br) (fmul beta (matchup_score r)) /\
  matchup_score_of mw
    (match dict_get m (deck br) with Some i => i | None => [] end)
  = Some (matchup_score r).
Proof.
  unfold score_row. intros H. inv_bind H. injection H as <-. simpl. auto.
Qed.

(** What a successful run went through. *)
Lemma aggregate_stages ts minp K beta rows m :
  aggregate_tournaments_with_matchups fetch_page set_iter ts minp K beta
  = Some (rows, m) ->
  exists brs mw scored reqs,
    base_rows_of minp (aggregate ts) = Some brs /\
    meta_weight_of (meta_decks_of K (sort_desc by_players brs))
                   (sort_desc by_players brs) = Some mw /\
    matchups_run fetch_page set_iter (deck_urls_global (aggregate ts))
                 (meta_decks_of K (sort_desc by_players brs)) = (m, reqs) /\
    mapM (score_row beta mw m) (sort_desc by_players brs) = Some scored /\
    score_all fetch_page set_iter (aggregate ts) minp K beta
    = Some (scored, m, reqs) /\
    rows = sort_by_final_score scored.
Proof.
  unfold aggregate_tournaments_with_matchups. intros H. inv_bind H.
  injection H as <- <-. destruct v as [[scored m] reqs]. simpl.
  pose proof E as E'. unfold score_all in E'.
  inv_bind E'. inv_bind E'. inv_bind E'. injection E' as -> Hm Hr.
  exists v, v0, scored, reqs. rewrite <- Hm at 1. rewrite <- Hr at 1.
  repeat split; try assumption.
  - rewrite <- surjective_pairing. reflexivity.
  - subst m. assumption.
Qed.

(** Every row of the ranking is the scored row of a base row, and
    conversely. *)
Lemma ranking_rows ts minp K beta rows m :
  aggregate_tournaments_with_matchups fetch_page set_iter ts minp K beta
  = Some (rows, m) ->
  exists brs,
    base_rows_of minp (aggregate ts) = Some brs /\
    (forall r, In r rows -> In (row r) brs) /\
    (forall br, In br brs -> exists r, In r rows /\ row r = br).
Proof.
  intros H. destruct (aggregate_stages _ _ _ _ _ _ H)
    as (brs & mw & scored & reqs & Hb & _ & _ & Hs & _ & ->).
  exists brs. split; [assumption|]. apply mapM_some in Hs. split.
  - intros r Hr. rewrite in_sort_by_final_score in Hr.
    destruct (Forall2_in_r _ _ _ _ Hs Hr) as (br & Hbr & Hsc).
    apply score_row_some in Hsc. destruct Hsc as (-> & _).
    now rewrite in_sort_desc in Hbr.
  - intros br Hbr. rewrite <- (in_sort_desc by_players) in Hbr.
    destruct (Forall2_in_l _ _ _ _ Hs Hbr) as (r & Hr & Hsc).
    exists r. rewrite in_sort_by_final_score. split; [assumption|].
    now apply score_row_some in Hsc.
Qed.

End Stages.

(** ** The float constants are the binary64 values of the literals *)

#[warnings="-inexact-float"]
Example literals_binary64 :
  f0_0 = Prim2SF 0.0%float /\ f0_5 = Prim2SF 0.5%float /\
  f0_4 = Prim2SF 0.4%float /\ f0_2 = Prim2SF 0.2%float /\
  f50 = Prim2SF 50.0%float /\ f100 = Prim2SF 100%float.
Proof. repeat split; reflexivity. Qed.

(** Reading a literal as [float] does gives the same constants. *)
Example literals_parsed :
  py_float (str "0.4") = Some f0_4 /\ py_float (str "0.2") = Some f0_2 /\
  py_float (str "50.0") = Some f50 /\ float_of_int 100 = Some f100.
Proof. repeat split; vm_compute; reflexivity. Qed.

(** The examples of the docstrings. *)
Example docstring_summary_row :
  option_map (map (fun r => (s_deck r, s_players r, s_wins r, s_losses r,
                             s_ties r)))
    (extract_overall_or_day
       (str "307 Gholdengo Lunatone 14.52% 1295 - 1054 - 456 51.59%"))
  = Some [(str "Gholdengo Lunatone", 307, 1295, 1054, 456)].
Proof. vm_compute. reflexivity. Qed.

Example docstring_conversion_row :
  option_map (map (fun r => (c_deck r, c_day1_players r, c_day2_players r)))
    (extract_conversion (str "Gholdengo Lunatone 307 77 25.08%"))
  = Some [(str "Gholdengo Lunatone", 307, 77)].
Proof. vm_compute. reflexivity. Qed.

Example docstring_matchups :
  option_map (map (fun e => (fst e, m_wins (snd e), m_losses (snd e),
                             m_ties (snd e))))
    (extract_matchups_from_html
       (str ("Dragapult Dusknoir 361 182 - 125 - 54 55.40% " ++
             "Gardevoir 310 154 - 91 - 65 56.67%"))
       (str "Gholdengo Lunatone")
       [str "Gardevoir"; str "Gholdengo Lunatone"; str "Dragapult Dusknoir"])
  = Some [(str "Gardevoir", 154, 91, 65);
          (str "Dragapult Dusknoir", 182, 125, 54)].
Proof. vm_compute. reflexivity. Qed.

(** ** The minimum-player filter and the base score *)

Section Ranking.

Variable fetch_page : text -> option text.
Variable set_iter : strset -> list text.

(** The row of a deck comes from its entry of the overall statistics. *)
Lemma ranking_row_entry ts minp K beta rows m r :
  aggregate_tournaments_with_matchups fetch_page set_iter ts minp K beta
  = Some (rows, m) ->
  In r rows ->
  exists o,
    dict_get (overall_stats (aggregate ts)) (deck (row r)) = Some o /\
    base_row minp (aggregate ts) (deck (row r), o) = Some (Some (row r)).
Proof.
  intros H Hr.
  destruct (ranking_rows _ _ _ _ _ _ _ _ H) as (brs & Hb & Hrb & _).
  apply Hrb in Hr. apply (base_rows_of_in _ _ _ _ Hb) in Hr.
  destruct Hr as ([name o] & Hin & Hrow).
  destruct (base_row_some _ _ _ _ _ Hrow) as (Hd & _).
  rewrite Hd. exists o. split; [|assumption].
  apply in_dict_get; [apply overall_stats_nodup | assumption].
Qed.

(** C6.  A deck whose accumulated overall player count is below
    [min_players] has no row in the ranking, whatever its statistics and
    the configuration. *)
Theorem below_min_players_not_ranked ts minp K beta rows m name o :
  aggregate_tournaments_with_matchups fetch_page set_iter ts minp K beta
  = Some (rows, m) ->
  dict_get (overall_stats (aggregate ts)) name = Some o ->
  players o < minp ->
  forall r, In r rows -> deck (row r) <> name.
Proof.
  intros H Ho Hlt r Hr Hname.
  destruct (ranking_row_entry _ _ _ _ _ _ _ H Hr) as (o' & Ho' & Hrow).
  rewrite Hname, Ho in Ho'. injection Ho' as <-.
  apply base_row_some in Hrow. lia.
Qed.

(** C1.  A deck that passes the minimum-player filter and has at least one
    overall game has a row in the ranking, and the base score of its rows
    is [0.4 × overall_win_pct + 0.4 × (day2_win_pct if day-2 games > 0, else
    overall_win_pct) + 0.2 × (conv_pct if accumulated day1 > 0, else 50.0)]
    with [overall_win_pct = (wins + 0.5·ties)/(wins+losses+ties) × 100]; with
    no day-2 game and no day-1 player that is
    [0.4 × overall_win_pct + 0.4 × overall_win_pct + 0.2 × 50.0]. *)
Theorem base_score_formula ts minp K beta rows m name o :
  aggregate_tournaments_with_matchups fetch_page set_iter ts minp K beta
  = Some (rows, m) ->
  dict_get (overall_stats (aggregate ts)) name = Some o ->
  minp <= players o ->
  0 < games o ->
  (exists r, In r rows /\ deck (row r) = name) /\
  (forall r, In r rows -> deck (row r) = name ->
     spec_win_pct o = Some (overall_win_pct (row r)) /\
     spec_base_score (aggregate ts) name o = Some (base_score (row r)) /\
     (games (bucket (day2_stats (aggregate ts)) name) = 0 ->
      day1 (conv_bucket (conv_stats (aggregate ts)) name) = 0 ->
      base_score (row r) =
      fadd (fadd (fmul f0_4 (overall_win_pct (row r)))
                 (fmul f0_4 (overall_win_pct (row r))))
           (fmul f0_2 f50))).
Proof.
  intros H Ho Hp Hg. split.
  - destruct (ranking_rows _ _ _ _ _ _ _ _ H) as (brs & Hb & _ & Hbr).
    pose proof Hb as Hb'. unfold base_rows_of in Hb'. inv_bind Hb'.
    apply mapM_some in E.
    destruct (Forall2_in_l _ _ _ _ E (dict_get_in _ _ _ Ho)) as (b & Hin & Hrow).
    destruct (base_row_pass _ _ _ _ _ Hp Hg Hrow) as (br & ->).
    destruct (Hbr br) as (r & Hr & Hrr).
    { apply (base_rows_of_in _ _ _ _ Hb). eauto using dict_get_in. }
    exists r. split; [assumption|]. rewrite Hrr.
    now apply base_row_some in Hrow.
  - intros r Hr Hname.
    destruct (ranking_row_entry _ _ _ _ _ _ _ H Hr) as (o' & Ho' & Hrow).
    rewrite Hname, Ho in Ho'. injection Ho' as <-. rewrite Hname in Hrow.
    destruct (base_row_some _ _ _ _ _ Hrow) as (_ & _ & _ & _ & Hw & Hs).
    repeat split; try assumption.
    intros Hd2 Hd1. unfold spec_base_score in Hs.
    rewrite Hw in Hs. unfold bind at 1 in Hs.
    unfold spec_day2_term, spec_conv_term in Hs.
    rewrite Hd2, Hd1 in Hs. change (0 <? 0) with false in Hs.
    unfold bind in Hs. congruence.
Qed.

End Ranking.

Lemma below_min_players_not_ranked_witness :
  dict_get (overall_stats (aggregate sample_ts)) (str "Rogue")
  = Some {| wins := 29; losses := 1; ties := 0; players := 15 |} /\
  (forall r, In r sample_rows -> deck (row r) <> str "Rogue").
Proof.
  split; [vm_compute; reflexivity|].
  apply (below_min_players_not_ranked sample_fetch sample_iter sample_ts
           20 2 f0_5 sample_rows sample_matrix (str "Rogue")
           {| wins := 29; losses := 1; ties := 0; players := 15 |}).
  - vm_compute. reflexivity.
  - vm_compute. reflexivity.
  - vm_compute. reflexivity.
Defined.

Lemma base_score_formula_witness :
  dict_get (overall_stats (aggregate sample_ts)) (str "Dragapult Dusknoir")
  = Some {| wins := 500; losses := 400; ties := 100; players := 250 |} /\
  (exists r, In r sample_rows /\ deck (row r) = str "Dragapult Dusknoir") /\
  (forall r, In r sample_rows -> deck (row r) = str "Dragapult Dusknoir" ->
     spec_win_pct {| wins := 500; losses := 400; ties := 100;
                     players := 250 |}
     = Some (overall_win_pct (row r)) /\
     base_score (row r) =
     fadd (fadd (fmul f0_4 (overall_win_pct (row r)))
                (fmul f0_4 (overall_win_pct (row r))))
          (fmul f0_2 f50)).
Proof.
  split; [vm_compute; reflexivity|].
  destruct (base_score_formula sample_fetch sample_iter sample_ts
              20 2 f0_5 sample_rows sample_matrix (str "Dragapult Dusknoir")
              {| wins := 500; losses := 400; ties := 100; players := 250 |})
    as [He Hf].
  - vm_compute. reflexivity.
  - vm_compute. reflexivity.
  - vm_compute. discriminate.
  - vm_compute. reflexivity.
  - split; [exact He|]. intros r Hr Hn.
    destruct (Hf r Hr Hn) as (Hw & _ & Hb). split; [exact Hw|].
    apply Hb; vm_compute; reflexivity.
Defined.

(** The base score of a deck without day-2 and conversion data is not its
    overall win percentage: 55.000000000000007 gives 54.000000000000007,
    which is also what [0.8 * overall_win_pct + 0.2 * 50.0] evaluates to. *)
#[warnings="-inexact-float"]
Example base_score_is_not_overall_win_pct :
  exists r, In r sample_rows /\ deck (row r) = str "Dragapult Dusknoir" /\
    overall_win_pct (row r) = Prim2SF 55.000000000000007%float /\
    base_score (row r) = Prim2SF 54.000000000000007%float /\
    base_score (row r) =
    fadd (fmul (Prim2SF 0.8%float) (overall_win_pct (row r)))
         (fmul f0_2 f50).
Proof.
  eexists. split; [right; left; reflexivity|]. repeat split.
Qed.

(** ** Symmetry of the matchup matrix *)

Lemma cell_bump (m : matrix) (a b : text) (w l t : Z) (x y : text) :
  cell (bump m a b w l t) x y =
  if text_eqb a x && text_eqb b y
  then Some (add_cell w l t (cell_or_zero (cell m a b)))
  else cell m x y.
Proof.
  unfold cell, bump. rewrite dict_get_upd.
  destruct (text_eqb a x) eqn:Ea; simpl; [|reflexivity].
  apply text_eqb_true in Ea. subst x. rewrite dict_get_upd.
  destruct (dict_get m a) as [inner|]; destruct (text_eqb b y); reflexivity.
Qed.

Lemma mirror_add_cell (w l t : Z) (c : Cell) :
  mirror (add_cell w l t c) = add_cell l w t (mirror c).
Proof. reflexivity. Qed.

Lemma cell_or_zero_mirror (c : option Cell) :
  cell_or_zero (option_map mirror c) = mirror (cell_or_zero c).
Proof. now destruct c. Qed.

Lemma add_cell_comm (w l t w' l' t' : Z) (c : Cell) :
  add_cell w l t (add_cell w' l' t' c) = add_cell w' l' t' (add_cell w l t c).
Proof. unfold add_cell. simpl. f_equal; lia. Qed.

Lemma symmetric_nil : symmetric [].
Proof. intros x y. reflexivity. Qed.

Lemma record_matchup_symmetric (deck : text) (m : matrix) (e : text * Matchup) :
  symmetric m -> symmetric (record_matchup deck m e).
Proof.
  destruct e as [opp stats]. unfold record_matchup.
  set (w := m_wins stats). set (l := m_losses stats). set (t := m_ties stats).
  intros Hm x y. rewrite !cell_bump.
  destruct (text_eqb opp x) eqn:Eox, (text_eqb deck y) eqn:Edy,
           (text_eqb opp y) eqn:Eoy, (text_eqb deck x) eqn:Edx;
    repeat match goal with
      | H : text_eqb _ _ = true |- _ => apply text_eqb_true in H
      | H : text_eqb _ _ = false |- _ => apply text_eqb_false in H
      end;
    subst; try congruence; simpl;
    rewrite ?text_eqb_refl; simpl;
    repeat match goal with
      | H : ?a <> ?b |- context [text_eqb ?a ?b] =>
          rewrite (proj2 (text_eqb_false a b) H)
      end; simpl;
    try apply Hm.
  - (* the deck against itself *)
    rewrite mirror_add_cell, mirror_add_cell, add_cell_comm.
    rewrite <- cell_or_zero_mirror, <- Hm. reflexivity.
  - rewrite (Hm x y), cell_or_zero_mirror. reflexivity.
  - rewrite mirror_add_cell, <- cell_or_zero_mirror, <- Hm. reflexivity.
Qed.

Lemma fold_record_matchup_symmetric (deck : text) (per : dict Matchup)
    (m : matrix) :
  symmetric m -> symmetric (fold_left (record_matchup deck) per m).
Proof.
  revert m. induction per as [|e per IH]; simpl; intros m Hm; [assumption|].
  apply IH. now apply record_matchup_symmetric.
Qed.

Section MatrixFacts.

Variable fetch_page : text -> option text.
Variable set_iter : strset -> list text.

Lemma url_step_symmetric deck order st url :
  symmetric (fst st) -> symmetric (fst (url_step fetch_page deck order st url)).
Proof.
  intros H. unfold url_step. simpl.
  destruct (fetch_matchups_for_deck fetch_page url deck order); [|assumption].
  now apply fold_record_matchup_symmetric.
Qed.

Lemma deck_step_symmetric urls_global order st deck :
  symmetric (fst st) ->
  symmetric (fst (deck_step fetch_page set_iter urls_global order st deck)).
Proof.
  unfold deck_step.
  generalize (match dict_get urls_global deck with
              | Some s => set_iter s | None => [] end).
  intros urls. revert st.
  induction urls as [|u urls IH]; simpl; intros st H; [assumption|].
  apply IH. now apply url_step_symmetric.
Qed.

Lemma fold_deck_step_symmetric urls_global order decks st :
  symmetric (fst st) ->
  symmetric
    (fst (fold_left (deck_step fetch_page set_iter urls_global order) decks st)).
Proof.
  revert st. induction decks as [|d decks IH]; simpl; intros st H;
    [assumption|].
  apply IH. now apply deck_step_symmetric.
Qed.

Lemma matchups_run_symmetric urls_global meta :
  symmetric (fst (matchups_run fetch_page set_iter urls_global meta)).
Proof.
  unfold matchups_run. apply fold_deck_step_symmetric. exact symmetric_nil.
Qed.

(** C2.  In the matrix returned by [aggregate_tournaments_with_matchups],
    when either of the cells (X,Y) and (Y,X) is present both are, and the wins
    of one are the losses of the other and their ties agree; this for any page
    fetcher and any iteration order of the sets. *)
Theorem matchup_matrix_symmetric ts minp K beta rows m x y :
  aggregate_tournaments_with_matchups fetch_page set_iter ts minp K beta
  = Some (rows, m) ->
  cell m x y <> None \/ cell m y x <> None ->
  exists c c',
    cell m x y = Some c /\ cell m y x = Some c' /\
    cell_wins c = cell_losses c' /\
    cell_losses c = cell_wins c' /\
    cell_ties c = cell_ties c'.
Proof.
  intros H Hp.
  destruct (aggregate_stages _ _ _ _ _ _ _ _ H)
    as (brs & mw & scored & reqs & _ & _ & Hrun & _).
  pose proof (matchups_run_symmetric (deck_urls_global (aggregate ts))
                (meta_decks_of K (sort_desc by_players brs))) as Hs.
  rewrite Hrun in Hs. simpl in Hs.
  pose proof (Hs x y) as Hxy. pose proof (Hs y x) as Hyx.
  destruct (cell m x y) as [c|], (cell m y x) as [c'|]; simpl in *;
    try discriminate; [|destruct Hp; congruence].
  exists c, c'. injection Hxy as ->. repeat split; reflexivity.
Qed.

End MatrixFacts.

Lemma matchup_matrix_symmetric_witness :
  cell sample_matrix (str "Gholdengo Lunatone") (str "Dragapult Dusknoir")
  <> None /\
  exists c c',
    cell sample_matrix (str "Gholdengo Lunatone") (str "Dragapult Dusknoir")
    = Some c /\
    cell sample_matrix (str "Dragapult Dusknoir") (str "Gholdengo Lunatone")
    = Some c' /\
    cell_wins c = cell_losses c' /\
    cell_losses c = cell_wins c' /\
    cell_ties c = cell_ties c'.
Proof.
  split; [vm_compute; discriminate|].
  apply (matchup_matrix_symmetric sample_fetch sample_iter sample_ts
           20 2 f0_5 sample_rows sample_matrix).
  - vm_compute. reflexivity.
  - left. vm_compute. discriminate.
Defined.

(** ** Aggregation does not depend on the order of the tournaments *)

Lemma same_entries_refl {V : Type} (d : dict V) : same_entries d d.
Proof. intros k. reflexivity. Qed.

Lemma same_entries_trans {V : Type} (d1 d2 d3 : dict V) :
  same_entries d1 d2 -> same_entries d2 d3 -> same_entries d1 d3.
Proof. intros H1 H2 k. now rewrite H1. Qed.

Section FoldUpd.

Context {V R : Type} (dflt : V) (f : R -> V -> V) (key : R -> text).

Hypothesis f_comm : forall r1 r2 v, f r1 (f r2 v) = f r2 (f r1 v).

Lemma step_same (d d' : dict V) (r : R) :
  same_entries d d' ->
  same_entries (upd_step dflt f key d r) (upd_step dflt f key d' r).
Proof.
  intros H k. unfold upd_step. rewrite !dict_get_upd, !H. reflexivity.
Qed.

Lemma step_swap (d : dict V) (r1 r2 : R) :
  same_entries (upd_step dflt f key (upd_step dflt f key d r1) r2)
               (upd_step dflt f key (upd_step dflt f key d r2) r1).
Proof.
  intros k. unfold upd_step. rewrite !dict_get_upd.
  destruct (text_eqb (key r1) (key r2)) eqn:E12.
  - apply text_eqb_true in E12. rewrite E12, text_eqb_refl.
    destruct (text_eqb (key r2) k); [|reflexivity].
    now rewrite f_comm.
  - rewrite (text_eqb_sym (key r2) (key r1)), E12.
    destruct (text_eqb (key r2) k) eqn:E2, (text_eqb (key r1) k) eqn:E1;
      try reflexivity.
    apply text_eqb_true in E1, E2. apply text_eqb_false in E12. congruence.
Qed.

Lemma fold_step_same (l : list R) (d d' : dict V) :
  same_entries d d' ->
  same_entries (fold_left (upd_step dflt f key) l d)
               (fold_left (upd_step dflt f key) l d').
Proof.
  revert d d'. induction l as [|r l IH]; simpl; intros d d' H; [assumption|].
  apply IH. now apply step_same.
Qed.

Lemma fold_step_perm (l l' : list R) :
  Permutation l l' ->
  forall d d', same_entries d d' ->
    same_entries (fold_left (upd_step dflt f key) l d)
                 (fold_left (upd_step dflt f key) l' d').
Proof.
  induction 1 as [|x l l' _ IH|x y l|l1 l2 l3 _ IH1 _ IH2]; simpl;
    intros d d' H.
  - assumption.
  - apply IH. now apply step_same.
  - apply fold_step_same.
    apply (same_entries_trans _
             (upd_step dflt f key (upd_step dflt f key d x) y));
      [apply step_swap|].
    now apply step_same, step_same.
  - apply (same_entries_trans _ (fold_left (upd_step dflt f key) l2 d)).
    + apply IH1, same_entries_refl.
    + now apply IH2.
Qed.

End FoldUpd.

Lemma add_summary_comm (r1 r2 : SummaryRecord) (s : Stats) :
  add_summary r1 (add_summary r2 s) = add_summary r2 (add_summary r1 s).
Proof. unfold add_summary. simpl. f_equal; lia. Qed.

Lemma add_conversion_comm (r1 r2 : ConversionRecord) (s : ConvStats) :
  add_conversion r1 (add_conversion r2 s)
  = add_conversion r2 (add_conversion r1 s).
Proof. unfold add_conversion. simpl. f_equal; lia. Qed.

(** The three dictionaries after some tournaments are folds over the
    records of their feeds, taken in order. *)
Lemma overall_stats_from (ts : list TournamentData) (st : AggState) :
  overall_stats (aggregate_from st ts) =
  fold_left day2_step (flat_map overall ts) (overall_stats st).
Proof.
  unfold aggregate_from. revert st.
  induction ts as [|t ts IH]; simpl; intros st; [reflexivity|].
  now rewrite IH, overall_stats_step, fold_left_app.
Qed.

Lemma day2_stats_from (ts : list TournamentData) (st : AggState) :
  day2_stats (aggregate_from st ts) =
  fold_left day2_step (flat_map day2_rows ts) (day2_stats st).
Proof.
  unfold aggregate_from. revert st.
  induction ts as [|t ts IH]; simpl; intros st; [reflexivity|].
  now rewrite IH, fold_left_app.
Qed.

Lemma conv_stats_from (ts : list TournamentData) (st : AggState) :
  conv_stats (aggregate_from st ts) =
  fold_left conv_step (flat_map conversion ts) (conv_stats st).
Proof.
  unfold aggregate_from. revert st.
  induction ts as [|t ts IH]; simpl; intros st; [reflexivity|].
  now rewrite IH, fold_left_app.
Qed.

(** Batches one after the other are one pass over their concatenation. *)
Lemma aggregate_batches (batches : list (list TournamentData)) (st : AggState) :
  fold_left aggregate_from batches st = aggregate_from st (concat batches).
Proof.
  revert st. induction batches as [|b batches IH]; simpl; intros st;
    [reflexivity|].
  rewrite IH. unfold aggregate_from. now rewrite fold_left_app.
Qed.

(** C4.  Folding the tournaments batch after batch, or all at once in any
    order, gives the same per-deck sums of wins, losses, ties and players of
    the overall and day-2 feeds and of day-1 and day-2 players of the
    conversion feed. *)
Theorem aggregation_order_independent
    (batches : list (list TournamentData)) (ts : list TournamentData) :
  Permutation (concat batches) ts ->
  same_entries (overall_stats (fold_left aggregate_from batches agg0))
               (overall_stats (aggregate ts)) /\
  same_entries (day2_stats (fold_left aggregate_from batches agg0))
               (day2_stats (aggregate ts)) /\
  same_entries (conv_stats (fold_left aggregate_from batches agg0))
               (conv_stats (aggregate ts)).
Proof.
  intros Hp. rewrite aggregate_batches. unfold aggregate.
  rewrite !overall_stats_from, !day2_stats_from, !conv_stats_from.
  repeat split.
  - apply (fold_step_perm stats0 add_summary s_deck add_summary_comm).
    + now apply Permutation_flat_map.
    + apply same_entries_refl.
  - apply (fold_step_perm stats0 add_summary s_deck add_summary_comm).
    + now apply Permutation_flat_map.
    + apply same_entries_refl.
  - apply (fold_step_perm conv0 add_conversion c_deck add_conversion_comm).
    + now apply Permutation_flat_map.
    + apply same_entries_refl.
Qed.

Lemma aggregation_order_independent_witness :
  Permutation (concat [[nth 0 sample_ts (Build_TournamentData [] [] [] [])];
                       [nth 1 sample_ts (Build_TournamentData [] [] [] [])]])
              (rev sample_ts) /\
  same_entries
    (overall_stats
       (fold_left aggregate_from
          [[nth 0 sample_ts (Build_TournamentData [] [] [] [])];
           [nth 1 sample_ts (Build_TournamentData [] [] [] [])]] agg0))
    (overall_stats (aggregate (rev sample_ts))).
Proof.
  assert (Hp : Permutation
                 (concat [[nth 0 sample_ts (Build_TournamentData [] [] [] [])];
                          [nth 1 sample_ts (Build_TournamentData [] [] [] [])]])
                 (rev sample_ts)).
  { simpl. apply perm_swap. }
  split; [exact Hp|].
  exact (proj1 (aggregation_order_independent _ _ Hp)).
Defined.

(** ** A failing matchup fetch is skipped *)

Section FetchFailure.

Variable fetch_page : text -> option text.
Variable set_iter : strset -> list text.

(** The matrix after some URLs does not depend on the requests logged, and
    every URL is requested. *)
Lemma fold_url_step deck order urls st :
  fold_left (url_step fetch_page deck order) urls st =
  (fst (fold_left (url_step fetch_page deck order) urls (fst st, [])),
   snd st ++ requests_for deck urls).
Proof.
  revert st. induction urls as [|u urls IH]; intros [m log]; simpl.
  - now rewrite app_nil_r.
  - rewrite (IH (url_step fetch_page deck order (m, log) u)).
    rewrite (IH (url_step fetch_page deck order (m, []) u)).
    unfold url_step. simpl. now rewrite <- app_assoc.
Qed.

Lemma fold_deck_step_requests urls_global order decks st :
  snd (fold_left (deck_step fetch_page set_iter urls_global order) decks st) =
  snd st ++ flat_map (fun d => requests_for d (urls_of set_iter urls_global d)) decks.
Proof.
  revert st. induction decks as [|d decks IH]; intros st; simpl.
  - now rewrite app_nil_r.
  - rewrite IH. unfold deck_step. fold (urls_of set_iter urls_global d).
    rewrite fold_url_step. simpl. now rewrite <- app_assoc.
Qed.

(** C8.  When fetching or extracting the matchups of one URL of a deck
    raises, the matrix is left as it was, the loop over the URLs of the deck
    gives what it gives without that URL, the later URLs are requested all
    the same, and the run requests every URL of every deck of the pool. *)
Theorem failed_fetch_is_skipped deck order url pre post st urls_global meta :
  fetch_matchups_for_deck fetch_page url deck order = None ->
  fst (url_step fetch_page deck order st url) = fst st /\
  fst (fold_left (url_step fetch_page deck order) (pre ++ url :: post) st) =
  fst (fold_left (url_step fetch_page deck order) (pre ++ post) st) /\
  snd (fold_left (url_step fetch_page deck order) (pre ++ url :: post) st) =
  snd st ++ requests_for deck (pre ++ url :: post) /\
  snd (matchups_run fetch_page set_iter urls_global meta) =
  flat_map (fun d => requests_for d (urls_of set_iter urls_global d)) (set_iter meta).
Proof.
  intros Hfail.
  assert (Hstep : forall s, fst (url_step fetch_page deck order s url) = fst s).
  { intros s. unfold url_step. now rewrite Hfail. }
  repeat split.
  - apply Hstep.
  - rewrite !fold_left_app. cbn [fold_left].
    rewrite (fold_url_step deck order post (url_step _ _ _ _ _)).
    rewrite (fold_url_step deck order post (fold_left _ pre st)).
    cbn [fst snd]. now rewrite Hstep.
  - now rewrite fold_url_step.
  - unfold matchups_run. now rewrite fold_deck_step_requests.
Qed.

End FetchFailure.

Lemma failed_fetch_is_skipped_witness :
  fetch_matchups_for_deck sample_fetch (str "/0002/decks/a/")
    (str "Gholdengo Lunatone")
    [str "Gholdengo Lunatone"; str "Dragapult Dusknoir"] = None /\
  fst (fold_left
         (url_step sample_fetch (str "Gholdengo Lunatone")
            [str "Gholdengo Lunatone"; str "Dragapult Dusknoir"])
         ([str "/0001/decks/a"] ++ str "/0002/decks/a/" :: []) ([], [])) =
  fst (fold_left
         (url_step sample_fetch (str "Gholdengo Lunatone")
            [str "Gholdengo Lunatone"; str "Dragapult Dusknoir"])
         ([str "/0001/decks/a"] ++ []) ([], [])).
Proof.
  assert (H : fetch_matchups_for_deck sample_fetch (str "/0002/decks/a/")
                (str "Gholdengo Lunatone")
                [str "Gholdengo Lunatone"; str "Dragapult Dusknoir"] = None)
    by (vm_compute; reflexivity).
  split; [exact H|].
  exact (proj1 (proj2 (failed_fetch_is_skipped sample_fetch sample_iter
           _ _ _ [str "/0001/decks/a"] [] ([], []) [] [] H))).
Defined.

(** ** The final score and the order of the ranking *)

Lemma lex3_antisym (a b : Z * Z * Z) : lex3 b a = CompOpp (lex3 a b).
Proof.
  destruct a as [[a1 a2] a3], b as [[b1 b2] b3]. simpl.
  rewrite (Z.compare_antisym a1 b1), (Z.compare_antisym a2 b2),
    (Z.compare_antisym a3 b3).
  destruct (a1 ?= b1), (a2 ?= b2), (a3 ?= b3); reflexivity.
Qed.

Lemma not_fltb_fleb (a b : float) :
  is_nan a = false -> is_nan b = false ->
  fltb a b = false -> SFleb b a = true.
Proof.
  intros Ha Hb. unfold fltb, SFltb, SFleb.
  rewrite (SFcompare_fkey a b Ha Hb), (SFcompare_fkey b a Hb Ha).
  rewrite (lex3_antisym (fkey a) (fkey b)).
  destruct (lex3 (fkey a) (fkey b)); simpl; congruence.
Qed.

(** ** Finite operands give no NaN *)

Lemma shr_1_nonneg (mrs : shr_record) :
  0 <= shr_m mrs -> 0 <= shr_m (shr_1 mrs).
Proof.
  destruct mrs as [m r s]. simpl.
  destruct m as [|[p|p|]|p]; simpl; lia.
Qed.

Lemma shr_nonneg (mrs : shr_record) (e n : Z) :
  0 <= shr_m mrs -> 0 <= shr_m (fst (shr mrs e n)).
Proof.
  intros H. unfold shr. destruct n as [|p|p]; simpl; try assumption.
  revert mrs H. induction p as [p IH|p IH|]; intros mrs H; simpl.
  - apply IH, IH. now apply shr_1_nonneg.
  - now apply IH, IH.
  - now apply shr_1_nonneg.
Qed.

Lemma shr_fexp_nonneg (m e : Z) (l : location) :
  0 <= m -> 0 <= shr_m (fst (shr_fexp prec emax m e l)).
Proof.
  intros H. unfold shr_fexp. apply shr_nonneg.
  destruct l as [|[]]; simpl; assumption.
Qed.

Lemma round_nearest_even_nonneg (m : Z) (l : location) :
  0 <= m -> 0 <= round_nearest_even m l.
Proof.
  intros H. unfold round_nearest_even.
  destruct l as [|[]]; try destruct (Z.even m); lia.
Qed.

Lemma binary_round_aux_not_nan (sx : bool) (m e : Z) (l : location) :
  0 <= m -> is_nan (binary_round_aux prec emax sx m e l) = false.
Proof.
  intros H. unfold binary_round_aux.
  pose proof (shr_fexp_nonneg m e l H) as H1.
  destruct (shr_fexp prec emax m e l) as [mrs' e']. simpl in H1.
  pose proof (shr_fexp_nonneg _ e' loc_Exact
                (round_nearest_even_nonneg _ (loc_of_shr_record mrs') H1))
    as H2.
  destruct (shr_fexp prec emax _ e' loc_Exact) as [mrs'' e''].
  simpl in H2. destruct (shr_m mrs''); [reflexivity | | lia].
  destruct (e'' <=? emax - prec); reflexivity.
Qed.

Lemma binary_round_not_nan (sx : bool) (m : positive) (e : Z) :
  is_nan (binary_round prec emax sx m e) = false.
Proof.
  unfold binary_round. destruct (shl_align _ _ _) as [mz ez].
  apply binary_round_aux_not_nan. lia.
Qed.

Lemma fmul_finite_not_nan (x y : float) :
  is_finite x = true -> is_finite y = true -> is_nan (fmul x y) = false.
Proof.
  destruct x as [sx|sx| |sx mx ex], y as [sy|sy| |sy my ey];
    try discriminate; try reflexivity.
  intros _ _. apply binary_round_aux_not_nan. lia.
Qed.

Lemma fadd_finite_not_nan (x y : float) :
  is_finite x = true -> is_nan y = false -> is_nan (fadd x y) = false.
Proof.
  destruct x as [sx|sx| |sx mx ex], y as [sy|sy| |sy my ey];
    try discriminate; try reflexivity; intros _ _.
  - destruct sx, sy; reflexivity.
  - unfold fadd, SFadd.
    destruct (cond_Zopp sx _ + cond_Zopp sy _); try reflexivity;
      apply binary_round_not_nan.
Qed.

Lemma final_score_not_nan (beta base ms : float) :
  is_finite beta = true -> is_finite base = true -> is_finite ms = true ->
  is_nan (fadd base (fmul beta ms)) = false.
Proof.
  intros Hb Hs Hm. apply fadd_finite_not_nan; [assumption|].
  now apply fmul_finite_not_nan.
Qed.

Section FinalOrder.

Variable fetch_page : text -> option text.
Variable set_iter : strset -> list text.

(** C5.  Every row of the ranking has
    [final_score = base_score + matchup_weight × matchup_score], the default
    weight being 0.5.  The ranking is a rearrangement of the scored rows,
    which come in descending order of overall players; when no final score
    is NaN it is their stable sort: rows with equal final scores keep their
    order and the final scores descend.  No final score is NaN when the
    weight and the base and matchup scores are finite. *)
Theorem final_score_and_order ts minp K beta rows m :
  aggregate_tournaments_with_matchups fetch_page set_iter ts minp K beta
  = Some (rows, m) ->
  default_matchup_weight = Prim2SF 0.5%float /\
  (forall r, In r rows ->
     final_score r = fadd (base_score (row r)) (fmul beta (matchup_score r))) /\
  (is_finite beta = true ->
   Forall (fun r => is_finite (base_score (row r)) = true /\
                    is_finite (matchup_score r) = true) rows ->
   Forall (fun r => is_nan (final_score r) = false) rows) /\
  exists scored reqs,
    score_all fetch_page set_iter (aggregate ts) minp K beta
    = Some (scored, m, reqs) /\
    Permutation scored rows /\
    (Forall (fun r => is_nan (final_score r) = false) rows ->
     (forall k, tied_at k rows = tied_at k scored) /\
     StronglySorted ranks_before rows).
Proof.
  intros H.
  destruct (aggregate_stages _ _ _ _ _ _ _ _ H)
    as (brs & mw & scored & reqs & _ & _ & _ & Hs & Hall & ->).
  assert (Hformula : forall r, In r (sort_by_final_score scored) ->
            final_score r
            = fadd (base_score (row r)) (fmul beta (matchup_score r))).
  { intros r Hr. rewrite in_sort_by_final_score in Hr.
    apply mapM_some in Hs.
    destruct (Forall2_in_r _ _ _ _ Hs Hr) as (br & _ & Hsc).
    apply score_row_some in Hsc. destruct Hsc as (-> & Hf & _). exact Hf. }
  split; [reflexivity|]. split; [exact Hformula|]. split.
  - intros Hbeta Hfin. rewrite Forall_forall in *. intros r Hr.
    rewrite (Hformula r Hr). destruct (Hfin r Hr) as [Hb Hm].
    now apply final_score_not_nan.
  - exists scored, reqs. split; [assumption|]. split.
    + symmetry. apply sort_by_final_score_perm.
    + intros Hnan.
      assert (Hsc : Forall (fun r => is_nan (final_score r) = false) scored).
      { rewrite Forall_forall in *. intros r Hr. apply Hnan.
        now rewrite in_sort_by_final_score. }
      rewrite (sort_by_final_score_ordered scored Hsc) in *. split.
      { intros k. unfold tied_at. apply sort_desc_stable.
        intros x y Hx Hy. unfold by_final_score.
        now apply (feqb_class _ _ k). }
      pose proof (sort_desc_sorted by_final_score
                    (fun r => is_nan (final_score r) = false)) as Hsorted.
      assert (Hsort : StronglySorted (not_below by_final_score)
                        (sort_desc by_final_score scored)).
      { apply Hsorted; [| |assumption].
        - intros x y _ _. apply fltb_asym.
        - intros x y z Hx Hy Hz. now apply fltb_negtrans. }
      clear Hsorted.
      revert Hnan Hsort. generalize (sort_desc by_final_score scored).
      intros l Hnan Hsort. induction Hsort as [|x l Hl IH Hx].
      * constructor.
      * inversion Hnan as [|? ? Nx Nl]; subst. constructor; [auto|].
        rewrite Forall_forall in *. intros y Hy.
        apply not_fltb_fleb; auto. now apply Hx.
Qed.

End FinalOrder.

Lemma final_score_and_order_witness :
  aggregate_tournaments_with_matchups sample_fetch sample_iter sample_ts
    20 2 f0_5 = Some (sample_rows, sample_matrix) /\
  (forall r, In r sample_rows ->
     final_score r = fadd (base_score (row r)) (fmul f0_5 (matchup_score r))) /\
  Forall (fun r => is_nan (final_score r) = false) sample_rows /\
  StronglySorted ranks_before sample_rows.
Proof.
  assert (H : aggregate_tournaments_with_matchups sample_fetch sample_iter
                sample_ts 20 2 f0_5 = Some (sample_rows, sample_matrix))
    by (vm_compute; reflexivity).
  split; [exact H|].
  destruct (final_score_and_order sample_fetch sample_iter _ _ _ _ _ _ H)
    as (_ & Hf & Hfin & scored & reqs & _ & _ & Ho).
  assert (Hnan : Forall (fun r => is_nan (final_score r) = false) sample_rows)
    by (apply Hfin; [reflexivity | repeat constructor]).
  split; [exact Hf|]. split; [exact Hnan|]. exact (proj2 (Ho Hnan)).
Defined.

(** With the weight [inf], which [float] reads from the form field (line
    606), the three decks of [nan_pages] have the final scores [-inf], NaN
    and [inf] in their order of players.  No comparison with NaN holds, so
    the sort finds the reversed list in order and returns the rows as they
    were: the ranking ascends. *)
Lemma infinite_weight_ranking_ascends :
  exists rows m,
    aggregate_tournaments_with_matchups nan_fetch sample_iter nan_ts
      20 20 f_inf = Some (rows, m) /\
    map (fun r => (deck (row r), players_overall (row r), final_score r)) rows
    = [(str "Papa", 300, S754_infinity true);
       (str "Quebec", 200, S754_nan);
       (str "Romeo", 100, S754_infinity false)] /\
    ~ StronglySorted ranks_before rows.
Proof.
  destruct (aggregate_tournaments_with_matchups nan_fetch sample_iter nan_ts
              20 20 f_inf) as [[rows m]|] eqn:E;
    [|vm_compute in E; discriminate].
  exists rows, m. split; [reflexivity|].
  vm_compute in E. injection E as <- _.
  split; [reflexivity|]. intros Hs.
  inversion Hs as [|? ? _ Hall]; subst.
  inversion Hall as [|? ? Hq _]; subst. discriminate Hq.
Qed.

(** ** Signs of the scores *)

Lemma binary_round_aux_sign (m e : Z) (l : location) :
  not_negative (binary_round_aux prec emax false m e l) = true.
Proof.
  unfold binary_round_aux.
  destruct (shr_fexp prec emax m e l) as [mrs' e'].
  destruct (shr_fexp prec emax _ e' loc_Exact) as [mrs'' e''].
  destruct (shr_m mrs''); try reflexivity.
  destruct (e'' <=? emax - prec); reflexivity.
Qed.

Lemma binary_round_sign (m : positive) (e : Z) :
  not_negative (binary_round prec emax false m e) = true.
Proof.
  unfold binary_round. destruct (shl_align _ _ _) as [mz ez].
  apply binary_round_aux_sign.
Qed.

Lemma fmul_sign (x y : float) :
  not_negative x = true -> not_negative y = true ->
  not_negative (fmul x y) = true.
Proof.
  destruct x as [[]|[]| |[] mx ex], y as [[]|[]| |[] my ey];
    try discriminate; try reflexivity.
  intros _ _. apply binary_round_aux_sign.
Qed.

Lemma fadd_sign (x y : float) :
  not_negative x = true -> not_negative y = true ->
  not_negative (fadd x y) = true.
Proof.
  destruct x as [[]|[]| |[] mx ex], y as [[]|[]| |[] my ey];
    try discriminate; try reflexivity.
  intros _ _. unfold fadd, SFadd, cond_Zopp.
  destruct (shl_align mx ex (Z.min ex ey)) as [mx' ex'].
  destruct (shl_align my ey (Z.min ex ey)) as [my' ey'].
  simpl fst. apply binary_round_sign.
Qed.

Lemma fdiv_sign (x y : float) :
  not_negative x = true -> not_negative y = true ->
  not_negative (fdiv x y) = true.
Proof.
  destruct x as [[]|[]| |[] mx ex], y as [[]|[]| |[] my ey];
    try discriminate; try reflexivity.
  intros _ _. unfold fdiv, SFdiv.
  destruct (SFdiv_core_binary _ _ _ _ _ _) as [[mz ez] lz].
  apply binary_round_aux_sign.
Qed.

Lemma round_int_sign (z : Z) : 0 <= z -> not_negative (round_int z) = true.
Proof.
  destruct z as [|p|p]; intros Hz; [reflexivity| |lia].
  apply binary_round_sign.
Qed.

Lemma float_of_int_sign (z : Z) (x : float) :
  0 <= z -> float_of_int z = Some x -> not_negative x = true.
Proof.
  unfold float_of_int. intros Hz.
  destruct (is_finite (round_int z)); [|discriminate].
  intros [= <-]. now apply round_int_sign.
Qed.

Lemma exact_int_sign (z : Z) : 0 <= z -> not_negative (exact_int z) = true.
Proof. destruct z; intros Hz; [reflexivity | reflexivity | lia]. Qed.

Lemma int_truediv_sign (a b : Z) (x : float) :
  0 <= a -> 0 <= b -> int_truediv a b = Some x -> not_negative x = true.
Proof.
  unfold int_truediv. intros Ha Hb. destruct (b =? 0); [discriminate|].
  destruct (is_finite _); [|discriminate]. intros [= <-].
  apply fdiv_sign; now apply exact_int_sign.
Qed.

Lemma win_pct_sign (w t g : Z) (x : float) :
  0 <= w -> 0 <= t -> 0 <= g -> win_pct w t g = Some x ->
  not_negative x = true.
Proof.
  unfold win_pct, fdiv_int. intros Hw Ht Hg H.
  inv_bind H. inv_bind H. inv_bind H. injection H as <-.
  destruct (g =? 0); [discriminate|]. inv_bind E1. injection E1 as <-.
  apply (fmul_sign (fdiv (fadd v0 (fmul f0_5 v)) v2) f100); [|reflexivity].
  apply (fdiv_sign (fadd v0 (fmul f0_5 v)) v2);
    [|exact (float_of_int_sign g _ Hg E2)].
  apply (fadd_sign v0 (fmul f0_5 v)); [exact (float_of_int_sign w _ Hw E0)|].
  apply (fmul_sign f0_5 v); [reflexivity|].
  exact (float_of_int_sign t _ Ht E).
Qed.

(** Adding a zero to a float that is not negative gives it back. *)
Lemma fadd_zero_r (x : float) (s : bool) :
  not_negative x = true -> fadd x (S754_zero s) = x.
Proof.
  destruct x as [[]|[]| |[] mx ex]; try discriminate; intros _;
    destruct s; reflexivity.
Qed.

Lemma fmul_finite_zero (b : float) :
  is_finite b = true -> exists s, fmul b f0_0 = S754_zero s.
Proof.
  destruct b as [s|s| |s mb eb]; try discriminate; intros _;
    eexists; reflexivity.
Qed.

(** ** The accumulated counts are natural numbers *)

Lemma dict_all_upd {V : Type} (P : V -> Prop) (dflt : V) (f : V -> V)
    (d : dict V) (k : text) :
  P dflt -> (forall v, P v -> P (f v)) ->
  dict_all P d -> dict_all P (dict_upd dflt f d k).
Proof.
  intros Hd Hf. unfold dict_all.
  induction d as [|[k' v'] d IH]; simpl; intros H.
  - constructor; [simpl; auto | constructor].
  - inversion H; subst. destruct (text_eqb k' k); constructor; simpl in *; auto.
Qed.

Lemma dict_all_get {V : Type} (P : V -> Prop) (d : dict V) (k : text) (v : V) :
  dict_all P d -> dict_get d k = Some v -> P v.
Proof.
  intros H Hg. apply dict_get_in in Hg. unfold dict_all in H.
  rewrite Forall_forall in H. exact (H _ Hg).
Qed.

Lemma stats_nonneg_add (r : SummaryRecord) (s : Stats) :
  summary_nonneg r = true -> stats_nonneg s -> stats_nonneg (add_summary r s).
Proof.
  unfold summary_nonneg, stats_nonneg, add_summary. simpl.
  rewrite !andb_true_iff, !Z.leb_le. lia.
Qed.

Lemma conv_nonneg_add (r : ConversionRecord) (c : ConvStats) :
  conversion_nonneg r = true -> conv_nonneg c ->
  conv_nonneg (add_conversion r c).
Proof.
  unfold conversion_nonneg, conv_nonneg, add_conversion. simpl.
  rewrite !andb_true_iff, !Z.leb_le. lia.
Qed.

Lemma fold_summary_nonneg (l : list SummaryRecord) (d : dict Stats) :
  forallb summary_nonneg l = true -> dict_all stats_nonneg d ->
  dict_all stats_nonneg (fold_left day2_step l d).
Proof.
  revert d. induction l as [|r l IH]; simpl; intros d Hl Hd; [assumption|].
  apply andb_true_iff in Hl. destruct Hl as [Hr Hl].
  apply IH; [assumption|]. unfold day2_step.
  apply dict_all_upd; [repeat split; simpl; lia | | assumption].
  intros v. now apply stats_nonneg_add.
Qed.

Lemma fold_conversion_nonneg (l : list ConversionRecord) (d : dict ConvStats) :
  forallb conversion_nonneg l = true -> dict_all conv_nonneg d ->
  dict_all conv_nonneg (fold_left conv_step l d).
Proof.
  revert d. induction l as [|r l IH]; simpl; intros d Hl Hd; [assumption|].
  apply andb_true_iff in Hl. destruct Hl as [Hr Hl].
  apply IH; [assumption|]. unfold conv_step.
  apply dict_all_upd; [split; simpl; lia | | assumption].
  intros v. now apply conv_nonneg_add.
Qed.

Lemma aggregate_from_nonneg (ts : list TournamentData) (st : AggState) :
  Forall (fun d => nonneg_data d = true) ts ->
  dict_all stats_nonneg (overall_stats st) /\
  dict_all stats_nonneg (day2_stats st) /\
  dict_all conv_nonneg (conv_stats st) ->
  dict_all stats_nonneg (overall_stats (aggregate_from st ts)) /\
  dict_all stats_nonneg (day2_stats (aggregate_from st ts)) /\
  dict_all conv_nonneg (conv_stats (aggregate_from st ts)).
Proof.
  unfold aggregate_from. revert st.
  induction ts as [|t ts IH]; simpl; intros st Hts Hst; [assumption|].
  inversion Hts as [|? ? Ht Hts']; subst. apply IH; [assumption|].
  unfold nonneg_data in Ht. rewrite !andb_true_iff in Ht.
  destruct Ht as [[Ho Hd] Hc]. destruct Hst as (So & Sd & Sc).
  rewrite overall_stats_step. simpl. repeat split.
  - now apply fold_summary_nonneg.
  - now apply fold_summary_nonneg.
  - now apply fold_conversion_nonneg.
Qed.

Lemma aggregate_nonneg (ts : list TournamentData) :
  Forall (fun d => nonneg_data d = true) ts ->
  dict_all stats_nonneg (overall_stats (aggregate ts)) /\
  dict_all stats_nonneg (day2_stats (aggregate ts)) /\
  dict_all conv_nonneg (conv_stats (aggregate ts)).
Proof.
  intros H. apply aggregate_from_nonneg; [assumption|].
  repeat split; constructor.
Qed.

Lemma base_row_sign (minp : Z) (st : AggState) name o br :
  stats_nonneg o ->
  dict_all stats_nonneg (day2_stats st) ->
  dict_all conv_nonneg (conv_stats st) ->
  base_row minp st (name, o) = Some (Some br) ->
  not_negative (base_score br) = true.
Proof.
  intros (Hw & Hl & Ht & _) Hd2 Hcv. unfold base_row.
  destruct (players o <? minp); [discriminate|].
  destruct (wins o + losses o + ties o <=? 0); [discriminate|].
  intros H. inv_bind H. inv_bind H. inv_bind H. injection H as <-.
  cbn [base_score].
  assert (Nv : not_negative v = true).
  { apply (win_pct_sign (wins o) (ties o) (wins o + losses o + ties o));
      [lia | lia | lia | assumption]. }
  unfold base_score_of.
  apply (fadd_sign (fadd (fmul w_overall v) (fmul w_day2 _)) (fmul w_conv _));
    [apply (fadd_sign (fmul w_overall v) (fmul w_day2 _))|].
  - now apply (fmul_sign w_overall v).
  - apply (fmul_sign w_day2 _); [reflexivity|].
    unfold day2_of in E0.
    destruct (dict_get (day2_stats st) name) as [d2|] eqn:G.
    + destruct (dict_all_get _ _ _ _ Hd2 G) as (Hw2 & Hl2 & Ht2 & _).
      destruct (wins d2 + losses d2 + ties d2 >? 0).
      * inv_bind E0. injection E0 as <-. cbn [or_default fst].
        apply (win_pct_sign (wins d2) (ties d2) (wins d2 + losses d2 + ties d2));
          [lia | lia | lia | assumption].
      * injection E0 as <-. assumption.
    + injection E0 as <-. assumption.
  - apply (fmul_sign w_conv _); [reflexivity|].
    unfold conv_of in E1.
    destruct (dict_get (conv_stats st) name) as [c|] eqn:G.
    + destruct (dict_all_get _ _ _ _ Hcv G) as (H1 & H2).
      destruct (day1 c >? 0).
      * inv_bind E1. injection E1 as <-. cbn [or_default].
        apply (fmul_sign v2 f100); [|reflexivity].
        apply (int_truediv_sign (day2 c) (day1 c)); [lia | lia | assumption].
      * injection E1 as <-. reflexivity.
    + injection E1 as <-. reflexivity.
Qed.

(** ** The extractors deliver natural numbers *)

Lemma digit_val_nonneg (c : ascii) : is_digit c = true -> 0 <= digit_val c.
Proof. ascii_cases c. Qed.

Lemma digits_val_nonneg (s : text) :
  forallb is_digit s = true -> 0 <= digits_val s.
Proof.
  unfold digits_val.
  assert (H : forall a, 0 <= a -> forallb is_digit s = true ->
                0 <= fold_left (fun acc c => 10 * acc + digit_val c) s a).
  { induction s as [|c s IH]; cbn [fold_left forallb]; intros a Ha Hs;
      [assumption|].
    apply andb_true_iff in Hs. destruct Hs as [Hc Hs].
    apply IH; [|assumption]. pose proof (digit_val_nonneg c Hc). lia. }
  intros Hs. apply H; [lia | assumption].
Qed.

Lemma py_int_nonneg (s : text) (z : Z) : py_int s = Some z -> 0 <= z.
Proof.
  unfold py_int. destruct s as [|c s]; [discriminate|].
  destruct (forallb is_digit (c :: s)) eqn:E; [|discriminate].
  destruct (_ <=? _)%nat; [|discriminate].
  intros [= <-]. now apply digits_val_nonneg.
Qed.

Lemma summary_of_match_nonneg (m : captures) (r : SummaryRecord) :
  summary_of_match m = Some r -> summary_nonneg r = true.
Proof.
  unfold summary_of_match, summary_nonneg. intros H.
  inv_bind H. inv_bind H. inv_bind H. inv_bind H. inv_bind H. inv_bind H.
  injection H as <-. simpl.
  rewrite !andb_true_iff, !Z.leb_le.
  repeat split; eapply py_int_nonneg; eassumption.
Qed.

Lemma conversion_of_match_nonneg (m : captures) (r : ConversionRecord) :
  conversion_of_match m = Some (Some r) -> conversion_nonneg r = true.
Proof.
  unfold conversion_of_match, conversion_nonneg.
  destruct (py_int (group m 2)) eqn:E2, (py_int (group m 3)) eqn:E3;
    try discriminate.
  intros H. inv_bind H. injection H as <-. simpl.
  rewrite andb_true_iff, !Z.leb_le.
  split; eapply py_int_nonneg; eassumption.
Qed.

Lemma extract_overall_or_day_nonneg (txt : text) (l : list SummaryRecord) :
  extract_overall_or_day txt = Some l -> forallb summary_nonneg l = true.
Proof.
  unfold extract_overall_or_day. intros H. apply mapM_some in H.
  apply forallb_forall. intros r Hr.
  destruct (Forall2_in_r _ _ _ _ H Hr) as (m & _ & Hm).
  exact (summary_of_match_nonneg m r Hm).
Qed.

Lemma extract_conversion_nonneg (txt : text) (l : list ConversionRecord) :
  extract_conversion txt = Some l -> forallb conversion_nonneg l = true.
Proof.
  unfold extract_conversion. intros H. inv_bind H. injection H as <-.
  apply mapM_some in E. apply forallb_forall. intros r Hr.
  apply in_keep_some in Hr.
  destruct (Forall2_in_r _ _ _ _ E Hr) as (m & _ & Hm).
  exact (conversion_of_match_nonneg m r Hm).
Qed.

(** The data of a tournament read from its pages has natural counts. *)
Lemma fetched_data_nonneg (p : TournamentPages) (d : TournamentData) :
  fetch_tournament_data_with_links p = Some d -> nonneg_data d = true.
Proof.
  unfold fetch_tournament_data_with_links, nonneg_data. intros H.
  inv_bind H. inv_bind H. inv_bind H. injection H as <-. simpl.
  rewrite (extract_overall_or_day_nonneg _ _ E),
    (extract_overall_or_day_nonneg _ _ E0),
    (extract_conversion_nonneg _ _ E1).
  reflexivity.
Qed.

(** ** Decks outside the meta pool *)

Lemma set_mem_in (s : strset) (x : text) : set_mem s x = true <-> In x s.
Proof.
  unfold set_mem. rewrite existsb_exists. split.
  - intros (y & Hy & E). apply text_eqb_true in E. now subst.
  - intros H. exists x. split; [assumption | apply text_eqb_refl].
Qed.

(** The weights are those of decks of the pool. *)
Lemma meta_weight_keys (meta : strset) (total : Z) (l : list BaseRow)
    (acc : option (dict float)) (mw : dict float) :
  fold_left (meta_weight_step meta total) l acc = Some mw ->
  exists mw0, acc = Some mw0 /\
    forall k, In k (dict_keys mw) ->
              In k (dict_keys mw0) \/ set_mem meta k = true.
Proof.
  revert acc. induction l as [|r l IH]; simpl; intros acc H.
  - exists mw. auto.
  - destruct (IH _ H) as (mw1 & H1 & Hk).
    unfold meta_weight_step in H1. inv_bind H1. exists v. split; [assumption|].
    intros k Hin. destruct (Hk k Hin) as [Hin1 | ?]; [|auto].
    destruct (set_mem meta (deck r) && (total >? 0)) eqn:Em.
    + inv_bind H1. injection H1 as <-. unfold dict_set in Hin1.
      apply in_dict_keys_upd in Hin1. destruct Hin1 as [-> | ?]; [|auto].
      right. now apply andb_true_iff in Em.
    + injection H1 as <-. auto.
Qed.

Lemma meta_weight_outside (meta : strset) (rows : list BaseRow)
    (mw : dict float) (name : text) :
  meta_weight_of meta rows = Some mw ->
  set_mem meta name = false ->
  dict_get mw name = None.
Proof.
  unfold meta_weight_of. intros H Hout.
  destruct (meta_weight_keys _ _ _ _ _ H) as (mw0 & [= <-] & Hk).
  apply dict_get_none. intros Hin.
  destruct (Hk _ Hin) as [[] | Hin']. congruence.
Qed.

(** The opponents extracted from a page are candidates. *)
Lemma matchup_fold_keys (txt this : text) (l : list text)
    (acc : option (dict Matchup)) (res : dict Matchup) :
  fold_left (matchup_step txt this) l acc = Some res ->
  exists res0, acc = Some res0 /\
    forall k, In k (dict_keys res) -> In k (dict_keys res0) \/ In k l.
Proof.
  revert acc. induction l as [|opp l IH]; simpl; intros acc H.
  - exists res. auto.
  - destruct (IH _ H) as (res1 & H1 & Hk).
    unfold matchup_step in H1. inv_bind H1. exists v. split; [assumption|].
    intros k Hin. destruct (Hk k Hin) as [Hin1 | ?]; [|auto].
    destruct (text_eqb opp this); [injection H1 as <-; auto|].
    destruct (search (matchup_pattern opp) txt);
      [|injection H1 as <-; auto].
    inv_bind H1. injection H1 as <-. unfold dict_set in Hin1.
    apply in_dict_keys_upd in Hin1. destruct Hin1 as [-> | ?]; auto.
Qed.

Lemma extract_matchups_keys (txt this : text) (order : list text)
    (res : dict Matchup) (k : text) :
  extract_matchups_from_html txt this order = Some res ->
  In k (dict_keys res) -> In k order.
Proof.
  unfold extract_matchups_from_html. intros H Hin.
  destruct (matchup_fold_keys _ _ _ _ _ H) as (res0 & [= <-] & Hk).
  destruct (Hk _ Hin) as [[] | ?]. assumption.
Qed.

Lemma bump_keys (m : matrix) (a b : text) (w l t : Z) (x : text) :
  In x (dict_keys (bump m a b w l t)) <-> x = a \/ In x (dict_keys m).
Proof. unfold bump. apply in_dict_keys_upd. Qed.

Lemma fold_record_matchup_keys (deck : text) (per : dict Matchup) (m : matrix)
    (x : text) :
  In x (dict_keys (fold_left (record_matchup deck) per m)) ->
  x = deck \/ In x (dict_keys per) \/ In x (dict_keys m).
Proof.
  revert m. induction per as [|[opp stats] per IH]; simpl; intros m H; [auto|].
  destruct (IH _ H) as [? | [? | Hm]]; auto.
  unfold record_matchup in Hm. rewrite !bump_keys in Hm.
  destruct Hm as [? | [? | ?]]; auto.
Qed.

Section OutsidePool.

Variable fetch_page : text -> option text.
Variable set_iter : strset -> list text.

Lemma url_step_keys deck order st url x :
  In x (dict_keys (fst (url_step fetch_page deck order st url))) ->
  x = deck \/ In x order \/ In x (dict_keys (fst st)).
Proof.
  unfold url_step, fetch_matchups_for_deck. simpl.
  destruct (fetch_page (matchups_url url)) as [page|]; simpl; [|auto].
  destruct (extract_matchups_from_html page deck order) as [per|] eqn:E;
    [|auto].
  intros H. apply fold_record_matchup_keys in H.
  destruct H as [? | [H | ?]]; auto.
  right. left. exact (extract_matchups_keys _ _ _ _ _ E H).
Qed.

Lemma fold_url_step_keys deck order urls st x :
  In x (dict_keys (fst (fold_left (url_step fetch_page deck order) urls st))) ->
  x = deck \/ In x order \/ In x (dict_keys (fst st)).
Proof.
  revert st. induction urls as [|u urls IH]; simpl; intros st H; [auto|].
  destruct (IH _ H) as [? | [? | Hs]]; auto.
  now apply url_step_keys in Hs.
Qed.

Lemma fold_deck_step_keys urls_global order decks st x :
  In x (dict_keys
          (fst (fold_left (deck_step fetch_page set_iter urls_global order)
                          decks st))) ->
  In x decks \/ In x order \/ In x (dict_keys (fst st)).
Proof.
  revert st. induction decks as [|d decks IH]; simpl; intros st H; [auto|].
  destruct (IH _ H) as [? | [? | Hs]]; auto.
  unfold deck_step in Hs. apply fold_url_step_keys in Hs.
  destruct Hs as [-> | [? | ?]]; auto.
Qed.

(** The decks of the matrix are decks the iteration over the pool yields. *)
Lemma matchups_run_keys urls_global meta x :
  In x (dict_keys (fst (matchups_run fetch_page set_iter urls_global meta))) ->
  In x (set_iter meta).
Proof.
  unfold matchups_run. intros H. apply fold_deck_step_keys in H.
  destruct H as [? | [? | []]]; assumption.
Qed.

(** Iterating over a set yields elements of the set. *)
Hypothesis set_iter_sound : forall s x, In x (set_iter s) -> In x s.

(** C7.  A deck that qualifies for the ranking and is outside the meta pool
    has no meta weight (so weight 0 as an opponent), no request is made for
    it, and its row is in the ranking with matchup score 0.0 and the final
    score [base_score + matchup_weight × 0.0].  That is the base score itself
    when the weight is a finite number and the counts of the tournaments are
    natural numbers. *)
Theorem outside_meta_pool ts minp K beta rows m brs br :
  aggregate_tournaments_with_matchups fetch_page set_iter ts minp K beta
  = Some (rows, m) ->
  base_rows_of minp (aggregate ts) = Some brs ->
  In br brs ->
  set_mem (meta_decks_of K (sort_desc by_players brs)) (deck br) = false ->
  exists mw scored reqs r,
    meta_weight_of (meta_decks_of K (sort_desc by_players brs))
                   (sort_desc by_players brs) = Some mw /\
    score_all fetch_page set_iter (aggregate ts) minp K beta
    = Some (scored, m, reqs) /\
    or_default (dict_get mw (deck br)) f0_0 = f0_0 /\
    (forall url, ~ In (deck br, url) reqs) /\
    In r rows /\ row r = br /\
    matchup_score r = f0_0 /\
    final_score r = fadd (base_score br) (fmul beta f0_0) /\
    (is_finite beta = true ->
     Forall (fun d => nonneg_data d = true) ts ->
     final_score r = base_score br).
Proof.
  intros H Hbrs Hbr Hout.
  destruct (aggregate_stages _ _ _ _ _ _ _ _ H)
    as (brs' & mw & scored & reqs & Hb & Hmw & Hrun & Hs & Hall & ->).
  rewrite Hbrs in Hb. injection Hb as <-.
  set (meta := meta_decks_of K (sort_desc by_players brs)) in *.
  assert (Hnotin : ~ In (deck br) (set_iter meta)).
  { intros Hin. apply set_iter_sound, set_mem_in in Hin. congruence. }
  apply mapM_some in Hs.
  assert (Hbr' : In br (sort_desc by_players brs)) by now rewrite in_sort_desc.
  destruct (Forall2_in_l _ _ _ _ Hs Hbr') as (r & Hr & Hsc).
  destruct (score_row_some _ _ _ _ _ Hsc) as (Hrow & Hfinal & Hms).
  assert (Hcell : dict_get m (deck br) = None).
  { apply dict_get_none. intros Hin. apply Hnotin.
    apply (matchups_run_keys (deck_urls_global (aggregate ts)) meta).
    now rewrite Hrun. }
  rewrite Hcell in Hms. injection Hms as Hms.
  assert (Hf0 : final_score r = fadd (base_score br) (fmul beta f0_0))
    by now rewrite Hfinal, <- Hms.
  exists mw, scored, reqs, r.
  split; [assumption|]. split; [assumption|]. split.
  { now rewrite (meta_weight_outside _ _ _ _ Hmw Hout). }
  split.
  { intros url Hin.
    assert (Hreqs : reqs = snd (matchups_run fetch_page set_iter
                                  (deck_urls_global (aggregate ts)) meta))
      by now rewrite Hrun.
    unfold matchups_run in Hreqs. rewrite fold_deck_step_requests in Hreqs.
    simpl in Hreqs. subst reqs. apply in_flat_map in Hin.
    destruct Hin as (d & Hd & Hin). unfold requests_for in Hin.
    apply in_map_iff in Hin. destruct Hin as (u & [= Hdeck _] & _).
    subst d. contradiction. }
  split; [now rewrite in_sort_by_final_score|]. split; [assumption|].
  split; [now symmetry|]. split; [exact Hf0|].
  intros Hbeta Hnn. rewrite Hf0.
  destruct (fmul_finite_zero beta Hbeta) as (s & ->).
  apply fadd_zero_r.
  apply (base_rows_of_in _ _ _ _ Hbrs) in Hbr.
  destruct Hbr as ([name o] & Hin & Hrowb).
  destruct (aggregate_nonneg ts Hnn) as (So & Sd & Sc).
  apply (base_row_sign minp (aggregate ts) name o); try assumption.
  unfold dict_all in So. rewrite Forall_forall in So. exact (So _ Hin).
Qed.

End OutsidePool.

Lemma outside_meta_pool_witness :
  (deck sample_outside_row = str "Gardevoir" /\
   In sample_outside_row sample_base_rows /\
   set_mem (meta_decks_of 2 (sort_desc by_players sample_base_rows))
           (deck sample_outside_row) = false) /\
  exists r,
    In r sample_rows /\ row r = sample_outside_row /\
    matchup_score r = f0_0 /\ final_score r = base_score sample_outside_row.
Proof.
  split.
  - repeat split; vm_compute; auto.
  - destruct (outside_meta_pool sample_fetch sample_iter
                (fun s x H => H) sample_ts 20 2 f0_5 sample_rows sample_matrix
                sample_base_rows sample_outside_row)
      as (mw & scored & reqs & r & _ & _ & _ & _ & Hr & Hrow & Hms & _ & Hf).
    + vm_compute. reflexivity.
    + vm_compute. reflexivity.
    + vm_compute. auto.
    + vm_compute. reflexivity.
    + exists r. repeat split; try assumption.
      apply Hf; [reflexivity | repeat constructor].
Defined.

(** With an infinite weight, which [float] reads from the form field
    [matchup_weight] (["inf"], line 606), the final score of the deck outside
    the pool is [base_score + inf × 0.0], not a number, and so not its base
    score, which is finite. *)
Lemma infinite_weight_outside_pool :
  exists rows m r,
    aggregate_tournaments_with_matchups sample_fetch sample_iter sample_ts
      20 2 f_inf = Some (rows, m) /\
    In r rows /\ row r = sample_outside_row /\
    set_mem (meta_decks_of 2 (sort_desc by_players sample_base_rows))
            (deck sample_outside_row) = false /\
    matchup_score r = f0_0 /\
    is_finite (base_score (row r)) = true /\
    final_score r = S754_nan /\
    final_score r <> base_score (row r).
Proof.
  destruct (aggregate_tournaments_with_matchups sample_fetch sample_iter
              sample_ts 20 2 f_inf) as [[rows m]|] eqn:E;
    [|vm_compute in E; discriminate].
  exists rows, m. vm_compute in E. injection E as <- <-.
  eexists ?[r]. split; [reflexivity|].
  split; [do 2 right; left; reflexivity|].
  repeat split; try reflexivity. discriminate.
Qed.

(** ** The matcher finds matches *)

Lemma prefix_ci_split (ci : bool) (l s s' : text) :
  prefix_ci ci l s = Some s' ->
  exists u, s = u ++ s' /\ prefix_ci ci l u = Some [].
Proof.
  revert s. induction l as [|a l IH]; simpl; intros s H.
  - injection H as <-. exists []. split; reflexivity.
  - destruct s as [|c s]; [discriminate|].
    destruct (if ci then _ else _) eqn:E; [|discriminate].
    destruct (IH _ H) as (u & -> & Hu).
    exists (c :: u). split; [reflexivity|]. simpl. now rewrite E.
Qed.

Section MatcherFacts.

Context {R : Type}.

Lemma or_else_some (a b : option R) (r : R) :
  or_else a b = Some r -> a = Some r \/ (a = None /\ b = Some r).
Proof. destruct a; simpl; intros H; auto. Qed.

Lemma one_some p (k : text -> option R) s r :
  one p k s = Some r ->
  exists c s', s = c :: s' /\ p c = true /\ k s' = Some r.
Proof.
  destruct s as [|c s]; simpl; [discriminate|].
  destruct (p c) eqn:E; [|discriminate]. eauto.
Qed.

Lemma star_greedy_some p (k : text -> option R) s r :
  star_greedy p k s = Some r ->
  exists u s', s = u ++ s' /\ forallb p u = true /\ k s' = Some r.
Proof.
  induction s as [|c s IH]; simpl; intros H.
  - exists [], []. auto.
  - destruct (p c) eqn:E.
    + apply or_else_some in H. destruct H as [H | [_ H]].
      * destruct (IH H) as (u & s' & -> & Hu & Hk).
        exists (c :: u), s'. simpl. rewrite E. auto.
      * exists [], (c :: s). auto.
    + exists [], (c :: s). auto.
Qed.

Lemma star_lazy_some p (k : text -> option R) s r :
  star_lazy p k s = Some r ->
  exists u s', s = u ++ s' /\ forallb p u = true /\ k s' = Some r.
Proof.
  induction s as [|c s IH]; simpl; intros H.
  - apply or_else_some in H. destruct H as [H | [_ H]]; [|discriminate].
    exists [], []. auto.
  - apply or_else_some in H. destruct H as [H | [_ H]].
    + exists [], (c :: s). auto.
    + destruct (p c) eqn:E; [|discriminate].
      destruct (IH H) as (u & s' & -> & Hu & Hk).
      exists (c :: u), s'. simpl. rewrite E. auto.
Qed.

(** Soundness of the backtracking matcher. *)
Lemma run_sound (r : regex) :
  forall s caps (k : @cont R) res,
    run r s caps k = Some res ->
    exists u s' caps',
      s = u ++ s' /\ matches r u caps caps' /\ k s' caps' = Some res.
Proof.
  induction r as [ci l|p|p|p|p|p|r IH|r1 IH1 r2 IH2]; simpl;
    intros s caps k res H.
  - destruct (prefix_ci ci l s) as [s'|] eqn:E; [|discriminate].
    destruct (prefix_ci_split _ _ _ _ E) as (u & -> & Hu).
    exists u, s', caps. repeat split; [now constructor | assumption].
  - apply one_some in H. destruct H as (c & s' & -> & Hc & Hk).
    exists [c], s', caps. repeat split; [now constructor | assumption].
  - apply or_else_some in H. destruct H as [H | [_ H]].
    + apply one_some in H. destruct H as (c & s' & -> & Hc & Hk).
      exists [c], s', caps. repeat split; [now constructor | assumption].
    + exists [], s, caps. repeat split; [constructor | assumption].
  - apply star_greedy_some in H. destruct H as (u & s' & -> & Hu & Hk).
    exists u, s', caps. repeat split; [now constructor | assumption].
  - apply one_some in H. destruct H as (c & s0 & -> & Hc & H).
    apply star_greedy_some in H. destruct H as (u & s' & -> & Hu & Hk).
    exists (c :: u), s', caps. repeat split; [|assumption].
    constructor. simpl. now rewrite Hc.
  - apply one_some in H. destruct H as (c & s0 & -> & Hc & H).
    apply star_lazy_some in H. destruct H as (u & s' & -> & Hu & Hk).
    exists (c :: u), s', caps. repeat split; [|assumption].
    constructor. simpl. now rewrite Hc.
  - apply IH in H. destruct H as (u & s' & caps' & -> & Hm & Hk).
    exists u, s', (caps' ++ [u]). repeat split; [now constructor|].
    rewrite length_app, Nat.add_sub, firstn_app, firstn_all, Nat.sub_diag
      in Hk.
    simpl in Hk. now rewrite app_nil_r in Hk.
  - apply IH1 in H. destruct H as (u1 & s1 & caps1 & -> & Hm1 & H).
    apply IH2 in H. destruct H as (u2 & s2 & caps2 & -> & Hm2 & Hk).
    exists (u1 ++ u2), s2, caps2. rewrite <- app_assoc.
    repeat split; [econstructor; eassumption | assumption].
Qed.

End MatcherFacts.

Lemma match_here_sound (r : regex) (s : text) caps rest :
  match_here r s = Some (caps, rest) ->
  exists u, s = u ++ rest /\ matches r u [] caps.
Proof.
  unfold match_here. intros H. apply run_sound in H.
  destruct H as (u & s' & caps' & -> & Hm & [= <- <-]). eauto.
Qed.

(** Every match [finditer] reports is a match of the pattern somewhere in
    the text. *)
Lemma finditer_from_sound (r : regex) (s : text) (n : nat) (caps : captures) :
  In caps (finditer_from r n s) -> exists u, matches r u [] caps.
Proof.
  revert n. induction s as [|c s IH]; simpl; intros n H; [contradiction|].
  destruct n as [|n]; [|eauto].
  destruct (match_here r (c :: s)) as [[caps' rest]|] eqn:E; [|eauto].
  destruct H as [<- | H]; [|eauto].
  apply match_here_sound in E. destruct E as (u & _ & Hm). eauto.
Qed.

Lemma search_sound (r : regex) (s : text) (caps : captures) :
  search r s = Some caps -> exists u, matches r u [] caps.
Proof.
  induction s as [|c s IH]; simpl.
  - destruct (match_here r []) as [[caps' rest]|] eqn:E; [|discriminate].
    intros [= <-]. apply match_here_sound in E. destruct E as (u & _ & Hm).
    eauto.
  - destruct (match_here r (c :: s)) as [[caps' rest]|] eqn:E; [|auto].
    intros [= <-]. apply match_here_sound in E. destruct E as (u & _ & Hm).
    eauto.
Qed.

(** ** Stripping *)

Lemma lstrip_app_keep (l : text) (c : ascii) :
  is_space c = false -> exists l', lstrip (l ++ [c]) = l' ++ [c].
Proof.
  intros Hc. induction l as [|a l IH]; simpl.
  - rewrite Hc. now exists [].
  - destruct (is_space a); [exact IH|]. now exists (a :: l).
Qed.

Lemma strip_keeps_head (c : ascii) (s : text) :
  is_space c = false -> exists t, strip (c :: s) = c :: t.
Proof.
  intros Hc. unfold strip, rstrip. simpl lstrip. rewrite Hc. simpl rev.
  destruct (lstrip_app_keep (rev s) c Hc) as (l' & ->).
  exists (rev l'). now rewrite rev_app_distr.
Qed.

(** ** Names are anchored on [[A-Z0-9]] *)

Ltac inv_matches :=
  repeat match goal with
    | H : matches (Seq _ _) _ _ _ |- _ => inversion H; clear H; subst
    | H : matches (Group _) _ _ _ |- _ => inversion H; clear H; subst
    | H : matches (Cls _) _ _ _ |- _ => inversion H; clear H; subst
    | H : matches (Plus _) _ _ _ |- _ => inversion H; clear H; subst
    | H : matches (LazyPlus _) _ _ _ |- _ => inversion H; clear H; subst
    | H : matches (Star _) _ _ _ |- _ => inversion H; clear H; subst
    | H : matches (Opt _) _ _ _ |- _ => inversion H; clear H; subst
    | H : matches (Lit _ _) _ _ _ |- _ => inversion H; clear H; subst
    end.

Lemma summary_match_name (u : text) (caps : captures) :
  matches summary_pattern u [] caps -> anchored (strip (group caps 2)).
Proof.
  unfold summary_pattern, percent_group, wlt_groups. intros H.
  inv_matches; unfold group; simpl nth;
    match goal with
    | H : is_upper_or_digit ?c = true |- anchored (strip (?c :: ?rest)) =>
        destruct (strip_keeps_head c rest (upper_or_digit_not_space c H))
          as (t & Ht);
        rewrite Ht; exists c, t; auto
    end.
Qed.

Lemma conversion_match_name (u : text) (caps : captures) :
  matches conversion_pattern u [] caps -> anchored (strip (group caps 1)).
Proof.
  unfold conversion_pattern, percent_group. intros H.
  inv_matches; unfold group; simpl nth;
    match goal with
    | H : is_upper_or_digit ?c = true |- anchored (strip (?c :: ?rest)) =>
        destruct (strip_keeps_head c rest (upper_or_digit_not_space c H))
          as (t & Ht);
        rewrite Ht; exists c, t; auto
    end.
Qed.

Lemma summary_of_match_deck (m : captures) (r : SummaryRecord) :
  summary_of_match m = Some r -> s_deck r = strip (group m 2).
Proof.
  unfold summary_of_match. intros H.
  inv_bind H. inv_bind H. inv_bind H. inv_bind H. inv_bind H. inv_bind H.
  now injection H as <-.
Qed.

Lemma conversion_of_match_deck (m : captures) (r : ConversionRecord) :
  conversion_of_match m = Some (Some r) -> c_deck r = strip (group m 1).
Proof.
  unfold conversion_of_match.
  destruct (py_int (group m 2)), (py_int (group m 3)); try discriminate.
  intros H. inv_bind H. now injection H as <-.
Qed.

(** C10, as the code has it.  Every summary or conversion record the
    extractors produce has a deck name that begins with an ASCII uppercase
    letter or a decimal digit. *)
Theorem extracted_names_anchored (txt : text) :
  (forall recs r,
     extract_overall_or_day txt = Some recs -> In r recs ->
     anchored (s_deck r)) /\
  (forall recs r,
     extract_conversion txt = Some recs -> In r recs ->
     anchored (c_deck r)).
Proof.
  split; intros recs r H Hr.
  - unfold extract_overall_or_day in H. apply mapM_some in H.
    destruct (Forall2_in_r _ _ _ _ H Hr) as (caps & Hcaps & Hm).
    rewrite (summary_of_match_deck _ _ Hm).
    destruct (finditer_from_sound _ _ _ _ Hcaps) as (u & Hu).
    exact (summary_match_name u caps Hu).
  - unfold extract_conversion in H. inv_bind H. injection H as <-.
    apply in_keep_some in Hr. apply mapM_some in E.
    destruct (Forall2_in_r _ _ _ _ E Hr) as (caps & Hcaps & Hm).
    rewrite (conversion_of_match_deck _ _ Hm).
    destruct (finditer_from_sound _ _ _ _ Hcaps) as (u & Hu).
    exact (conversion_match_name u caps Hu).
Qed.

Lemma extracted_names_anchored_witness :
  extract_conversion (str "gholdengo Lunatone 307 77 25.08%")
  = Some [{| c_deck := str "Lunatone"; c_day1_players := 307;
             c_day2_players := 77;
             c_conv_pct := S754_finite false 7059392415903252 (-48) |}] /\
  anchored (str "Lunatone").
Proof.
  assert (H : extract_conversion (str "gholdengo Lunatone 307 77 25.08%")
              = Some [{| c_deck := str "Lunatone"; c_day1_players := 307;
                         c_day2_players := 77;
                         c_conv_pct :=
                           S754_finite false 7059392415903252 (-48) |}])
    by (vm_compute; reflexivity).
  split; [exact H|].
  exact (proj2 (extracted_names_anchored _) _ _ H (or_introl eq_refl)).
Defined.

(** A row whose name begins with a lower-case letter is not skipped: the
    match starts at the first upper-case letter or digit further on.  The
    conversion row of ["gholdengo Lunatone"] yields a record for
    ["Lunatone"], and the summary row of ["mew 151 Pikachu"] with 307 players
    yields a record of 151 players for ["Pikachu"]. *)
Lemma unanchored_row_yields_record :
  ~ anchored (str "gholdengo Lunatone") /\
  (exists r,
     extract_conversion
       (conversion_row (str "gholdengo Lunatone") (str "307") (str "77")
          {| n_int := str "25"; n_sep := Some "."%char; n_frac := str "08" |})
     = Some [r] /\ c_deck r = str "Lunatone") /\
  ~ anchored (str "mew 151 Pikachu") /\
  (exists r,
     extract_overall_or_day
       (summary_row (str "307") (str "mew 151 Pikachu")
          {| n_int := str "14"; n_sep := Some "."%char; n_frac := str "52" |}
          (str "1") (str "2") (str "3")
          {| n_int := str "50"; n_sep := None; n_frac := [] |})
     = Some [r] /\ s_deck r = str "Pikachu" /\ s_players r = 151).
Proof.
  repeat split.
  - intros (c & rest & [= <- _] & Hc). discriminate.
  - eexists. split; vm_compute; reflexivity.
  - intros (c & rest & [= <- _] & Hc). discriminate.
  - eexists. repeat split; vm_compute; reflexivity.
Qed.

(** ** The match the priorities select *)

Section Priority.

Context {R : Type}.




End Priority.

Lemma firstn_consumed (u s : text) :
  firstn (List.length (u ++ s) - List.length s) (u ++ s) = u.
Proof.
  rewrite length_app, Nat.add_sub, firstn_app, firstn_all, Nat.sub_diag.
  simpl. apply app_nil_r.
Qed.

Lemma leads_seq r1 r2 s caps s1 caps1 s2 caps2 :
  leads r1 s caps s1 caps1 -> leads r2 s1 caps1 s2 caps2 ->
  leads (Seq r1 r2) s caps s2 caps2.
Proof.
  intros H1 H2 R k res Hk. simpl. apply H1. now apply H2.
Qed.

Lemma leads_group r u s caps caps' :
  leads r (u ++ s) caps s caps' ->
  leads (Group r) (u ++ s) caps s (caps' ++ [u]).
Proof.
  intros H R k res Hk. simpl. apply H. now rewrite firstn_consumed.
Qed.

Lemma leads_cls p c s caps :
  p c = true -> leads (Cls p) (c :: s) caps s caps.
Proof. intros Hc R k res Hk. simpl. now rewrite Hc. Qed.





Lemma is_digits_inv (s : text) :
  is_digits s = true -> s <> [] /\ forallb is_digit s = true.
Proof. destruct s; simpl; [discriminate|]. intros H. split; [discriminate | exact H]. Qed.












Lemma numeral_chars (n : Numeral) :
  valid_numeral n = true -> forallb numeral_char (numeral_text n) = true.
Proof.
  unfold valid_numeral, numeral_text, numeral_char. intros H.
  apply andb_true_iff in H. destruct H as [Hi Hr].
  apply is_digits_inv in Hi. destruct Hi as [_ Hi].
  assert (Hd : forall l, forallb is_digit l = true ->
                         forallb (fun c => is_digit c || is_sep c) l = true).
  { intros l Hl. rewrite forallb_forall in *. intros c Hc.
    now rewrite (Hl c Hc). }
  destruct (n_sep n) as [c|]; [|auto].
  apply andb_true_iff in Hr. destruct Hr as [Hc Hf].
  rewrite forallb_app. simpl. rewrite Hc, orb_true_r, (Hd _ Hi), (Hd _ Hf).
  reflexivity.
Qed.

Lemma forallb_impl {A : Type} (p q : A -> bool) (l : list A) :
  (forall x, p x = true -> q x = true) ->
  forallb p l = true -> forallb q l = true.
Proof.
  intros Hpq H. rewrite forallb_forall in *. auto.
Qed.



Lemma numeral_char_not_percent c : numeral_char c = true -> not_percent c = true.
Proof. ascii_cases c. Qed.

Lemma numeral_char_not_space c : numeral_char c = true -> is_space c = false.
Proof. ascii_cases c. Qed.








(** ** Reading numerals and names *)

Lemma lstrip_stops (s : text) : stops is_space s -> lstrip s = s.
Proof. destruct s as [|c s]; simpl; [reflexivity|]. now intros ->. Qed.

Lemma strip_id (s : text) :
  stops is_space s -> stops is_space (rev s) -> strip s = s.
Proof.
  intros H1 H2. unfold strip, rstrip.
  now rewrite (lstrip_stops s H1), (lstrip_stops _ H2), rev_involutive.
Qed.

Lemma stops_forallb (p q : ascii -> bool) (s : text) :
  (forall c, q c = true -> p c = false) -> forallb q s = true -> stops p s.
Proof.
  intros Hpq. destruct s as [|c s]; simpl; [trivial|]. intros H.
  apply andb_true_iff in H. now apply Hpq.
Qed.

Lemma forallb_rev {A : Type} (p : A -> bool) (l : list A) :
  forallb p l = true -> forallb p (rev l) = true.
Proof.
  rewrite !forallb_forall. intros H x Hx. apply H. now apply in_rev.
Qed.

Lemma strip_numeral (n : Numeral) :
  valid_numeral n = true -> strip (numeral_text n) = numeral_text n.
Proof.
  intros H. apply numeral_chars in H.
  apply strip_id;
    apply (stops_forallb is_space numeral_char _ numeral_char_not_space);
    [assumption | now apply forallb_rev].
Qed.


Lemma py_int_digits (s : text) :
  is_digits s = true -> (List.length s <= int_max_str_digits)%nat ->
  py_int s = Some (digits_val s).
Proof.
  destruct s as [|c s]; [discriminate|]. unfold is_digits, py_int.
  intros -> Hl. apply Nat.leb_le in Hl. now rewrite Hl.
Qed.



Lemma span_digits_app (ds rest : text) :
  forallb is_digit ds = true -> stops is_digit rest ->
  span_digits (ds ++ rest) = (ds, rest).
Proof.
  intros Hd Hr. induction ds as [|c ds IH]; simpl in *.
  - destruct rest as [|c rest]; [reflexivity|]. simpl in *. now rewrite Hr.
  - apply andb_true_iff in Hd. destruct Hd as [Hc Hd].
    now rewrite Hc, (IH Hd).
Qed.

Lemma ends_with_percent_false (s : text) :
  forallb not_percent s = true -> ends_with_percent s = false.
Proof.
  intros H. apply forallb_rev in H. unfold ends_with_percent.
  destruct (rev s) as [|c rs]; [reflexivity|]. simpl in H.
  apply andb_true_iff in H. destruct H as [-> _]. reflexivity.
Qed.

Lemma replace_comma_digits (s : text) :
  forallb is_digit s = true -> replace_comma s = s.
Proof.
  unfold replace_comma. induction s as [|c s IH]; simpl; [reflexivity|].
  intros H. apply andb_true_iff in H. destruct H as [Hc Hs].
  rewrite (IH Hs). f_equal. revert Hc. ascii_cases c.
Qed.

Lemma replace_comma_sep (c : ascii) :
  is_sep c = true -> (if (code c =? 44)%N then "."%char else c) = "."%char.
Proof. ascii_cases c. Qed.

Lemma digit_not_sign (c : ascii) :
  is_digit c = true -> is_char "-" c = false /\ is_char "+" c = false.
Proof. ascii_cases c. Qed.

(** [float] on digits, a point and digits. *)
Lemma py_float_decimal (ip fp : text) :
  is_digits ip = true -> forallb is_digit fp = true ->
  py_float (ip ++ "."%char :: fp) = Some (decimal_value false ip fp).
Proof.
  intros Hi Hf. apply is_digits_inv in Hi. destruct Hi as [Hne Hi].
  unfold py_float. rewrite strip_id.
  - destruct ip as [|c ip]; [congruence|]. simpl app.
    simpl in Hi. apply andb_true_iff in Hi. destruct Hi as [Hc Hi].
    destruct (digit_not_sign c Hc) as [-> ->].
    unfold py_float_unsigned.
    change (c :: ip ++ "."%char :: fp) with ((c :: ip) ++ "."%char :: fp).
    rewrite span_digits_app; [|simpl; now rewrite Hc | reflexivity].
    change (is_char "." ".") with true. cbv iota.
    rewrite <- (app_nil_r fp) at 1.
    rewrite span_digits_app; [|assumption | exact I]. reflexivity.
  - destruct ip as [|c ip]; [congruence|]. simpl. simpl in Hi.
    apply andb_true_iff in Hi. now apply digit_not_space.
  - rewrite rev_app_distr. simpl.
    destruct (rev fp) as [|z rf] eqn:E; simpl; [reflexivity|].
    apply forallb_rev in Hf. rewrite E in Hf. simpl in Hf.
    apply andb_true_iff in Hf. now apply digit_not_space.
Qed.

(** [float] on digits alone. *)
Lemma py_float_integer (ip : text) :
  is_digits ip = true -> py_float ip = Some (decimal_value false ip []).
Proof.
  intros Hi. apply is_digits_inv in Hi. destruct Hi as [Hne Hi].
  unfold py_float. rewrite strip_id.
  - destruct ip as [|c ip]; [congruence|].
    pose proof Hi as Hi'. simpl in Hi'. apply andb_true_iff in Hi'.
    destruct Hi' as [Hc _].
    destruct (digit_not_sign c Hc) as [-> ->].
    unfold py_float_unsigned.
    rewrite <- (app_nil_r (c :: ip)) at 1.
    rewrite span_digits_app; [|assumption | exact I]. reflexivity.
  - apply (stops_forallb is_space is_digit _ digit_not_space Hi).
  - apply (stops_forallb is_space is_digit _ digit_not_space).
    now apply forallb_rev.
Qed.

Lemma replace_comma_numeral (n : Numeral) :
  valid_numeral n = true ->
  replace_comma (numeral_text n) =
  match n_sep n with
  | Some _ => n_int n ++ "."%char :: n_frac n
  | None => n_int n
  end.
Proof.
  unfold valid_numeral, numeral_text. intros H.
  apply andb_true_iff in H. destruct H as [Hi Hr].
  apply is_digits_inv in Hi. destruct Hi as [_ Hi].
  destruct (n_sep n) as [c|].
  - apply andb_true_iff in Hr. destruct Hr as [Hc Hf].
    unfold replace_comma. rewrite map_app. simpl.
    fold (replace_comma (n_int n)). fold (replace_comma (n_frac n)).
    now rewrite (replace_comma_sep c Hc), !replace_comma_digits.
  - now apply replace_comma_digits.
Qed.

Lemma py_float_numeral (n : Numeral) :
  valid_numeral n = true ->
  py_float (replace_comma (numeral_text n)) = Some (numeral_value n).
Proof.
  intros H. rewrite (replace_comma_numeral n H).
  unfold valid_numeral in H. apply andb_true_iff in H. destruct H as [Hi Hr].
  unfold numeral_value. destruct (n_sep n) as [c|].
  - apply andb_true_iff in Hr. destruct Hr as [_ Hf].
    now apply py_float_decimal.
  - destruct (n_frac n); [|discriminate]. now apply py_float_integer.
Qed.

(** The percentage denoted by a numeral, with or without the percent sign;
    the separator, comma or period, has no part in the value. *)
Lemma parse_percentage_numeral (n : Numeral) :
  valid_numeral n = true ->
  parse_percentage_str (numeral_text n) = Some (numeral_value n) /\
  parse_percentage_str (numeral_text n ++ str "%") = Some (numeral_value n).
Proof.
  intros H. pose proof (numeral_chars n H) as Hc.
  pose proof (forallb_impl _ _ _ numeral_char_not_percent Hc) as Hnp.
  unfold parse_percentage_str. split.
  - rewrite (strip_numeral n H), (ends_with_percent_false _ Hnp).
    now apply py_float_numeral.
  - rewrite strip_id.
    + unfold ends_with_percent, str. simpl list_ascii_of_string.
      rewrite rev_unit. simpl negb. cbv iota.
      unfold drop_last. rewrite removelast_last.
      now apply py_float_numeral.
    + destruct (numeral_text n) as [|c s] eqn:E; simpl.
      * reflexivity.
      * simpl in Hc. apply andb_true_iff in Hc.
        now apply numeral_char_not_space.
    + unfold str. simpl list_ascii_of_string. now rewrite rev_unit.
Qed.

(** ** Rows are extracted *)


Lemma finditer_from_cons (r : regex) (c : ascii) (s : text) :
  finditer_from r 0 (c :: s) =
  match match_here r (c :: s) with
  | Some (caps, rest) =>
      caps :: finditer_from r
                (List.length (c :: s) - List.length rest - 1) s
  | None => finditer_from r 0 s
  end.
Proof. reflexivity. Qed.







(** ** The matrix does not depend on the iteration order *)

Lemma same_cells_refl (m : matrix) : same_cells m m.
Proof. intros x y. reflexivity. Qed.

Lemma same_cells_trans (m1 m2 m3 : matrix) :
  same_cells m1 m2 -> same_cells m2 m3 -> same_cells m1 m3.
Proof. intros H1 H2 x y. now rewrite H1. Qed.

Lemma apply_bump_same (m m' : matrix) (b : bump_rec) :
  same_cells m m' -> same_cells (apply_bump m b) (apply_bump m' b).
Proof.
  destruct b as [[a o] [[w l] t]]. intros H x y. simpl.
  now rewrite !cell_bump, !H.
Qed.

Lemma apply_bump_swap (m : matrix) (b1 b2 : bump_rec) :
  same_cells (apply_bump (apply_bump m b1) b2)
             (apply_bump (apply_bump m b2) b1).
Proof.
  destruct b1 as [[a1 o1] [[w1 l1] t1]], b2 as [[a2 o2] [[w2 l2] t2]].
  intros x y. simpl. rewrite !cell_bump.
  destruct (text_eqb a1 a2 && text_eqb o1 o2) eqn:E12.
  - apply andb_true_iff in E12. destruct E12 as [Ea Eo].
    apply text_eqb_true in Ea, Eo. subst a2 o2.
    rewrite !text_eqb_refl. simpl.
    destruct (text_eqb a1 x && text_eqb o1 y); [|reflexivity].
    simpl. now rewrite add_cell_comm.
  - assert (E21 : text_eqb a2 a1 && text_eqb o2 o1 = false)
      by now rewrite (text_eqb_sym a2 a1), (text_eqb_sym o2 o1).
    rewrite E21.
    destruct (text_eqb a2 x && text_eqb o2 y) eqn:E2,
             (text_eqb a1 x && text_eqb o1 y) eqn:E1; try reflexivity.
    apply andb_true_iff in E1, E2. destruct E1 as [E1a E1o], E2 as [E2a E2o].
    apply text_eqb_true in E1a, E1o, E2a, E2o. subst.
    rewrite !text_eqb_refl in E12. discriminate.
Qed.

Lemma fold_bump_same (l : list bump_rec) (m m' : matrix) :
  same_cells m m' ->
  same_cells (fold_left apply_bump l m) (fold_left apply_bump l m').
Proof.
  revert m m'. induction l as [|b l IH]; simpl; intros m m' H; [assumption|].
  apply IH. now apply apply_bump_same.
Qed.

Lemma fold_bump_perm (l l' : list bump_rec) :
  Permutation l l' ->
  forall m m', same_cells m m' ->
    same_cells (fold_left apply_bump l m) (fold_left apply_bump l' m').
Proof.
  induction 1 as [|b l l' _ IH|b1 b2 l|l1 l2 l3 _ IH1 _ IH2]; simpl;
    intros m m' H.
  - assumption.
  - apply IH. now apply apply_bump_same.
  - apply fold_bump_same.
    apply (same_cells_trans _ (apply_bump (apply_bump m b1) b2));
      [apply apply_bump_swap|].
    now apply apply_bump_same, apply_bump_same.
  - apply (same_cells_trans _ (fold_left apply_bump l2 m)).
    + apply IH1, same_cells_refl.
    + now apply IH2.
Qed.

Lemma fold_record_matchup_bumps (deck : text) (per : dict Matchup) (m : matrix) :
  fold_left (record_matchup deck) per m =
  fold_left apply_bump (flat_map (bumps_of deck) per) m.
Proof.
  revert m. induction per as [|[opp stats] per IH]; simpl; intros m;
    [reflexivity|].
  now rewrite IH.
Qed.

Lemma operm_refl {A : Type} (o : option (list A)) : operm o o.
Proof. destruct o; simpl; auto. Qed.

Lemma operm_trans {A : Type} (o1 o2 o3 : option (list A)) :
  operm o1 o2 -> operm o2 o3 -> operm o1 o3.
Proof.
  destruct o1, o2, o3; simpl; try tauto. apply Permutation_trans.
Qed.

Lemma Permutation_concat_elems {A : Type} (l l' : list (list A)) :
  Permutation l l' -> Permutation (concat l) (concat l').
Proof.
  induction 1; simpl.
  - reflexivity.
  - now apply Permutation_app_head.
  - rewrite !app_assoc. apply Permutation_app_tail, Permutation_app_comm.
  - etransitivity; eassumption.
Qed.

(** [mapM] over a permuted list fails or succeeds alike. *)
Lemma mapM_perm {A B : Type} (f : A -> option B) (l l' : list A) :
  Permutation l l' -> operm (mapM f l) (mapM f l').
Proof.
  induction 1 as [|x l l' _ IH|x y l|l1 l2 l3 _ IH1 _ IH2]; simpl.
  - reflexivity.
  - destruct (f x); simpl; [|trivial].
    destruct (mapM f l), (mapM f l'); simpl in *; auto.
  - destruct (f x), (f y); simpl; trivial;
      destruct (mapM f l); simpl; trivial. apply perm_swap.
  - eapply operm_trans; eassumption.
Qed.

Lemma dict_set_absent {V : Type} (d : dict V) (k : text) (v : V) :
  dict_get d k = None -> dict_set d k v = d ++ [(k, v)].
Proof.
  unfold dict_set. induction d as [|[k' v'] d IH]; simpl; [reflexivity|].
  destruct (text_eqb k' k); [discriminate|]. intros H. now rewrite IH.
Qed.

Lemma dict_get_app_none {V : Type} (d d' : dict V) (k : text) :
  dict_get d k = None -> dict_get d' k = None -> dict_get (d ++ d') k = None.
Proof.
  induction d as [|[k' v'] d IH]; simpl; [auto|].
  destruct (text_eqb k' k); [discriminate | auto].
Qed.

Lemma matchup_fold_none (txt this : text) (l : list text) :
  fold_left (matchup_step txt this) l None = None.
Proof. induction l; simpl; auto. Qed.

(** The result of [extract_matchups_from_html] over distinct candidates: the
    entries of the candidates, in order. *)
Lemma matchup_fold_entries (txt this : text) (l : list text) :
  forall acc,
    NoDup l -> (forall k, In k l -> dict_get acc k = None) ->
    fold_left (matchup_step txt this) l (Some acc) =
    (ls <- mapM (matchup_entry txt this) l ;; Some (acc ++ concat ls)).
Proof.
  induction l as [|opp l IH]; intros acc Hnd Hacc.
  - simpl. now rewrite app_nil_r.
  - inversion Hnd as [|? ? Hnotin Hnd']; subst.
    cbn [fold_left mapM]. unfold matchup_step at 2, matchup_entry at 1.
    cbn [bind].
    destruct (text_eqb opp this).
    { rewrite IH; [|assumption|intros k Hk; apply Hacc; now right].
      cbn [bind]. destruct (mapM _ l); reflexivity. }
    destruct (search (matchup_pattern opp) txt) as [m|].
    2:{ rewrite IH; [|assumption|intros k Hk; apply Hacc; now right].
        cbn [bind]. destruct (mapM _ l); reflexivity. }
    destruct (matchup_of_match m) as [v|]; cbn [bind].
    2:{ apply matchup_fold_none. }
    rewrite (dict_set_absent acc opp v (Hacc opp (or_introl eq_refl))).
    rewrite IH; [|assumption|].
    + destruct (mapM _ l); cbn [bind]; [|reflexivity].
      cbn [concat]. now rewrite <- app_assoc.
    + intros k Hk. apply dict_get_app_none; [apply Hacc; now right|].
      simpl. destruct (text_eqb opp k) eqn:E; [|reflexivity].
      apply text_eqb_true in E. subst k. contradiction.
Qed.

Lemma extract_matchups_entries (txt this : text) (order : list text) :
  NoDup order ->
  extract_matchups_from_html txt this order =
  (ls <- mapM (matchup_entry txt this) order ;; Some (concat ls)).
Proof.
  intros Hnd. unfold extract_matchups_from_html.
  apply (matchup_fold_entries txt this order [] Hnd). reflexivity.
Qed.

Lemma extract_matchups_perm (txt this : text) (order order' : list text) :
  NoDup order -> Permutation order order' ->
  operm (extract_matchups_from_html txt this order)
        (extract_matchups_from_html txt this order').
Proof.
  intros Hnd Hp.
  rewrite (extract_matchups_entries _ _ _ Hnd).
  rewrite (extract_matchups_entries _ _ _ (Permutation_NoDup Hp Hnd)).
  pose proof (mapM_perm (matchup_entry txt this) _ _ Hp) as H.
  destruct (mapM _ order), (mapM _ order'); simpl in *; try tauto.
  now apply Permutation_concat_elems.
Qed.

Lemma Permutation_flat_map_both {A B : Type} (f g : A -> list B) (l l' : list A) :
  Permutation l l' -> (forall x, In x l -> Permutation (f x) (g x)) ->
  Permutation (flat_map f l) (flat_map g l').
Proof.
  intros Hp Hfg. transitivity (flat_map g l).
  - clear Hp. induction l as [|x l IH]; simpl; [reflexivity|].
    apply Permutation_app; [apply Hfg; now left|].
    apply IH. intros y Hy. apply Hfg. now right.
  - now apply Permutation_flat_map.
Qed.

(** The sets of the run have no duplicate. *)
Lemma set_add_nodup (s : strset) (x : text) : NoDup s -> NoDup (set_add s x).
Proof.
  intros H. unfold set_add. destruct (set_mem s x) eqn:E; [assumption|].
  apply NoDup_rev in H. rewrite <- (rev_involutive (s ++ [x])).
  apply NoDup_rev. rewrite rev_app_distr. simpl. constructor; [|assumption].
  rewrite <- in_rev. intros Hin. apply set_mem_in in Hin. congruence.
Qed.

Lemma fold_set_add_nodup (l : list text) (s : strset) :
  NoDup s -> NoDup (fold_left set_add l s).
Proof.
  revert s. induction l as [|x l IH]; simpl; intros s H; [assumption|].
  apply IH. now apply set_add_nodup.
Qed.

Lemma meta_decks_nodup (K : Z) (rows : list BaseRow) :
  NoDup (meta_decks_of K rows).
Proof. apply fold_set_add_nodup. constructor. Qed.

Lemma fold_overall_step_urls (urls : dict text) (l : list SummaryRecord)
    (st : dict Stats * dict strset) :
  dict_all (@NoDup text) (snd st) ->
  dict_all (@NoDup text) (snd (fold_left (overall_step urls) l st)).
Proof.
  revert st. induction l as [|r l IH]; simpl; intros st H; [assumption|].
  apply IH. unfold overall_step. simpl.
  destruct (dict_get urls (s_deck r)); [|assumption].
  apply dict_all_upd; [constructor | | assumption].
  intros v. apply set_add_nodup.
Qed.

Lemma deck_urls_nodup_from (ts : list TournamentData) (st : AggState) :
  dict_all (@NoDup text) (deck_urls_global st) ->
  dict_all (@NoDup text) (deck_urls_global (aggregate_from st ts)).
Proof.
  unfold aggregate_from. revert st.
  induction ts as [|t ts IH]; simpl; intros st H; [assumption|].
  apply IH. unfold agg_step. simpl. now apply fold_overall_step_urls.
Qed.

Lemma deck_urls_nodup (ts : list TournamentData) :
  dict_all (@NoDup text) (deck_urls_global (aggregate ts)).
Proof. apply deck_urls_nodup_from. constructor. Qed.

Section OrderFacts.

Variable fetch_page : text -> option text.

(** The matrix of a run is its updates applied one after the other. *)
Lemma url_step_bumps deck order st url :
  fst (url_step fetch_page deck order st url) =
  fold_left apply_bump (page_bumps fetch_page deck order url) (fst st).
Proof.
  unfold url_step, page_bumps. simpl.
  destruct (fetch_matchups_for_deck fetch_page url deck order);
    [apply fold_record_matchup_bumps | reflexivity].
Qed.

Lemma fold_url_step_bumps deck order urls st :
  fst (fold_left (url_step fetch_page deck order) urls st) =
  fold_left apply_bump (flat_map (page_bumps fetch_page deck order) urls)
            (fst st).
Proof.
  revert st. induction urls as [|u urls IH]; intros st; [reflexivity|].
  cbn [fold_left flat_map]. now rewrite IH, fold_left_app, url_step_bumps.
Qed.

Lemma fold_deck_step_bumps set_iter urls_global order decks st :
  fst (fold_left (deck_step fetch_page set_iter urls_global order) decks st) =
  fold_left apply_bump
    (flat_map (fun d => flat_map (page_bumps fetch_page d order)
                                 (urls_of set_iter urls_global d)) decks)
    (fst st).
Proof.
  revert st. induction decks as [|d decks IH]; intros st; [reflexivity|].
  cbn [fold_left flat_map]. rewrite IH, fold_left_app. f_equal.
  unfold deck_step. apply fold_url_step_bumps.
Qed.

Lemma matchups_run_bumps set_iter urls_global meta :
  fst (matchups_run fetch_page set_iter urls_global meta) =
  fold_left apply_bump (all_bumps fetch_page set_iter urls_global meta) [].
Proof. unfold matchups_run, all_bumps. apply fold_deck_step_bumps. Qed.

Lemma page_bumps_perm deck order order' url :
  NoDup order -> Permutation order order' ->
  Permutation (page_bumps fetch_page deck order url)
              (page_bumps fetch_page deck order' url).
Proof.
  intros Hnd Hp. unfold page_bumps, fetch_matchups_for_deck.
  destruct (fetch_page (matchups_url url)) as [page|]; simpl; [|reflexivity].
  pose proof (extract_matchups_perm page deck _ _ Hnd Hp) as H.
  destruct (extract_matchups_from_html page deck order),
           (extract_matchups_from_html page deck order'); simpl in H;
    try tauto; [now apply Permutation_flat_map | reflexivity].
Qed.

Lemma urls_of_perm (it1 it2 : strset -> list text)
    (urls_global : dict strset) d :
  iter_ok it1 -> iter_ok it2 -> dict_all (@NoDup text) urls_global ->
  Permutation (urls_of it1 urls_global d) (urls_of it2 urls_global d).
Proof.
  intros H1 H2 Hnd. unfold urls_of.
  destruct (@dict_get strset urls_global d) as [s|] eqn:E; [|reflexivity].
  pose proof (dict_all_get _ _ _ _ Hnd E) as Hs.
  transitivity s; [symmetry; now apply H1 | now apply H2].
Qed.

(** Two iteration orders make the same updates, in different orders. *)
Lemma all_bumps_perm (it1 it2 : strset -> list text) urls_global meta :
  iter_ok it1 -> iter_ok it2 ->
  NoDup meta -> dict_all (@NoDup text) urls_global ->
  Permutation (all_bumps fetch_page it1 urls_global meta)
              (all_bumps fetch_page it2 urls_global meta).
Proof.
  intros H1 H2 Hm Hu. unfold all_bumps.
  assert (P1 : Permutation meta (it1 meta)) by now apply H1.
  assert (P2 : Permutation meta (it2 meta)) by now apply H2.
  assert (P12 : Permutation (it1 meta) (it2 meta))
    by (transitivity meta; [now symmetry | assumption]).
  apply Permutation_flat_map_both; [assumption|]. intros d _.
  apply Permutation_flat_map_both; [now apply urls_of_perm|]. intros u _.
  apply page_bumps_perm; [|assumption].
  exact (Permutation_NoDup P1 Hm).
Qed.

Lemma matchups_run_same_cells (it1 it2 : strset -> list text) urls_global meta :
  iter_ok it1 -> iter_ok it2 ->
  NoDup meta -> dict_all (@NoDup text) urls_global ->
  same_cells (fst (matchups_run fetch_page it1 urls_global meta))
             (fst (matchups_run fetch_page it2 urls_global meta)).
Proof.
  intros H1 H2 Hm Hu. rewrite !matchups_run_bumps.
  apply fold_bump_perm; [now apply all_bumps_perm | apply same_cells_refl].
Qed.

End OrderFacts.

(** ** A run succeeds whatever the iteration order *)

Lemma dict_perm {V : Type} (d d' : dict V) :
  NoDup (dict_keys d) -> NoDup (dict_keys d') -> same_entries d d' ->
  Permutation d d'.
Proof.
  intros Hd Hd' Hs. apply NoDup_Permutation.
  - now apply (NoDup_map_inv fst).
  - now apply (NoDup_map_inv fst).
  - intros [k v]. split; intros Hin.
    + apply dict_get_in. rewrite <- Hs. now apply in_dict_get.
    + apply dict_get_in. rewrite Hs. now apply in_dict_get.
Qed.

Lemma cell_inner (m : matrix) (x y : text) :
  cell m x y = dict_get (inner_of m x) y.
Proof. unfold cell, inner_of. now destruct (dict_get m x). Qed.

Lemma apply_bump_inner_nodup (m : matrix) (b : bump_rec) :
  inner_nodup m -> inner_nodup (apply_bump m b).
Proof.
  destruct b as [[a o] [[w l] t]]. unfold inner_nodup, apply_bump, bump.
  intros H. apply dict_all_upd; [constructor | | assumption].
  intros v Hv. now apply dict_upd_nodup.
Qed.

Lemma fold_bump_inner_nodup (l : list bump_rec) (m : matrix) :
  inner_nodup m -> inner_nodup (fold_left apply_bump l m).
Proof.
  revert m. induction l as [|b l IH]; simpl; intros m H; [assumption|].
  apply IH. now apply apply_bump_inner_nodup.
Qed.

Lemma inner_of_nodup (m : matrix) (x : text) :
  inner_nodup m -> NoDup (dict_keys (inner_of m x)).
Proof.
  intros H. unfold inner_of. destruct (dict_get m x) as [i|] eqn:E.
  - exact (dict_all_get _ _ _ _ H E).
  - constructor.
Qed.

(** The opponents of a deck in two matrices with the same cells. *)
Lemma inner_perm (m m' : matrix) (x : text) :
  inner_nodup m -> inner_nodup m' -> same_cells m m' ->
  Permutation (inner_of m x) (inner_of m' x).
Proof.
  intros H H' Hs. apply dict_perm; try now apply inner_of_nodup.
  intros y. rewrite <- !cell_inner. apply Hs.
Qed.

Lemma matchup_term_defined mw (a : float) e :
  matchup_term mw (Some a) e <> None <-> term_defined mw e.
Proof.
  unfold term_defined, matchup_term. destruct e as [opp s]. cbn [bind].
  destruct (cell_wins s + cell_losses s + cell_ties s <=? 0);
    [split; discriminate|].
  destruct (win_pct _ _ _); cbn [bind]; split; try discriminate; tauto.
Qed.

Lemma matchup_fold_defined mw (l : list (text * Cell)) :
  forall a,
    (exists r, fold_left (matchup_term mw) l (Some a) = Some r) <->
    Forall (term_defined mw) l.
Proof.
  induction l as [|e l IH]; intros a; cbn [fold_left].
  - split; [constructor | eauto].
  - destruct (matchup_term mw (Some a) e) as [a'|] eqn:E.
    + rewrite IH. split.
      * intros H. constructor; [|assumption].
        apply (matchup_term_defined mw a). congruence.
      * intros H. now inversion H.
    + split.
      * intros (r & Hr).
        assert (Hn : forall l0, fold_left (matchup_term mw) l0 None = None)
          by (induction l0; simpl; auto).
        rewrite Hn in Hr. discriminate.
      * intros H. inversion H as [|? ? He _]; subst.
        apply (matchup_term_defined mw a) in He. congruence.
Qed.

Lemma score_row_defined beta mw (m m' : matrix) (r : BaseRow) :
  inner_nodup m -> inner_nodup m' -> same_cells m m' ->
  score_row beta mw m r <> None -> score_row beta mw m' r <> None.
Proof.
  intros H H' Hs. unfold score_row.
  fold (inner_of m (deck r)). fold (inner_of m' (deck r)).
  unfold matchup_score_of.
  destruct (fold_left _ (inner_of m (deck r)) _) as [ms|] eqn:E;
    [|intros Hn; now contradiction Hn].
  intros _.
  assert (Hd : Forall (term_defined mw) (inner_of m' (deck r))).
  { apply (Permutation_Forall (inner_perm m m' (deck r) H H' Hs)).
    apply (matchup_fold_defined mw _ f0_0). eauto. }
  apply (matchup_fold_defined mw _ f0_0) in Hd. destruct Hd as (ms' & ->).
  discriminate.
Qed.

Lemma mapM_defined {A B : Type} (f g : A -> option B) (l : list A) bs :
  (forall a, In a l -> f a <> None -> g a <> None) ->
  mapM f l = Some bs -> exists bs', mapM g l = Some bs'.
Proof.
  revert bs. induction l as [|a l IH]; simpl; intros bs Hfg H; [eauto|].
  inv_bind H. inv_bind H. 
  destruct (g a) as [b'|] eqn:Eg.
  - destruct (IH v0) as (bs' & ->); [auto | assumption |]. simpl. eauto.
  - exfalso. apply (Hfg a); [now left | congruence | assumption].
Qed.

(** ** Running twice *)

Lemma fold_left_ext {A B : Type} (f g : A -> B -> A) (l : list B) (a : A) :
  (forall x y, f x y = g x y) -> fold_left f l a = fold_left g l a.
Proof.
  intros H. revert a. induction l as [|b l IH]; simpl; intros a;
    [reflexivity|].
  now rewrite H, IH.
Qed.

Lemma mapM_score_row_rows beta mw m (l : list BaseRow) sc :
  mapM (score_row beta mw m) l = Some sc -> map row sc = l.
Proof.
  intros H. apply mapM_some in H.
  induction H as [|br r l sc Hr _ IH]; simpl; [reflexivity|].
  apply score_row_some in Hr. destruct Hr as (-> & _). now rewrite IH.
Qed.

Section Rerun.

Variable fetch_page : text -> option text.

Lemma matchups_run_ext (it1 it2 : strset -> list text) urls_global meta :
  (forall s, it1 s = it2 s) ->
  matchups_run fetch_page it1 urls_global meta =
  matchups_run fetch_page it2 urls_global meta.
Proof.
  intros H. unfold matchups_run. rewrite (H meta).
  apply fold_left_ext. intros st d. unfold deck_step.
  destruct (dict_get urls_global d); [now rewrite H | reflexivity].
Qed.

Lemma matchups_run_inner_nodup (it : strset -> list text) urls_global meta :
  inner_nodup (fst (matchups_run fetch_page it urls_global meta)).
Proof.
  rewrite matchups_run_bumps. apply fold_bump_inner_nodup. constructor.
Qed.

(** C9, as the code has it.  Two runs on the same input in which the sets
    are iterated in the same order return the same rows and matrix.  When
    the two runs iterate the sets in different orders, both return or both
    raise, they rank the same decks with the same players, win percentages
    and base scores, and their matrices have the same cells. *)
Theorem rerun_same_order (it1 it2 : strset -> list text) ts minp K beta :
  ((forall s, it1 s = it2 s) ->
   aggregate_tournaments_with_matchups fetch_page it1 ts minp K beta =
   aggregate_tournaments_with_matchups fetch_page it2 ts minp K beta) /\
  (iter_ok it1 -> iter_ok it2 ->
   forall rows1 m1,
     aggregate_tournaments_with_matchups fetch_page it1 ts minp K beta
     = Some (rows1, m1) ->
     exists rows2 m2,
       aggregate_tournaments_with_matchups fetch_page it2 ts minp K beta
       = Some (rows2, m2) /\
       Permutation (map row rows1) (map row rows2) /\
       same_cells m1 m2).
Proof.
  split.
  - intros H. unfold aggregate_tournaments_with_matchups, score_all.
    destruct (base_rows_of minp (aggregate ts)) as [brs|]; [|reflexivity].
    simpl. now rewrite (matchups_run_ext it1 it2 _ _ H).
  - intros Hit1 Hit2 rows1 m1 H1.
    destruct (aggregate_stages _ _ _ _ _ _ _ _ H1)
      as (brs & mw & sc1 & rq1 & Hb & Hmw & Hrun & Hs1 & _ & ->).
    set (meta := meta_decks_of K (sort_desc by_players brs)) in *.
    set (urls := deck_urls_global (aggregate ts)) in *.
    pose proof (matchups_run_same_cells fetch_page it1 it2 urls meta Hit1 Hit2
                  (meta_decks_nodup _ _) (deck_urls_nodup ts)) as Hcells.
    pose proof (matchups_run_inner_nodup it1 urls meta) as Hn1.
    pose proof (matchups_run_inner_nodup it2 urls meta) as Hn2.
    rewrite Hrun in Hcells, Hn1. simpl in Hcells, Hn1.
    set (m2 := fst (matchups_run fetch_page it2 urls meta)) in *.
    destruct (mapM_defined (score_row beta mw m1) (score_row beta mw m2)
                (sort_desc by_players brs) sc1) as (sc2 & Hs2);
      [|assumption|].
    { intros r _. now apply score_row_defined. }
    exists (sort_by_final_score sc2), m2. split; [|split].
    + unfold aggregate_tournaments_with_matchups, score_all.
      rewrite Hb. cbn [bind]. fold meta. rewrite Hmw. cbn [bind].
      fold urls. fold m2. rewrite Hs2. reflexivity.
    + apply mapM_score_row_rows in Hs1, Hs2.
      rewrite (Permutation_map row (sort_by_final_score_perm sc1)).
      rewrite (Permutation_map row (sort_by_final_score_perm sc2)).
      now rewrite Hs1, Hs2.
    + assumption.
Qed.

End Rerun.

Lemma rerun_same_order_witness :
  (iter_ok iter_forward /\ iter_ok iter_backward /\
   aggregate_tournaments_with_matchups order_fetch iter_forward
     order_ts 20 20 f0_5 = Some (order_rows_forward, order_matrix_forward)) /\
  exists rows2 m2,
    aggregate_tournaments_with_matchups order_fetch iter_backward
      order_ts 20 20 f0_5 = Some (rows2, m2) /\
    Permutation (map row order_rows_forward) (map row rows2) /\
    same_cells order_matrix_forward m2.
Proof.
  assert (H1 : iter_ok iter_forward) by (intros s _; reflexivity).
  assert (H2 : iter_ok iter_backward)
    by (intros s _; apply Permutation_rev).
  assert (H : aggregate_tournaments_with_matchups order_fetch iter_forward
                order_ts 20 20 f0_5
              = Some (order_rows_forward, order_matrix_forward))
    by (vm_compute; reflexivity).
  split; [auto|].
  exact (proj2 (rerun_same_order order_fetch iter_forward iter_backward
                  order_ts 20 20 f0_5) H1 H2 _ _ H).
Defined.

(** The same input, run with the sets iterated forward and backward: the
    matchup score of the first deck is the sum of the same three terms in two
    orders, and the two sums differ in their last bit. *)
Lemma iteration_order_changes_scores :
  (exists m,
     aggregate_tournaments_with_matchups order_fetch iter_forward
       order_ts 20 20 f0_5 = Some (order_rows_forward, m)) /\
  (exists m,
     aggregate_tournaments_with_matchups order_fetch iter_backward
       order_ts 20 20 f0_5 = Some (order_rows_backward, m)) /\
  map (fun r => deck (row r)) order_rows_forward
  = map (fun r => deck (row r)) order_rows_backward /\
  map matchup_score order_rows_forward
  <> map matchup_score order_rows_backward /\
  order_rows_forward <> order_rows_backward.
Proof.
  split; [eexists; vm_compute; reflexivity|].
  split; [eexists; vm_compute; reflexivity|].
  split; [vm_compute; reflexivity|].
  split; [vm_compute; discriminate|].
  vm_compute. discriminate.
Qed.

(** * Further properties of the code *)

(** ** What the groups of a match hold *)

Ltac inv_seq :=
  repeat match goal with
    | H : matches (Seq _ _) _ _ _ |- _ => inversion H; clear H; subst
    end.

Lemma digits_group (u : text) (caps caps' : captures) :
  matches (Group (Plus is_digit)) u caps caps' ->
  caps' = caps ++ [u] /\ is_digits u = true.
Proof.
  intros H. inversion H as [| | | | | | |? ? ? ? Hp|]; subst.
  inversion Hp; subst. split; [reflexivity | assumption].
Qed.

Lemma is_digits_app (a b : text) :
  is_digits a = true -> forallb is_digit b = true -> is_digits (a ++ b) = true.
Proof.
  destruct a as [|c a]; [discriminate|]. unfold is_digits. simpl app.
  intros Ha Hb. change (c :: a ++ b) with ((c :: a) ++ b).
  rewrite forallb_app. now rewrite Ha, Hb.
Qed.

Lemma percent_group_numeral (u : text) (caps caps' : captures) :
  matches percent_group u caps caps' ->
  caps' = caps ++ [u] /\
  exists n, valid_numeral n = true /\ numeral_text n = u.
Proof.
  unfold percent_group. intros H.
  inversion H as [| | | | | | |? ? ? ? Hs|]; subst.
  inversion Hs as [| | | | | | | |? ? u1 u' ? ? ? H1 Hs']; subst.
  inversion Hs' as [| | | | | | | |? ? u2 u3 ? ? ? H2 H3]; subst.
  assert (E1 : is_digits u1 = true /\ caps1 = caps)
    by (inversion H1; subst; split; [assumption | reflexivity]).
  assert (E3 : forallb is_digit u3 = true /\ caps'0 = caps2)
    by (inversion H3; subst; split; [assumption | reflexivity]).
  destruct E1 as [E1 ->], E3 as [E3 ->].
  inversion H2; subst; (split; [reflexivity|]).
  - exists {| n_int := u1; n_sep := Some c; n_frac := u3 |}.
    unfold valid_numeral, numeral_text. simpl.
    split; [|reflexivity].
    match goal with Hc : is_sep _ = true |- _ => now rewrite E1, Hc, E3 end.
  - exists {| n_int := u1 ++ u3; n_sep := None; n_frac := [] |}.
    unfold valid_numeral, numeral_text. simpl.
    split; [|reflexivity]. now rewrite (is_digits_app _ _ E1 E3).
Qed.

Lemma name_group (u : text) (caps caps' : captures) :
  matches (Group (Cls is_upper_or_digit @@ LazyPlus not_percent)%re)
    u caps caps' ->
  caps' = caps ++ [u] /\
  exists c rest,
    u = c :: rest /\ is_upper_or_digit c = true /\
    forallb not_percent rest = true.
Proof.
  intros H. inversion H as [| | | | | | |? ? ? ? Hs|]; subst.
  inversion Hs as [| | | | | | | |? ? u1 u2 ? ? ? H1 H2]; subst.
  inversion H1; subst. inversion H2; subst.
  split; [reflexivity|]. eexists _, _. split; [reflexivity|]. now split.
Qed.

(** The three groups of the record, [W - L - T] *)
Lemma wlt_match (u : text) (caps caps' : captures) :
  matches wlt_groups u caps caps' ->
  exists w l t,
    caps' = caps ++ [w; l; t] /\
    is_digits w = true /\ is_digits l = true /\ is_digits t = true.
Proof.
  unfold wlt_groups. intros H. inv_seq.
  repeat match goal with
    | H : matches (Group (Plus is_digit)) _ _ _ |- _ =>
        apply digits_group in H; destruct H as (? & ?); subst
    | H : matches (Star _) _ _ _ |- _ => inversion H; clear H; subst
    | H : matches (Cls _) _ _ _ |- _ => inversion H; clear H; subst
    end.
  eexists _, _, _. rewrite <- !app_assoc. simpl. repeat split; eassumption.
Qed.

Ltac inv_blanks :=
  repeat match goal with
    | H : matches (Plus is_space) _ _ _ |- _ => inversion H; clear H; subst
    | H : matches (Cls _) _ _ _ |- _ => inversion H; clear H; subst
    end.

Lemma summary_match_groups (u : text) (caps : captures) :
  matches summary_pattern u [] caps ->
  exists p c d s w l t r,
    caps = [p; c :: d; numeral_text s; w; l; t; numeral_text r] /\
    is_digits p = true /\
    is_upper_or_digit c = true /\ forallb not_percent d = true /\
    valid_numeral s = true /\
    is_digits w = true /\ is_digits l = true /\ is_digits t = true /\
    valid_numeral r = true.
Proof.
  unfold summary_pattern. intros H. inv_seq. inv_blanks.
  repeat match goal with
    | H : matches (Group (Plus is_digit)) _ _ _ |- _ =>
        apply digits_group in H; destruct H as (? & ?); subst
    | H : matches (Group (Cls _ @@ _)%re) _ _ _ |- _ =>
        apply name_group in H; destruct H as (? & ? & ? & ? & ? & ?); subst
    | H : matches wlt_groups _ _ _ |- _ =>
        apply wlt_match in H; destruct H as (? & ? & ? & ? & ? & ? & ?); subst
    | H : matches percent_group _ _ _ |- _ =>
        apply percent_group_numeral in H;
        destruct H as (? & ? & ? & ?); subst
    end.
  eexists _, _, _, _, _, _, _, _. simpl.
  repeat split; eassumption.
Qed.

Lemma conversion_match_groups (u : text) (caps : captures) :
  matches conversion_pattern u [] caps ->
  exists c d day1 day2 n,
    caps = [c :: d; day1; day2; numeral_text n] /\
    is_upper_or_digit c = true /\ forallb not_percent d = true /\
    is_digits day1 = true /\ is_digits day2 = true /\
    valid_numeral n = true.
Proof.
  unfold conversion_pattern. intros H. inv_seq. inv_blanks.
  repeat match goal with
    | H : matches (Group (Plus is_digit)) _ _ _ |- _ =>
        apply digits_group in H; destruct H as (? & ?); subst
    | H : matches (Group (Cls _ @@ _)%re) _ _ _ |- _ =>
        apply name_group in H; destruct H as (? & ? & ? & ? & ? & ?); subst
    | H : matches percent_group _ _ _ |- _ =>
        apply percent_group_numeral in H;
        destruct H as (? & ? & ? & ?); subst
    end.
  eexists _, _, _, _, _. simpl.
  repeat split; eassumption.
Qed.

Lemma matchup_match_groups (opp u : text) (caps : captures) :
  matches (matchup_pattern opp) u [] caps ->
  exists n w l t r,
    caps = [n; w; l; t; numeral_text r] /\
    is_digits n = true /\
    is_digits w = true /\ is_digits l = true /\ is_digits t = true /\
    valid_numeral r = true.
Proof.
  unfold matchup_pattern. intros H. inv_seq. inv_blanks.
  repeat match goal with
    | H : matches (Group (Plus is_digit)) _ _ _ |- _ =>
        apply digits_group in H; destruct H as (? & ?); subst
    | H : matches (Lit _ _) _ _ _ |- _ => inversion H; clear H; subst
    | H : matches wlt_groups _ _ _ |- _ =>
        apply wlt_match in H; destruct H as (? & ? & ? & ? & ? & ? & ?); subst
    | H : matches percent_group _ _ _ |- _ =>
        apply percent_group_numeral in H;
        destruct H as (? & ? & ? & ?); subst
    end.
  eexists _, _, _, _, _. simpl.
  repeat split; eassumption.
Qed.

(** ** The groups of a match are parts of the text *)

Lemma matches_groups_length (r : regex) (u : text) (caps caps' : captures) :
  matches r u caps caps' ->
  exists new,
    caps' = caps ++ new /\
    Forall (fun g => (List.length g <= List.length u)%nat) new.
Proof.
  induction 1 as [| | | | | | |r u caps caps' _ IH
                  |r1 r2 u1 u2 caps caps1 caps2 _ IH1 _ IH2];
    try (exists []; split; [now rewrite app_nil_r | constructor]).
  - destruct IH as (new & -> & Hf). exists (new ++ [u]).
    split; [now rewrite app_assoc|].
    apply Forall_app. split; [assumption|]. repeat constructor.
  - destruct IH1 as (n1 & -> & H1), IH2 as (n2 & -> & H2).
    exists (n1 ++ n2). split; [now rewrite app_assoc|].
    apply Forall_app. split.
    + eapply Forall_impl; [|exact H1]. cbv beta. intros g Hg.
      rewrite length_app. lia.
    + eapply Forall_impl; [|exact H2]. cbv beta. intros g Hg.
      rewrite length_app. lia.
Qed.

Lemma finditer_from_within (r : regex) (s : text) (n : nat)
    (caps : captures) :
  In caps (finditer_from r n s) ->
  exists u, matches r u [] caps /\
    Forall (fun g => (List.length g <= List.length s)%nat) caps.
Proof.
  revert n. induction s as [|c s IH]; simpl; intros n H; [contradiction|].
  assert (Hstep : forall k, In caps (finditer_from r k s) ->
            exists u, matches r u [] caps /\
              Forall (fun g => (List.length g <= S (List.length s))%nat)
                     caps).
  { intros k Hk. destruct (IH k Hk) as (u & Hu & Hf). exists u.
    split; [assumption|]. eapply Forall_impl; [|exact Hf].
    cbv beta. intros g Hg. lia. }
  destruct n as [|n]; [|eauto].
  destruct (match_here r (c :: s)) as [[caps' rest]|] eqn:E; [|eauto].
  destruct H as [<- | H]; [|eauto].
  apply match_here_sound in E. destruct E as (u & Hs & Hm).
  exists u. split; [assumption|].
  destruct (matches_groups_length _ _ _ _ Hm) as (new & -> & Hf).
  simpl. eapply Forall_impl; [|exact Hf]. cbv beta. intros g Hg.
  change (S (List.length s)) with (List.length (c :: s)).
  rewrite Hs, length_app. lia.
Qed.

Lemma search_within (r : regex) (s : text) (caps : captures) :
  search r s = Some caps ->
  exists u, matches r u [] caps /\
    Forall (fun g => (List.length g <= List.length s)%nat) caps.
Proof.
  assert (Hhere : forall s' rest,
            match_here r s' = Some (caps, rest) ->
            exists u, matches r u [] caps /\
              Forall (fun g => (List.length g <= List.length s')%nat) caps).
  { intros s' rest E. apply match_here_sound in E.
    destruct E as (u & Hs & Hm). exists u. split; [assumption|].
    destruct (matches_groups_length _ _ _ _ Hm) as (new & -> & Hf).
    simpl. eapply Forall_impl; [|exact Hf]. cbv beta. intros g Hg.
    rewrite Hs, length_app. lia. }
  induction s as [|c s IH]; simpl.
  - destruct (match_here r []) as [[caps' rest]|] eqn:E; [|discriminate].
    intros [= <-]. exact (Hhere _ _ E).
  - destruct (match_here r (c :: s)) as [[caps' rest]|] eqn:E.
    + intros [= <-]. exact (Hhere _ _ E).
    + intros H. destruct (IH H) as (u & Hu & Hf). exists u.
      split; [assumption|]. eapply Forall_impl; [|exact Hf].
      cbv beta. intros g Hg. lia.
Qed.

(** ** Stripping twice *)

Lemma lstrip_head (s : text) : stops is_space (lstrip s).
Proof.
  induction s as [|c s IH]; simpl; [trivial|].
  destruct (is_space c) eqn:E; [exact IH | exact E].
Qed.

Lemma forallb_lstrip (p : ascii -> bool) (s : text) :
  forallb p s = true -> forallb p (lstrip s) = true.
Proof.
  induction s as [|c s IH]; simpl; [trivial|]. intros H.
  apply andb_true_iff in H. destruct H as [Hc Hs].
  destruct (is_space c); [auto|]. simpl. now rewrite Hc, Hs.
Qed.

Lemma forallb_strip (p : ascii -> bool) (s : text) :
  forallb p s = true -> forallb p (strip s) = true.
Proof.
  intros H. unfold strip, rstrip.
  now apply forallb_rev, forallb_lstrip, forallb_rev, forallb_lstrip.
Qed.

Lemma strip_head (s : text) : stops is_space (strip s).
Proof.
  pose proof (lstrip_head s) as H. unfold strip.
  destruct (lstrip s) as [|c t] eqn:E; [exact I|]. simpl in H.
  destruct (strip_keeps_head c t H) as (t' & Ht).
  unfold strip in Ht. simpl lstrip in Ht. rewrite H in Ht.
  rewrite Ht. exact H.
Qed.

Lemma strip_last (s : text) : stops is_space (rev (strip s)).
Proof.
  unfold strip, rstrip. rewrite rev_involutive. apply lstrip_head.
Qed.

Lemma strip_idem (s : text) : strip (strip s) = strip s.
Proof. apply strip_id; [apply strip_head | apply strip_last]. Qed.

(** ** The conversions of the groups succeed *)

Lemma numeral_value_sign (n : Numeral) :
  valid_numeral n = true -> not_negative (numeral_value n) = true.
Proof.
  intros H. unfold numeral_value, decimal_value.
  apply fdiv_sign; apply exact_int_sign.
  - apply digits_val_nonneg.
    unfold valid_numeral in H. apply andb_true_iff in H.
    destruct H as [Hi Hr]. apply is_digits_inv in Hi.
    destruct Hi as [_ Hi]. rewrite forallb_app, Hi.
    destruct (n_sep n).
    + apply andb_true_iff in Hr. now destruct Hr as [_ ->].
    + now destruct (n_frac n).
  - apply Z.pow_nonneg. lia.
Qed.

Lemma py_int_value (s : text) (z : Z) :
  py_int s = Some z -> z = digits_val s.
Proof.
  unfold py_int. destruct s as [|c s]; [discriminate|].
  destruct (_ && _); [|discriminate]. now intros [= <-].
Qed.

(** What the records of a match hold, when the conversions succeed *)
Lemma summary_of_match_props (u : text) (caps : captures) (r : SummaryRecord) :
  matches summary_pattern u [] caps ->
  summary_of_match caps = Some r ->
  forallb not_percent (s_deck r) = true /\
  strip (s_deck r) = s_deck r /\
  not_negative (s_share r) = true /\
  not_negative (s_win_pct r) = true.
Proof.
  intros H Hr. apply summary_match_groups in H.
  destruct H as (p & c & d & s & w & l & t & q & -> & Hp & Hc & Hd & Hs
                 & Hw & Hl & Ht & Hq).
  unfold summary_of_match, group in Hr. simpl nth in Hr.
  rewrite (proj1 (parse_percentage_numeral s Hs)) in Hr.
  rewrite (proj1 (parse_percentage_numeral q Hq)) in Hr.
  do 6 inv_bind Hr. injection Hr as <-.
  repeat match goal with
    | E : Some _ = Some _ |- _ => injection E as <-
    end.
  simpl. repeat split.
  - apply forallb_strip. simpl.
    rewrite Hd, andb_true_r. revert Hc. clear. ascii_cases c.
  - apply strip_idem.
  - now apply numeral_value_sign.
  - now apply numeral_value_sign.
Qed.

Lemma summary_of_match_defined (u : text) (caps : captures) :
  matches summary_pattern u [] caps ->
  Forall (fun g => (List.length g <= int_max_str_digits)%nat) caps ->
  exists r, summary_of_match caps = Some r.
Proof.
  intros H Hlen. apply summary_match_groups in H.
  destruct H as (p & c & d & s & w & l & t & q & -> & Hp & Hc & Hd & Hs
                 & Hw & Hl & Ht & Hq).
  rewrite !Forall_cons_iff in Hlen.
  destruct Hlen as (Lp & _ & _ & Lw & Ll & Lt & _).
  unfold summary_of_match, group. simpl nth.
  rewrite (py_int_digits p Hp Lp), (py_int_digits w Hw Lw),
    (py_int_digits l Hl Ll), (py_int_digits t Ht Lt).
  rewrite (proj1 (parse_percentage_numeral s Hs)).
  rewrite (proj1 (parse_percentage_numeral q Hq)).
  eexists. reflexivity.
Qed.

Lemma conversion_of_match_props (u : text) (caps : captures)
    (r : ConversionRecord) :
  matches conversion_pattern u [] caps ->
  conversion_of_match caps = Some (Some r) ->
  forallb not_percent (c_deck r) = true /\
  strip (c_deck r) = c_deck r /\
  not_negative (c_conv_pct r) = true.
Proof.
  intros H Hr. apply conversion_match_groups in H.
  destruct H as (c & d & d1 & d2 & n & -> & Hc & Hd & H1 & H2 & Hn).
  unfold conversion_of_match, group in Hr. simpl nth in Hr.
  rewrite (proj1 (parse_percentage_numeral n Hn)) in Hr.
  destruct (py_int d1), (py_int d2); try discriminate.
  simpl in Hr. injection Hr as <-. simpl.
  repeat split.
  - apply forallb_strip. simpl.
    rewrite Hd, andb_true_r. revert Hc. clear. ascii_cases c.
  - apply strip_idem.
  - now apply numeral_value_sign.
Qed.

(** No exception escapes a match of the conversion pattern; the row is kept
    when its two counts are within the bound of [int]. *)
Lemma conversion_of_match_defined (u : text) (caps : captures) :
  matches conversion_pattern u [] caps ->
  (exists x, conversion_of_match caps = Some x) /\
  (Forall (fun g => (List.length g <= int_max_str_digits)%nat) caps ->
   exists r, conversion_of_match caps = Some (Some r)).
Proof.
  intros H. apply conversion_match_groups in H.
  destruct H as (c & d & d1 & d2 & n & -> & Hc & Hd & H1 & H2 & Hn).
  unfold conversion_of_match, group. simpl nth.
  rewrite (proj1 (parse_percentage_numeral n Hn)). split.
  - destruct (py_int d1), (py_int d2); simpl; eauto.
  - intros Hlen. rewrite !Forall_cons_iff in Hlen.
    destruct Hlen as (_ & L1 & L2 & _).
    rewrite (py_int_digits d1 H1 L1), (py_int_digits d2 H2 L2).
    simpl. eauto.
Qed.

Lemma matchup_of_match_props (opp u : text) (caps : captures) (v : Matchup) :
  matches (matchup_pattern opp) u [] caps ->
  matchup_of_match caps = Some v ->
  0 <= m_wins v /\ 0 <= m_losses v /\ 0 <= m_ties v /\
  not_negative (m_win_pct v) = true.
Proof.
  intros H Hv. apply matchup_match_groups in H.
  destruct H as (n & w & l & t & r & -> & Hn & Hw & Hl & Ht & Hr).
  unfold matchup_of_match, group in Hv. simpl nth in Hv.
  rewrite (proj1 (parse_percentage_numeral r Hr)) in Hv.
  do 4 inv_bind Hv. injection Hv as <-.
  repeat match goal with
    | E : Some _ = Some _ |- _ => injection E as <-
    end.
  simpl. repeat split; try (eapply py_int_nonneg; eassumption).
  now apply numeral_value_sign.
Qed.

Lemma matchup_of_match_defined (opp u : text) (caps : captures) :
  matches (matchup_pattern opp) u [] caps ->
  Forall (fun g => (List.length g <= int_max_str_digits)%nat) caps ->
  exists v, matchup_of_match caps = Some v.
Proof.
  intros H Hlen. apply matchup_match_groups in H.
  destruct H as (n & w & l & t & r & -> & Hn & Hw & Hl & Ht & Hr).
  rewrite !Forall_cons_iff in Hlen.
  destruct Hlen as (_ & Lw & Ll & Lt & _).
  unfold matchup_of_match, group. simpl nth.
  rewrite (py_int_digits w Hw Lw), (py_int_digits l Hl Ll),
    (py_int_digits t Ht Lt).
  rewrite (proj1 (parse_percentage_numeral r Hr)).
  eexists. reflexivity.
Qed.

Lemma Forall_length_le (n m : nat) (caps : captures) :
  (n <= m)%nat ->
  Forall (fun g => (List.length g <= n)%nat) caps ->
  Forall (fun g => (List.length g <= m)%nat) caps.
Proof.
  intros Hnm H. eapply Forall_impl; [|exact H]. cbv beta. intros g Hg. lia.
Qed.

Lemma mapM_defined_all {A B : Type} (f : A -> option B) (l : list A) :
  (forall a, In a l -> exists b, f a = Some b) ->
  exists bs, mapM f l = Some bs.
Proof.
  induction l as [|a l IH]; intros H; simpl; [eauto|].
  destruct (H a (or_introl eq_refl)) as (b & ->).
  destruct IH as (bs & ->); [intros; apply H; now right|].
  simpl. eauto.
Qed.

Lemma Forall2_length_eq {A B : Type} (P : A -> B -> Prop) l l' :
  Forall2 P l l' -> List.length l = List.length l'.
Proof. induction 1; simpl; congruence. Qed.

Lemma keep_some_all {A : Type} (l : list (option A)) :
  (forall x, In x l -> x <> None) ->
  List.length (keep_some l) = List.length l.
Proof.
  induction l as [|[a|] l IH]; intros H; simpl.
  - reflexivity.
  - f_equal. apply IH. intros; apply H; now right.
  - exfalso. now apply (H None (or_introl eq_refl)).
Qed.

(** ** The extractors return *)

(** X1.  On a page text of at most 4300 characters (no run of digits then
    reaches the bound of the interpreter on [int]), [extract_overall_or_day]
    and [extract_conversion] raise nothing, and each returns one record per
    match of its pattern: the groups always convert, and the
    [except ValueError] of line 105 drops no row. *)
Theorem extractors_return (txt : text) :
  (List.length txt <= int_max_str_digits)%nat ->
  (exists recs,
     extract_overall_or_day txt = Some recs /\
     List.length recs = List.length (finditer summary_pattern txt)) /\
  (exists recs,
     extract_conversion txt = Some recs /\
     List.length recs = List.length (finditer conversion_pattern txt)).
Proof.
  intros Hlen. split.
  - unfold extract_overall_or_day.
    destruct (mapM_defined_all summary_of_match
                (finditer summary_pattern txt)) as (recs & H).
    + intros caps Hc.
      destruct (finditer_from_within _ _ _ _ Hc) as (u & Hu & Hf).
      exact (summary_of_match_defined u caps Hu
               (Forall_length_le _ _ _ Hlen Hf)).
    + exists recs. split; [assumption|].
      apply mapM_some in H. symmetry.
      exact (Forall2_length_eq _ _ _ H).
  - unfold extract_conversion.
    destruct (mapM_defined_all conversion_of_match
                (finditer conversion_pattern txt)) as (rows & H).
    + intros caps Hc.
      destruct (finditer_from_sound _ _ _ _ Hc) as (u & Hu).
      exact (proj1 (conversion_of_match_defined u caps Hu)).
    + rewrite H. simpl. eexists. split; [reflexivity|].
      apply mapM_some in H.
      rewrite (Forall2_length_eq _ _ _ H).
      apply keep_some_all. intros x Hx ->.
      destruct (Forall2_in_r _ _ _ _ H Hx) as (caps & Hc & Hm).
      destruct (finditer_from_within _ _ _ _ Hc) as (u & Hu & Hf).
      destruct (proj2 (conversion_of_match_defined u caps Hu)
                  (Forall_length_le _ _ _ Hlen Hf)) as (r & Hr).
      congruence.
Qed.

Lemma extractors_return_witness :
  (List.length (main_text sample_pages1) <= int_max_str_digits)%nat /\
  (exists recs,
     extract_overall_or_day (main_text sample_pages1) = Some recs /\
     List.length recs =
     List.length (finditer summary_pattern (main_text sample_pages1))).
Proof.
  assert (H : (List.length (main_text sample_pages1)
               <= int_max_str_digits)%nat)
    by (apply Nat.leb_le; vm_compute; reflexivity).
  split; [exact H|].
  exact (proj1 (extractors_return (main_text sample_pages1) H)).
Defined.

(** X2.  Every record the extractors produce is well formed: its deck name
    holds no percent sign and no blank at either end, its counts are natural
    numbers, and its percentages carry no minus sign. *)
Theorem extracted_records_well_formed (txt : text) :
  (forall recs r,
     extract_overall_or_day txt = Some recs -> In r recs ->
     forallb not_percent (s_deck r) = true /\
     strip (s_deck r) = s_deck r /\
     summary_nonneg r = true /\
     not_negative (s_share r) = true /\
     not_negative (s_win_pct r) = true) /\
  (forall recs r,
     extract_conversion txt = Some recs -> In r recs ->
     forallb not_percent (c_deck r) = true /\
     strip (c_deck r) = c_deck r /\
     conversion_nonneg r = true /\
     not_negative (c_conv_pct r) = true).
Proof.
  split; intros recs r H Hr.
  - unfold extract_overall_or_day in H. apply mapM_some in H.
    destruct (Forall2_in_r _ _ _ _ H Hr) as (caps & Hcaps & Hm).
    destruct (finditer_from_sound _ _ _ _ Hcaps) as (u & Hu).
    destruct (summary_of_match_props u caps r Hu Hm)
      as (Hp & Hs & Hsh & Hw).
    repeat split; try assumption.
    exact (summary_of_match_nonneg caps r Hm).
  - unfold extract_conversion in H. inv_bind H. injection H as <-.
    apply in_keep_some in Hr. apply mapM_some in E.
    destruct (Forall2_in_r _ _ _ _ E Hr) as (caps & Hcaps & Hm).
    destruct (finditer_from_sound _ _ _ _ Hcaps) as (u & Hu).
    destruct (conversion_of_match_props u caps r Hu Hm)
      as (Hp & Hs & Hc).
    repeat split; try assumption.
    exact (conversion_of_match_nonneg caps r Hm).
Qed.

Lemma extracted_records_well_formed_witness :
  exists r,
    In r (overall (nth 0 sample_ts
                     (Build_TournamentData [] [] [] []))) /\
    s_deck r = str "Gholdengo Lunatone" /\
    strip (s_deck r) = s_deck r /\
    summary_nonneg r = true.
Proof.
  eexists. split; [left; reflexivity|]. split; [reflexivity|].
  destruct (proj1 (extracted_records_well_formed (main_text sample_pages1))
              _ _ eq_refl (or_introl eq_refl)) as (_ & Hs & Hn & _).
  split; [exact Hs | exact Hn].
Defined.

(** ** Pages without a percent sign *)

Lemma percent_not_percent (c : ascii) :
  is_char "%" c = true -> not_percent c = false.
Proof. ascii_cases c. Qed.

Ltac find_percent :=
  inv_seq;
  repeat match goal with
    | H : matches (Cls (is_char "%")) _ _ _ |- _ =>
        inversion H; clear H; subst
    end;
  rewrite !forallb_app; simpl;
  repeat match goal with
    | H : is_char "%" _ = true |- _ =>
        rewrite (percent_not_percent _ H); clear H
    end;
  repeat (rewrite andb_false_r || simpl); reflexivity.

Lemma summary_match_percent (u : text) (caps : captures) :
  matches summary_pattern u [] caps -> forallb not_percent u = false.
Proof. unfold summary_pattern. intros H. find_percent. Qed.

Lemma conversion_match_percent (u : text) (caps : captures) :
  matches conversion_pattern u [] caps -> forallb not_percent u = false.
Proof. unfold conversion_pattern. intros H. find_percent. Qed.

Lemma matchup_match_percent (opp u : text) (caps : captures) :
  matches (matchup_pattern opp) u [] caps -> forallb not_percent u = false.
Proof. unfold matchup_pattern. intros H. find_percent. Qed.

(** A pattern whose matches all hold a character outside [p] has no match
    in a text of characters of [p]. *)
Section Needs.

Variable p : ascii -> bool.
Variable r : regex.

Hypothesis match_needs :
  forall u caps, matches r u [] caps -> forallb p u = false.

Lemma needs_match_here (s : text) :
  forallb p s = true -> match_here r s = None.
Proof.
  intros H. destruct (match_here r s) as [[caps rest]|] eqn:E; [|reflexivity].
  apply match_here_sound in E. destruct E as (u & -> & Hm).
  rewrite forallb_app, (match_needs u caps Hm) in H. discriminate.
Qed.

Lemma needs_finditer (s : text) (n : nat) :
  forallb p s = true -> finditer_from r n s = [].
Proof.
  revert n. induction s as [|c s IH]; intros n H; [reflexivity|].
  assert (Hs : forallb p s = true)
    by (simpl in H; apply andb_true_iff in H; tauto).
  destruct n as [|n].
  - rewrite finditer_from_cons, (needs_match_here _ H). now apply IH.
  - change (finditer_from r (S n) (c :: s)) with (finditer_from r n s).
    now apply IH.
Qed.

Lemma needs_search (s : text) :
  forallb p s = true -> search r s = None.
Proof.
  induction s as [|c s IH]; intros H.
  - cbn [search]. now rewrite (needs_match_here _ H).
  - cbn [search]. rewrite (needs_match_here _ H). apply IH.
    simpl in H. apply andb_true_iff in H. tauto.
Qed.

End Needs.

(** X3.  A page text without a percent sign, the empty text included,
    yields no record and no matchup, and raises nothing. *)
Theorem no_percent_no_record (txt : text) :
  forallb not_percent txt = true ->
  extract_overall_or_day txt = Some [] /\
  extract_conversion txt = Some [] /\
  forall this_deck meta_decks,
    extract_matchups_from_html txt this_deck meta_decks = Some [].
Proof.
  intros H. repeat split.
  - unfold extract_overall_or_day, finditer.
    now rewrite (needs_finditer not_percent _ summary_match_percent).
  - unfold extract_conversion, finditer.
    now rewrite (needs_finditer not_percent _ conversion_match_percent).
  - intros this_deck meta_decks. unfold extract_matchups_from_html.
    induction meta_decks as [|opp l IH]; [reflexivity|].
    cbn [fold_left]. unfold matchup_step at 2. cbn [bind].
    rewrite (needs_search not_percent _ (matchup_match_percent opp) _ H).
    destruct (text_eqb opp this_deck); exact IH.
Qed.

Lemma no_percent_no_record_witness :
  forallb not_percent (str "Standings of 12 decks") = true /\
  extract_overall_or_day (str "Standings of 12 decks") = Some [].
Proof.
  split; [reflexivity|].
  exact (proj1 (no_percent_no_record (str "Standings of 12 decks") eq_refl)).
Defined.

(** ** The matchups of a page *)

(** What a result holds, when the loop returns one *)
Lemma matchup_fold_safe (html this : text) (l : list text) :
  forall acc res,
    NoDup (dict_keys acc) ->
    (forall k v, dict_get acc k = Some v ->
                 0 <= m_wins v /\ 0 <= m_losses v /\ 0 <= m_ties v) ->
    fold_left (matchup_step html this) l (Some acc) = Some res ->
    NoDup (dict_keys res) /\
    (forall k, In k (dict_keys res) <->
               In k (dict_keys acc) \/
               (In k l /\ k <> this /\
                search (matchup_pattern k) html <> None)) /\
    (forall k v, dict_get res k = Some v ->
                 0 <= m_wins v /\ 0 <= m_losses v /\ 0 <= m_ties v).
Proof.
  induction l as [|opp l IH]; intros acc res Hnd Hv.
  - intros [= <-]. split; [assumption|].
    split; [|assumption]. intros k. simpl. tauto.
  - cbn [fold_left]. unfold matchup_step at 2. cbn [bind].
    destruct (text_eqb opp this) eqn:Eo.
    { apply text_eqb_true in Eo. intros H.
      destruct (IH acc res Hnd Hv H) as (Hnd' & Hk & Hv').
      split; [assumption|]. split; [|assumption].
      intros k. rewrite Hk. simpl.
      split; [tauto|]. intros [Hin | ([<- | Hin] & Hne & Hs)]; tauto. }
    apply text_eqb_false in Eo.
    destruct (search (matchup_pattern opp) html) as [m|] eqn:Es.
    2:{ intros H. destruct (IH acc res Hnd Hv H) as (Hnd' & Hk & Hv').
        split; [assumption|]. split; [|assumption].
        intros k. rewrite Hk. simpl. split; [tauto|].
        intros [Hin | ([<- | Hin] & Hne & Hs)];
          [tauto | congruence | tauto]. }
    destruct (search_sound _ _ _ Es) as (u & Hu).
    destruct (matchup_of_match m) as [v|] eqn:Ev; cbn [bind];
      [|rewrite matchup_fold_none; discriminate].
    destruct (matchup_of_match_props opp u m v Hu Ev) as (Hw & Hl & Ht & _).
    intros H.
    destruct (IH (dict_set acc opp v) res) as (Hnd' & Hk & Hv').
    + now apply dict_upd_nodup.
    + intros k v'. unfold dict_set. rewrite dict_get_upd.
      destruct (text_eqb opp k); [intros [= <-]; auto | apply Hv].
    + exact H.
    + split; [assumption|]. split; [|assumption].
      intros k. rewrite Hk. unfold dict_set.
      rewrite in_dict_keys_upd. simpl. split.
      * intros [[-> | Hin] | Hin]; [|tauto|tauto].
        right. split; [now left|]. split; [assumption | congruence].
      * intros [Hin | ([<- | Hin] & Hne & Hs)]; tauto.
Qed.

(** The loop returns when no run of digits is beyond the bound of [int]. *)
Lemma matchup_step_fold_defined (html this : text) (l : list text) :
  (List.length html <= int_max_str_digits)%nat ->
  forall acc,
    exists res, fold_left (matchup_step html this) l (Some acc) = Some res.
Proof.
  intros Hlen. induction l as [|opp l IH]; intros acc; [now exists acc|].
  cbn [fold_left]. unfold matchup_step at 2. cbn [bind].
  destruct (text_eqb opp this); [apply IH|].
  destruct (search (matchup_pattern opp) html) as [m|] eqn:Es; [|apply IH].
  destruct (search_within _ _ _ Es) as (u & Hu & Hf).
  destruct (matchup_of_match_defined opp u m Hu
              (Forall_length_le _ _ _ Hlen Hf)) as (v & ->).
  cbn [bind]. apply IH.
Qed.

(** X4.  On a page text of at most 4300 characters
    [extract_matchups_from_html] raises nothing.  Its result has one entry
    for each candidate opponent, other than the deck of the page, whose row
    the text contains, and for no other name; the counts of the entries are
    natural numbers. *)
Theorem extract_matchups_returns (html_text this_deck : text)
    (meta_decks : list text) :
  (List.length html_text <= int_max_str_digits)%nat ->
  exists result,
    extract_matchups_from_html html_text this_deck meta_decks = Some result /\
    NoDup (dict_keys result) /\
    (forall opp,
       In opp (dict_keys result) <->
       In opp meta_decks /\ opp <> this_deck /\
       search (matchup_pattern opp) html_text <> None) /\
    (forall opp v,
       dict_get result opp = Some v ->
       0 <= m_wins v /\ 0 <= m_losses v /\ 0 <= m_ties v).
Proof.
  intros Hlen. unfold extract_matchups_from_html.
  destruct (matchup_step_fold_defined html_text this_deck meta_decks Hlen [])
    as (res & H).
  destruct (matchup_fold_safe html_text this_deck meta_decks [] res)
    as (Hnd & Hk & Hv); [constructor | discriminate | exact H |].
  exists res. split; [assumption|]. split; [assumption|].
  split; [|assumption]. intros opp. rewrite Hk. simpl. tauto.
Qed.

Lemma extract_matchups_returns_witness :
  (List.length (str "Gardevoir 310 154 - 91 - 65 56.67%")
   <= int_max_str_digits)%nat /\
  exists result,
    extract_matchups_from_html (str "Gardevoir 310 154 - 91 - 65 56.67%")
      (str "Mew") [str "Mew"; str "Gardevoir"] = Some result /\
    NoDup (dict_keys result).
Proof.
  assert (H : (List.length (str "Gardevoir 310 154 - 91 - 65 56.67%")
               <= int_max_str_digits)%nat)
    by (apply Nat.leb_le; vm_compute; reflexivity).
  split; [exact H|].
  destruct (extract_matchups_returns
              (str "Gardevoir 310 154 - 91 - 65 56.67%") (str "Mew")
              [str "Mew"; str "Gardevoir"] H) as (res & Hr & Hnd & _).
  exists res. split; assumption.
Defined.

(** ** The address of the matchup tab *)

Lemma prefix_ci_app (p q : text) : prefix_ci false p (p ++ q) = Some q.
Proof.
  induction p as [|a p IH]; simpl; [reflexivity|].
  now rewrite N.eqb_refl.
Qed.

Lemma ends_with_app (suffix s : text) : ends_with suffix (s ++ suffix) = true.
Proof.
  unfold ends_with. now rewrite rev_app_distr, prefix_ci_app.
Qed.

Lemma rstrip_slash_unit (s : text) :
  rstrip_slash (s ++ ["/"%char]) = rstrip_slash s.
Proof. unfold rstrip_slash. rewrite rev_unit. reflexivity. Qed.

Lemma rstrip_slash_slashes (s : text) (n : nat) :
  rstrip_slash (s ++ repeat "/"%char n) = rstrip_slash s.
Proof.
  induction n as [|n IH]; simpl; [now rewrite app_nil_r|].
  rewrite repeat_cons, app_assoc, rstrip_slash_unit. exact IH.
Qed.

Lemma ends_with_matchups_slash (s : text) :
  ends_with (str "/matchups") (s ++ ["/"%char]) = false.
Proof. unfold ends_with. rewrite rev_unit. reflexivity. Qed.

(** X5.  The address that [fetch_matchups_for_deck] requests always ends
    with ["/matchups"]; an address that ends so is requested as it is, so
    that the rewriting of lines 203-204 applied twice changes nothing more;
    slashes at the end of a deck address are dropped before the tab name is
    appended; and every request of a run is for such an address. *)
Theorem matchups_url_normal (deck_url : text) :
  ends_with (str "/matchups") (matchups_url deck_url) = true /\
  matchups_url (matchups_url deck_url) = matchups_url deck_url /\
  (forall n,
     matchups_url (deck_url ++ repeat "/"%char (S n)) =
     rstrip_slash deck_url ++ str "/matchups") /\
  (forall fetch_page set_iter urls_global meta d url,
     In (d, url)
        (snd (matchups_run fetch_page set_iter urls_global meta)) ->
     ends_with (str "/matchups") url = true).
Proof.
  assert (He : forall u, ends_with (str "/matchups") (matchups_url u) = true).
  { intros u. unfold matchups_url.
    destruct (ends_with (str "/matchups") u) eqn:E; [exact E|].
    apply ends_with_app. }
  split; [apply He|]. split; [|split].
  - unfold matchups_url at 1. now rewrite He.
  - intros n. unfold matchups_url.
    replace (deck_url ++ repeat "/"%char (S n))
      with ((deck_url ++ repeat "/"%char n) ++ ["/"%char])
      by (rewrite <- app_assoc, <- repeat_cons; reflexivity).
    rewrite ends_with_matchups_slash, rstrip_slash_unit.
    now rewrite rstrip_slash_slashes.
  - intros fetch_page set_iter urls_global meta d url Hin.
    unfold matchups_run in Hin. rewrite fold_deck_step_requests in Hin.
    simpl in Hin. apply in_flat_map in Hin.
    destruct Hin as (d' & _ & Hin). unfold requests_for in Hin.
    apply in_map_iff in Hin. destruct Hin as (u & [= _ <-] & _).
    apply He.
Qed.

(** ** What the accumulators hold *)

Section FoldGet.

Context {V R : Type} (dflt : V) (f : R -> V -> V) (key : R -> text).

Lemma fold_upd_get (l : list R) (d : dict V) (k : text) :
  dict_get (fold_left (upd_step dflt f key) l d) k =
  match filter (fun r => text_eqb (key r) k) l with
  | [] => dict_get d k
  | rs =>
      Some (fold_left (fun v r => f r v) rs
              (match dict_get d k with Some v => v | None => dflt end))
  end.
Proof.
  revert d. induction l as [|r l IH]; intros d; [reflexivity|].
  cbn [fold_left filter]. rewrite IH. unfold upd_step.
  rewrite dict_get_upd.
  destruct (text_eqb (key r) k) eqn:E.
  - apply text_eqb_true in E. subst k.
    destruct (filter _ l); reflexivity.
  - reflexivity.
Qed.

End FoldGet.

Lemma fold_add_summary (l : list SummaryRecord) (s : Stats) :
  fold_left (fun v r => add_summary r v) l s =
  {| wins := wins s + zsum (map s_wins l);
     losses := losses s + zsum (map s_losses l);
     ties := ties s + zsum (map s_ties l);
     players := players s + zsum (map s_players l) |}.
Proof.
  revert s. induction l as [|r l IH]; intros s; simpl.
  - destruct s. simpl. f_equal; lia.
  - rewrite IH. unfold add_summary. simpl. f_equal; lia.
Qed.

Lemma fold_add_conversion (l : list ConversionRecord) (s : ConvStats) :
  fold_left (fun v r => add_conversion r v) l s =
  {| day1 := day1 s + zsum (map c_day1_players l);
     day2 := day2 s + zsum (map c_day2_players l) |}.
Proof.
  revert s. induction l as [|r l IH]; intros s; simpl.
  - destruct s. simpl. f_equal; lia.
  - rewrite IH. unfold add_conversion. simpl. f_equal; lia.
Qed.

Lemma fold_day2_step_get (l : list SummaryRecord) (name : text) :
  dict_get (fold_left day2_step l []) name =
  totals_of summary_totals (summaries_of name l).
Proof.
  change day2_step with (upd_step stats0 add_summary s_deck).
  rewrite fold_upd_get. unfold summaries_of, totals_of.
  destruct (filter _ l) as [|r rs]; [reflexivity|].
  now rewrite fold_add_summary.
Qed.

(** X6.  After any tournaments, the entry of a deck in each of the three
    accumulators is the total of the records that carry its name in the
    feeds of all the tournaments, and a name without a record has no
    entry. *)
Theorem aggregated_counts_are_sums (ts : list TournamentData) (name : text) :
  dict_get (overall_stats (aggregate ts)) name =
    totals_of summary_totals (summaries_of name (flat_map overall ts)) /\
  dict_get (day2_stats (aggregate ts)) name =
    totals_of summary_totals (summaries_of name (flat_map day2_rows ts)) /\
  dict_get (conv_stats (aggregate ts)) name =
    totals_of conversion_totals
      (conversions_of name (flat_map conversion ts)).
Proof.
  unfold aggregate.
  rewrite overall_stats_from, day2_stats_from, conv_stats_from.
  split; [apply fold_day2_step_get|]. split; [apply fold_day2_step_get|].
  simpl. change conv_step with (upd_step conv0 add_conversion c_deck).
  rewrite fold_upd_get. unfold conversions_of, totals_of.
  destruct (filter _ (flat_map conversion ts)) as [|r rs]; [reflexivity|].
  now rewrite fold_add_conversion.
Qed.

(** ** The links kept for a deck *)

Lemma in_set_add (s : strset) (x y : text) :
  In y (set_add s x) <-> In y s \/ y = x.
Proof.
  unfold set_add. destruct (set_mem s x) eqn:E.
  - apply set_mem_in in E. split; [auto | intros [H | ->]; assumption].
  - rewrite in_app_iff. simpl. intuition auto.
Qed.

Lemma fold_overall_step_url_set (urls : dict text) (name u : text)
    (l : list SummaryRecord) (st : dict Stats * dict strset) :
  In u (url_set (snd (fold_left (overall_step urls) l st)) name) <->
  In u (url_set (snd st) name) \/
  ((exists d, In d l /\ s_deck d = name) /\ dict_get urls name = Some u).
Proof.
  revert st. induction l as [|r l IH]; intros st; cbn [fold_left].
  - split; [auto | intros [H | ((d & [] & _) & _)]; exact H].
  - rewrite IH. unfold overall_step. cbn [snd].
    assert (Hstep :
      In u (url_set
              match dict_get urls (s_deck r) with
              | Some u' =>
                  dict_upd [] (fun s => set_add s u') (snd st) (s_deck r)
              | None => snd st
              end name) <->
      In u (url_set (snd st) name) \/
      (s_deck r = name /\ dict_get urls name = Some u)).
    { destruct (dict_get urls (s_deck r)) as [u'|] eqn:Eu.
      - unfold url_set. rewrite dict_get_upd.
        destruct (text_eqb (s_deck r) name) eqn:E.
        + apply text_eqb_true in E. rewrite in_set_add, <- E, Eu.
          split; [intros [H | ->]; auto | intros [H | [_ [= ->]]]; auto].
        + apply text_eqb_false in E. tauto.
      - split; [auto | intros [H | [E H]]; [exact H|]].
        rewrite <- E in H. congruence. }
    rewrite Hstep. simpl. split.
    + intros [[H | [E H]] | ((d & Hd & E) & H)]; eauto 7.
    + intros [H | ((d & [<- | Hd] & E) & H)]; eauto 7.
Qed.

Lemma url_set_from (name u : text) (ts : list TournamentData) (st : AggState) :
  In u (url_set (deck_urls_global (aggregate_from st ts)) name) <->
  In u (url_set (deck_urls_global st) name) \/
  exists data,
    In data ts /\ (exists d, In d (overall data) /\ s_deck d = name) /\
    dict_get (deck_urls data) name = Some u.
Proof.
  unfold aggregate_from. revert st.
  induction ts as [|t ts IH]; intros st; cbn [fold_left].
  - split; [auto | intros [H | (d & [] & _)]; exact H].
  - rewrite IH. unfold agg_step. cbn [deck_urls_global].
    rewrite fold_overall_step_url_set. cbn [snd]. simpl. split.
    + intros [[H | [Hd H]] | (data & Hin & Hd & H)]; eauto 8.
    + intros [H | (data & [<- | Hin] & Hd & H)]; eauto 8.
Qed.

(** X7.  A URL is kept for a deck exactly when some tournament has an
    overall record of the deck and its page links the name of the deck to
    that URL; a deck seen only in the day-2 or conversion feeds, or never
    linked, keeps none.  No URL is kept twice. *)
Theorem deck_urls_recorded (ts : list TournamentData) (name u : text) :
  (In u (url_set (deck_urls_global (aggregate ts)) name) <->
   exists data,
     In data ts /\ (exists d, In d (overall data) /\ s_deck d = name) /\
     dict_get (deck_urls data) name = Some u) /\
  NoDup (url_set (deck_urls_global (aggregate ts)) name).
Proof.
  split.
  - unfold aggregate. rewrite url_set_from. simpl. tauto.
  - unfold url_set.
    destruct (dict_get _ name) as [s|] eqn:E; [|constructor].
    exact (dict_all_get _ _ _ _ (deck_urls_nodup ts) E).
Qed.

(** ** The rows of the ranking *)

Lemma base_rows_decks (minp : Z) (st : AggState) (l : list (text * Stats))
    (bs : list (option BaseRow)) :
  Forall2 (fun e b => base_row minp st e = Some b) l bs ->
  NoDup (map fst l) ->
  NoDup (map deck (keep_some bs)) /\
  forall x, In x (map deck (keep_some bs)) -> In x (map fst l).
Proof.
  induction 1 as [|[name o] b l bs Hb _ IH]; simpl; intros Hnd.
  - split; [constructor | auto].
  - inversion Hnd as [|? ? Hn Hnd']; subst.
    destruct (IH Hnd') as (IH1 & IH2).
    destruct b as [br|]; simpl.
    + apply base_row_some in Hb. destruct Hb as (Hd & _). rewrite Hd.
      split; [constructor; auto|]. intros x [<- | Hx]; auto.
    + split; [assumption | auto].
Qed.

Lemma base_rows_of_nodup (minp : Z) (ts : list TournamentData) brs :
  base_rows_of minp (aggregate ts) = Some brs -> NoDup (map deck brs).
Proof.
  unfold base_rows_of. intros H. inv_bind H. injection H as <-.
  apply mapM_some in E.
  exact (proj1 (base_rows_decks _ _ _ _ E (overall_stats_nodup ts))).
Qed.

Section RankingFacts.

Variable fetch_page : text -> option text.
Variable set_iter : strset -> list text.

Lemma ranking_decks ts minp K beta rows m :
  aggregate_tournaments_with_matchups fetch_page set_iter ts minp K beta
  = Some (rows, m) ->
  exists brs,
    base_rows_of minp (aggregate ts) = Some brs /\
    Permutation (map row rows) brs.
Proof.
  intros H. destruct (aggregate_stages _ _ _ _ _ _ _ _ H)
    as (brs & mw & scored & reqs & Hb & _ & _ & Hs & _ & ->).
  exists brs. split; [assumption|].
  apply mapM_score_row_rows in Hs.
  rewrite (Permutation_map row (sort_by_final_score_perm scored)), Hs.
  apply sort_desc_perm.
Qed.

Lemma ranking_names_nodup ts minp K beta rows m :
  aggregate_tournaments_with_matchups fetch_page set_iter ts minp K beta
  = Some (rows, m) ->
  NoDup (map (fun r => deck (row r)) rows).
Proof.
  intros H. destruct (ranking_decks _ _ _ _ _ _ H) as (brs & Hb & Hp).
  rewrite <- (map_map row deck).
  apply (Permutation_NoDup (Permutation_sym (Permutation_map deck Hp))).
  exact (base_rows_of_nodup _ _ _ Hb).
Qed.

(** X8.  The ranking lists each deck once: no two rows carry the same
    name.  Every row stands for a deck of the overall statistics that has
    played at least one game (line 308), and shows the player count
    accumulated for it. *)
Theorem ranking_decks_distinct ts minp K beta rows m :
  aggregate_tournaments_with_matchups fetch_page set_iter ts minp K beta
  = Some (rows, m) ->
  NoDup (map (fun r => deck (row r)) rows) /\
  forall r, In r rows ->
    exists o,
      dict_get (overall_stats (aggregate ts)) (deck (row r)) = Some o /\
      0 < games o /\ players_overall (row r) = players o.
Proof.
  intros H. split; [exact (ranking_names_nodup _ _ _ _ _ _ H)|].
  intros r Hr.
  destruct (ranking_row_entry _ _ _ _ _ _ _ _ _ H Hr) as (o & Ho & Hrow).
  exists o. apply base_row_some in Hrow. tauto.
Qed.

End RankingFacts.

Lemma ranking_decks_distinct_witness :
  aggregate_tournaments_with_matchups sample_fetch sample_iter sample_ts
    20 2 f0_5 = Some (sample_rows, sample_matrix) /\
  NoDup (map (fun r => deck (row r)) sample_rows).
Proof.
  assert (H : aggregate_tournaments_with_matchups sample_fetch sample_iter
                sample_ts 20 2 f0_5 = Some (sample_rows, sample_matrix))
    by (vm_compute; reflexivity).
  split; [exact H|].
  exact (proj1 (ranking_decks_distinct sample_fetch sample_iter
                  sample_ts 20 2 f0_5 sample_rows sample_matrix H)).
Defined.

(** ** The meta pool *)

Lemma in_fold_set_add (l : list text) (s : strset) (x : text) :
  In x (fold_left set_add l s) <-> In x s \/ In x l.
Proof.
  revert s. induction l as [|y l IH]; intros s; simpl; [tauto|].
  rewrite IH, in_set_add. intuition auto.
Qed.

Lemma length_set_add (s : strset) (x : text) :
  (List.length (set_add s x) <= S (List.length s))%nat.
Proof.
  unfold set_add. destruct (set_mem s x); [lia|].
  rewrite length_app. simpl. lia.
Qed.

Lemma length_fold_set_add (l : list text) (s : strset) :
  (List.length (fold_left set_add l s) <= List.length s + List.length l)%nat.
Proof.
  revert s. induction l as [|y l IH]; intros s; simpl; [lia|].
  pose proof (IH (set_add s y)). pose proof (length_set_add s y). lia.
Qed.

Lemma slice_to_firstn {A : Type} (n : Z) (l : list A) :
  exists k, slice_to n l = firstn k l /\ (0 <= n -> k = Z.to_nat n).
Proof.
  unfold slice_to. destruct (n <? 0) eqn:E.
  - apply Z.ltb_lt in E. eexists. split; [reflexivity | lia].
  - eexists. split; [reflexivity | reflexivity].
Qed.

Lemma in_firstn {A : Type} (k : nat) (l : list A) (x : A) :
  In x (firstn k l) -> In x l.
Proof.
  intros H. rewrite <- (firstn_skipn k l), in_app_iff. now left.
Qed.

Lemma sorted_app {A : Type} (R : A -> A -> Prop) (l1 l2 : list A) :
  StronglySorted R (l1 ++ l2) ->
  forall x y, In x l1 -> In y l2 -> R x y.
Proof.
  induction l1 as [|a l1 IH]; simpl; intros Hs x y Hx Hy; [contradiction|].
  inversion Hs as [|? ? Hs' Ha]; subst.
  destruct Hx as [<- | Hx]; [|eauto].
  rewrite Forall_forall in Ha. apply Ha. rewrite in_app_iff. now right.
Qed.

Lemma by_players_sorted (l : list BaseRow) :
  StronglySorted (not_below by_players) (sort_desc by_players l).
Proof.
  apply (sort_desc_sorted by_players (fun _ => True)).
  - intros x y _ _. unfold by_players. rewrite !Z.ltb_lt, Z.ltb_ge. lia.
  - intros x y z _ _ _. unfold by_players. rewrite !Z.ltb_ge. lia.
  - apply Forall_forall. auto.
Qed.

Lemma nodup_map_eq {A B : Type} (f : A -> B) (l : list A) (x y : A) :
  NoDup (map f l) -> In x l -> In y l -> f x = f y -> x = y.
Proof.
  induction l as [|a l IH]; simpl; intros Hnd Hx Hy E; [contradiction|].
  inversion Hnd as [|? ? Hn Hnd']; subst.
  destruct Hx as [<- | Hx], Hy as [<- | Hy]; auto.
  - exfalso. apply Hn. rewrite E. now apply in_map.
  - exfalso. apply Hn. rewrite <- E. now apply in_map.
Qed.

(** X9.  The meta pool holds the names of the first [meta_pool_size] rows
    in descending order of players: it has at most [meta_pool_size] names,
    each the name of a row; a row of the pool has at least as many players as
    any row outside it; and every row is in the pool when there are no more
    rows than [meta_pool_size]. *)
Theorem meta_pool_is_top (ts : list TournamentData) (minp K : Z)
    (brs : list BaseRow) :
  base_rows_of minp (aggregate ts) = Some brs ->
  (0 <= K ->
   (List.length (meta_decks_of K (sort_desc by_players brs))
    <= Z.to_nat K)%nat) /\
  (forall d,
     In d (meta_decks_of K (sort_desc by_players brs)) ->
     exists br, In br brs /\ deck br = d) /\
  (forall br br',
     In br brs -> In br' brs ->
     set_mem (meta_decks_of K (sort_desc by_players brs)) (deck br) = true ->
     set_mem (meta_decks_of K (sort_desc by_players brs)) (deck br') = false ->
     players_overall br' <= players_overall br) /\
  (Z.of_nat (List.length brs) <= K ->
   forall br, In br brs ->
     set_mem (meta_decks_of K (sort_desc by_players brs)) (deck br) = true).
Proof.
  intros Hb. pose proof (base_rows_of_nodup _ _ _ Hb) as Hnd.
  set (sorted := sort_desc by_players brs).
  assert (Hperm : Permutation sorted brs) by apply sort_desc_perm.
  assert (Hnds : NoDup (map deck sorted)).
  { apply (Permutation_NoDup
             (Permutation_sym (Permutation_map deck Hperm)) Hnd). }
  unfold meta_decks_of.
  destruct (slice_to_firstn K sorted) as (k & -> & Hk).
  assert (Hin : forall d,
            In d (fold_left set_add (map deck (firstn k sorted)) []) <->
            exists br, In br (firstn k sorted) /\ deck br = d).
  { intros d. rewrite in_fold_set_add, in_map_iff. simpl.
    split; [intros [[] | (br & E & H)] | intros (br & H & E)]; eauto. }
  split; [|split; [|split]].
  - intros HK. pose proof (length_fold_set_add
                             (map deck (firstn k sorted)) []) as Hl.
    rewrite length_map, length_firstn in Hl. cbn [List.length] in Hl.
    pose proof (Hk HK). lia.
  - intros d Hd. apply Hin in Hd. destruct Hd as (br & Hbr & E).
    exists br. split; [|assumption].
    apply (Permutation_in _ Hperm). exact (in_firstn _ _ _ Hbr).
  - intros br br' Hbr Hbr' Hp Hq.
    apply set_mem_in, Hin in Hp. destruct Hp as (b0 & Hb0 & E).
    assert (Hbs : In br sorted)
      by (apply (Permutation_in _ (Permutation_sym Hperm)); assumption).
    assert (Hbs' : In br' sorted)
      by (apply (Permutation_in _ (Permutation_sym Hperm)); assumption).
    assert (E0 : b0 = br).
    { apply (nodup_map_eq deck sorted); try assumption.
      exact (in_firstn _ _ _ Hb0). }
    subst b0.
    assert (Hout : In br' (skipn k sorted)).
    { rewrite <- (firstn_skipn k sorted), in_app_iff in Hbs'.
      destruct Hbs' as [Hf | Hs]; [|assumption].
      assert (Hc : set_mem (fold_left set_add
                              (map deck (firstn k sorted)) [])
                           (deck br') = true)
        by (apply set_mem_in, Hin; eauto).
      congruence. }
    pose proof (by_players_sorted brs) as Hs. fold sorted in Hs.
    rewrite <- (firstn_skipn k sorted) in Hs.
    pose proof (sorted_app _ _ _ Hs br br' Hb0 Hout) as Hle.
    unfold not_below, by_players in Hle. apply Z.ltb_ge in Hle. exact Hle.
  - intros HK br Hbr. apply set_mem_in, Hin. exists br. split; [|reflexivity].
    rewrite firstn_all2.
    + apply (Permutation_in _ (Permutation_sym Hperm)). assumption.
    + rewrite (Permutation_length Hperm). rewrite Hk; lia.
Qed.

Lemma meta_pool_is_top_witness :
  base_rows_of 20 sample_state = Some sample_base_rows /\
  (List.length (meta_decks_of 2 (sort_desc by_players sample_base_rows))
   <= Z.to_nat 2)%nat.
Proof.
  assert (H : base_rows_of 20 (aggregate sample_ts) = Some sample_base_rows)
    by (vm_compute; reflexivity).
  split; [exact H|].
  refine (proj1 (meta_pool_is_top sample_ts 20 2 sample_base_rows H) _).
  lia.
Defined.

(** ** Runs that find no matchup *)

Lemma matchup_score_of_nil (mw : dict float) :
  matchup_score_of mw [] = Some f0_0.
Proof. reflexivity. Qed.

Lemma empty_matrix_scores beta mw (l : list BaseRow) scored r :
  mapM (score_row beta mw []) l = Some scored -> In r scored ->
  matchup_score r = f0_0 /\
  final_score r = fadd (base_score (row r)) (fmul beta f0_0).
Proof.
  intros H Hr. apply mapM_some in H.
  destruct (Forall2_in_r _ _ _ _ H Hr) as (br & _ & Hs).
  apply score_row_some in Hs. destruct Hs as (Hrow & Hf & Hm).
  cbn [dict_get] in Hm. rewrite matchup_score_of_nil in Hm.
  injection Hm as Hm. rewrite Hrow, Hf, <- Hm. now split.
Qed.

Section EmptyMatrix.

Variable fetch_page : text -> option text.
Variable set_iter : strset -> list text.

Lemma ranking_base_score_sign ts minp K beta rows m r :
  aggregate_tournaments_with_matchups fetch_page set_iter ts minp K beta
  = Some (rows, m) ->
  Forall (fun d => nonneg_data d = true) ts ->
  In r rows -> not_negative (base_score (row r)) = true.
Proof.
  intros H Hnn Hr.
  destruct (ranking_row_entry _ _ _ _ _ _ _ _ _ H Hr) as (o & Ho & Hrow).
  destruct (aggregate_nonneg ts Hnn) as (So & Sd & Sc).
  apply (base_row_sign minp (aggregate ts) (deck (row r)) o);
    try assumption.
  exact (dict_all_get _ _ _ _ So Ho).
Qed.

(** A run whose matrix stays empty gives every row the matchup score 0.0. *)
Lemma empty_matrix_ranking ts minp K beta rows :
  aggregate_tournaments_with_matchups fetch_page set_iter ts minp K beta
  = Some (rows, []) ->
  (forall r, In r rows ->
     matchup_score r = f0_0 /\
     final_score r = fadd (base_score (row r)) (fmul beta f0_0)) /\
  (is_finite beta = true ->
   Forall (fun d => nonneg_data d = true) ts ->
   forall r, In r rows -> final_score r = base_score (row r)).
Proof.
  intros H.
  assert (Hs : forall r, In r rows ->
             matchup_score r = f0_0 /\
             final_score r = fadd (base_score (row r)) (fmul beta f0_0)).
  { destruct (aggregate_stages _ _ _ _ _ _ _ _ H)
      as (brs & mw & scored & reqs & _ & _ & _ & Hsc & _ & ->).
    intros r Hr. rewrite in_sort_by_final_score in Hr.
    exact (empty_matrix_scores _ _ _ _ _ Hsc Hr). }
  split; [exact Hs|]. intros Hbeta Hnn r Hr.
  rewrite (proj2 (Hs r Hr)).
  destruct (fmul_finite_zero beta Hbeta) as (s & ->).
  apply fadd_zero_r.
  exact (ranking_base_score_sign _ _ _ _ _ _ _ H Hnn Hr).
Qed.

Lemma fold_deck_step_no_urls urls_global order decks st :
  (forall d, In d decks -> urls_of set_iter urls_global d = []) ->
  fold_left (deck_step fetch_page set_iter urls_global order) decks st = st.
Proof.
  revert st. induction decks as [|d decks IH]; simpl; intros st H;
    [reflexivity|].
  rewrite IH; [|intros; apply H; now right].
  unfold deck_step. fold (urls_of set_iter urls_global d).
  now rewrite (H d (or_introl eq_refl)).
Qed.

Lemma fold_url_step_failing deck order urls st :
  (forall u, fetch_page u = None) ->
  fst (fold_left (url_step fetch_page deck order) urls st) = fst st.
Proof.
  intros Hf. revert st. induction urls as [|u urls IH]; simpl; intros st;
    [reflexivity|].
  rewrite IH. unfold url_step, fetch_matchups_for_deck.
  now rewrite Hf.
Qed.

Lemma fold_deck_step_failing urls_global order decks st :
  (forall u, fetch_page u = None) ->
  fst (fold_left (deck_step fetch_page set_iter urls_global order) decks st)
  = fst st.
Proof.
  intros Hf. revert st. induction decks as [|d decks IH]; simpl; intros st;
    [reflexivity|].
  rewrite IH. unfold deck_step. now apply fold_url_step_failing.
Qed.

(** X12.  When no matchup page can be fetched, the run is not aborted: its
    matrix is empty, every URL of every pool deck was still requested, every
    row has the matchup score 0.0, and with a finite weight and counts that
    are natural numbers the final score of a row is its base score. *)
Theorem unreachable_matchups_leave_base_scores ts minp K beta rows m :
  (forall u, fetch_page u = None) ->
  aggregate_tournaments_with_matchups fetch_page set_iter ts minp K beta
  = Some (rows, m) ->
  m = [] /\
  (exists scored brs,
     base_rows_of minp (aggregate ts) = Some brs /\
     score_all fetch_page set_iter (aggregate ts) minp K beta =
     Some (scored, [],
           flat_map
             (fun d => requests_for d
                         (urls_of set_iter (deck_urls_global (aggregate ts))
                                  d))
             (set_iter (meta_decks_of K (sort_desc by_players brs))))) /\
  (forall r, In r rows ->
     matchup_score r = f0_0 /\
     final_score r = fadd (base_score (row r)) (fmul beta f0_0)) /\
  (is_finite beta = true ->
   Forall (fun d => nonneg_data d = true) ts ->
   forall r, In r rows -> final_score r = base_score (row r)).
Proof.
  intros Hf H.
  destruct (aggregate_stages _ _ _ _ _ _ _ _ H)
    as (brs & mw & scored & reqs & Hb & _ & Hrun & _ & Hall & _).
  assert (Hm : m = []).
  { change m with (fst (m, reqs)). rewrite <- Hrun. unfold matchups_run.
    now rewrite fold_deck_step_failing. }
  assert (Hreq : reqs =
            flat_map
              (fun d => requests_for d
                          (urls_of set_iter (deck_urls_global (aggregate ts))
                                   d))
              (set_iter (meta_decks_of K (sort_desc by_players brs)))).
  { change reqs with (snd (m, reqs)). rewrite <- Hrun. unfold matchups_run.
    now rewrite fold_deck_step_requests. }
  subst m. split; [reflexivity|]. split.
  - exists scored, brs. split; [assumption|]. now rewrite <- Hreq.
  - exact (empty_matrix_ranking _ _ _ _ _ H).
Qed.

(** Iterating over a set yields elements of the set. *)
Hypothesis set_iter_sound : forall s x, In x (set_iter s) -> In x s.

Lemma set_iter_nil : set_iter [] = [].
Proof.
  destruct (set_iter []) as [|x l] eqn:E; [reflexivity|].
  destruct (set_iter_sound [] x). rewrite E. now left.
Qed.

(** X10.  With [meta_pool_size = 0] the pool is empty: the run requests no
    page, its matrix is empty, every row has the matchup score 0.0, and with
    a finite weight and counts that are natural numbers the final score of a
    row is its base score. *)
Theorem empty_pool_no_requests ts minp beta rows m :
  aggregate_tournaments_with_matchups fetch_page set_iter ts minp 0 beta
  = Some (rows, m) ->
  m = [] /\
  (exists scored,
     score_all fetch_page set_iter (aggregate ts) minp 0 beta
     = Some (scored, [], [])) /\
  (forall r, In r rows ->
     matchup_score r = f0_0 /\
     final_score r = fadd (base_score (row r)) (fmul beta f0_0)) /\
  (is_finite beta = true ->
   Forall (fun d => nonneg_data d = true) ts ->
   forall r, In r rows -> final_score r = base_score (row r)).
Proof.
  intros H.
  destruct (aggregate_stages _ _ _ _ _ _ _ _ H)
    as (brs & mw & scored & reqs & _ & _ & Hrun & _ & Hall & _).
  assert (Hpool : meta_decks_of 0 (sort_desc by_players brs) = [])
    by reflexivity.
  rewrite Hpool in Hrun. unfold matchups_run in Hrun.
  rewrite set_iter_nil in Hrun. simpl in Hrun. injection Hrun as <- <-.
  split; [reflexivity|]. split; [eauto|].
  exact (empty_matrix_ranking _ _ _ _ _ H).
Qed.

End EmptyMatrix.

Lemma unreachable_matchups_leave_base_scores_witness :
  (forall u : text, (fun _ : text => @None text) u = None) /\
  (exists rows,
     aggregate_tournaments_with_matchups (fun _ => None) sample_iter
       sample_ts 20 2 f0_5 = Some (rows, []) /\
     forall r, In r rows -> final_score r = base_score (row r)).
Proof.
  split; [reflexivity|].
  destruct (aggregate_tournaments_with_matchups (fun _ => None) sample_iter
              sample_ts 20 2 f0_5) as [[rows m]|] eqn:E;
    [|vm_compute in E; discriminate].
  destruct (unreachable_matchups_leave_base_scores (fun _ => None)
              sample_iter sample_ts 20 2 f0_5 rows m (fun _ => eq_refl) E)
    as (-> & _ & _ & Hf).
  exists rows. split; [reflexivity|]. apply Hf; [reflexivity|].
  repeat constructor.
Defined.

Lemma empty_pool_no_requests_witness :
  (forall s x, In x (sample_iter s) -> In x s) /\
  (exists rows,
     aggregate_tournaments_with_matchups sample_fetch sample_iter
       sample_ts 20 0 f0_5 = Some (rows, []) /\
     forall r, In r rows -> matchup_score r = f0_0).
Proof.
  split; [exact (fun s x H => H)|].
  destruct (aggregate_tournaments_with_matchups sample_fetch sample_iter
              sample_ts 20 0 f0_5) as [[rows m]|] eqn:E;
    [|vm_compute in E; discriminate].
  destruct (empty_pool_no_requests sample_fetch sample_iter
              (fun s x H => H) sample_ts 20 f0_5 rows m E)
    as (-> & _ & Hs & _).
  exists rows. split; [reflexivity|]. intros r Hr. exact (proj1 (Hs r Hr)).
Defined.

(** ** The cells of the matrix *)

Lemma cells_within_nil (decks : list text) : cells_within decks [].
Proof. intros x y c H. discriminate. Qed.

Lemma bump_within (decks : list text) (m : matrix) (a b : text) (w l t : Z) :
  cells_within decks m ->
  a <> b -> In a decks -> In b decks -> 0 <= w -> 0 <= l -> 0 <= t ->
  cells_within decks (bump m a b w l t).
Proof.
  intros Hm Hab Ha Hb Hw Hl Ht x y c. rewrite cell_bump.
  destruct (text_eqb a x && text_eqb b y) eqn:E; [|apply Hm].
  apply andb_true_iff in E. destruct E as [Ex Ey].
  apply text_eqb_true in Ex, Ey. subst x y. intros [= <-].
  assert (Hc : 0 <= cell_wins (cell_or_zero (cell m a b)) /\
               0 <= cell_losses (cell_or_zero (cell m a b)) /\
               0 <= cell_ties (cell_or_zero (cell m a b))).
  { destruct (cell m a b) as [c0|] eqn:E0; simpl; [|lia].
    destruct (Hm a b c0 E0) as (_ & _ & _ & H). exact H. }
  unfold add_cell. simpl. repeat split; try assumption; lia.
Qed.

Lemma fold_record_matchup_within (decks : list text) (deck : text)
    (per : dict Matchup) (m : matrix) :
  In deck decks ->
  (forall opp v, In (opp, v) per ->
     opp <> deck /\ In opp decks /\
     0 <= m_wins v /\ 0 <= m_losses v /\ 0 <= m_ties v) ->
  cells_within decks m ->
  cells_within decks (fold_left (record_matchup deck) per m).
Proof.
  intros Hd. revert m.
  induction per as [|[opp v] per IH]; simpl; intros m Hper Hm; [assumption|].
  destruct (Hper opp v (or_introl eq_refl)) as (Hne & Ho & Hw & Hl & Ht).
  apply IH; [intros; apply Hper; now right|].
  apply bump_within; auto. apply bump_within; auto.
Qed.

Section Cells.

Variable fetch_page : text -> option text.
Variable set_iter : strset -> list text.

Lemma url_step_within deck order st url :
  In deck order ->
  cells_within order (fst st) ->
  cells_within order (fst (url_step fetch_page deck order st url)).
Proof.
  intros Hd Hst. unfold url_step, fetch_matchups_for_deck. cbn [fst].
  destruct (fetch_page (matchups_url url)) as [page|]; cbn [bind];
    [|assumption].
  unfold extract_matchups_from_html.
  destruct (fold_left (matchup_step page deck) order (Some []))
    as [res|] eqn:Hres; [|assumption].
  destruct (matchup_fold_safe page deck order [] res)
    as (Hnd & Hk & Hv); [constructor | discriminate | exact Hres |].
  apply fold_record_matchup_within; try assumption.
  intros opp v Hin.
  assert (Hkey : In opp (dict_keys res))
    by (change opp with (fst (opp, v)); now apply in_map).
  apply Hk in Hkey. destruct Hkey as [[] | (Ho & Hne & _)].
  split; [assumption|]. split; [assumption|].
  apply (Hv opp v). now apply in_dict_get.
Qed.

Lemma fold_url_step_within deck order urls st :
  In deck order ->
  cells_within order (fst st) ->
  cells_within order
    (fst (fold_left (url_step fetch_page deck order) urls st)).
Proof.
  intros Hd. revert st.
  induction urls as [|u urls IH]; simpl; intros st H; [assumption|].
  apply IH. now apply url_step_within.
Qed.

Lemma fold_deck_step_within urls_global order decks st :
  (forall d, In d decks -> In d order) ->
  cells_within order (fst st) ->
  cells_within order
    (fst (fold_left (deck_step fetch_page set_iter urls_global order)
                    decks st)).
Proof.
  revert st. induction decks as [|d decks IH]; simpl; intros st Hd H;
    [assumption|].
  apply IH; [intros; apply Hd; now right|].
  unfold deck_step. apply fold_url_step_within; [|assumption].
  apply Hd. now left.
Qed.

(** Iterating over a set yields elements of the set. *)
Hypothesis set_iter_sound : forall s x, In x (set_iter s) -> In x s.

(** X11.  Every cell of the matrix of a run pairs two different decks of
    the meta pool, and holds natural numbers: no deck has a cell against
    itself (line 167), and no deck outside the pool appears as a row or as a
    column. *)
Theorem matrix_cells_pair_pool_decks ts minp K beta rows m brs :
  aggregate_tournaments_with_matchups fetch_page set_iter ts minp K beta
  = Some (rows, m) ->
  base_rows_of minp (aggregate ts) = Some brs ->
  cells_within (meta_decks_of K (sort_desc by_players brs)) m.
Proof.
  intros H Hb.
  destruct (aggregate_stages _ _ _ _ _ _ _ _ H)
    as (brs' & mw & scored & reqs & Hb' & _ & Hrun & _).
  rewrite Hb in Hb'. injection Hb' as <-.
  set (meta := meta_decks_of K (sort_desc by_players brs)) in *.
  assert (Hw : cells_within (set_iter meta) m).
  { change m with (fst (m, reqs)). rewrite <- Hrun. unfold matchups_run.
    apply fold_deck_step_within; [auto | apply cells_within_nil]. }
  intros x y c Hc. destruct (Hw x y c Hc) as (Hne & Hx & Hy & Hn).
  split; [assumption|]. split; [now apply set_iter_sound|].
  split; [now apply set_iter_sound | assumption].
Qed.

End Cells.

Lemma matrix_cells_pair_pool_decks_witness :
  (forall s x, In x (sample_iter s) -> In x s) /\
  aggregate_tournaments_with_matchups sample_fetch sample_iter sample_ts
    20 2 f0_5 = Some (sample_rows, sample_matrix) /\
  base_rows_of 20 (aggregate sample_ts) = Some sample_base_rows /\
  cells_within (meta_decks_of 2 (sort_desc by_players sample_base_rows))
               sample_matrix.
Proof.
  assert (H : aggregate_tournaments_with_matchups sample_fetch sample_iter
                sample_ts 20 2 f0_5 = Some (sample_rows, sample_matrix))
    by (vm_compute; reflexivity).
  assert (Hb : base_rows_of 20 (aggregate sample_ts) = Some sample_base_rows)
    by (vm_compute; reflexivity).
  split; [exact (fun s x H => H)|]. split; [exact H|]. split; [exact Hb|].
  exact (matrix_cells_pair_pool_decks sample_fetch sample_iter
           (fun s x H => H) sample_ts 20 2 f0_5 sample_rows sample_matrix
           sample_base_rows H Hb).
Defined.

(** ** Tournament identifiers *)

Lemma digit_is_digit_char c : is_digit c = true -> is_digit_char c = true.
Proof. unfold is_digit_char. now intros ->. Qed.

Lemma digit_char_not_space c : is_digit_char c = true -> is_space c = false.
Proof. ascii_cases c. Qed.

Lemma digit_char_not_slash c : is_digit_char c = true -> not_slash c = true.
Proof. ascii_cases c. Qed.

Lemma digit_char_not_sign c :
  is_digit_char c = true -> is_char "+" c || is_char "-" c = false.
Proof. ascii_cases c. Qed.

Lemma slash_not_slash (c : ascii) :
  prefix_ci false (str "/") [c] = Some [] -> not_slash c = false.
Proof. ascii_cases c. Qed.

Lemma prefix_slash (u : text) :
  prefix_ci false (str "/") u = Some [] -> forallb not_slash u = false.
Proof.
  destruct u as [|x [|y u]]; [discriminate | |].
  - intros H. simpl. now rewrite (slash_not_slash x H).
  - intros H.
    change (prefix_ci false (str "/") (x :: y :: u))
      with (if (code "/" =? code x)%N then Some (y :: u) else None) in H.
    destruct (code "/" =? code x)%N; discriminate.
Qed.

Lemma tid_match_groups (u : text) (caps : captures) :
  matches tournament_id_pattern u [] caps ->
  exists d,
    caps = [d] /\ List.length d = 4%nat /\ forallb is_digit d = true /\
    forallb not_slash u = false.
Proof.
  unfold tournament_id_pattern. intros H. inv_seq.
  match goal with
  | H : matches (Lit _ _) _ _ _ |- _ => inversion H; clear H; subst
  end.
  match goal with
  | H : matches (Group _) _ _ _ |- _ => inversion H; clear H; subst
  end.
  inv_seq.
  repeat match goal with
    | H : matches (Cls _) _ _ _ |- _ => inversion H; clear H; subst
    end.
  eexists. split; [reflexivity|]. split; [reflexivity|]. split.
  - simpl. repeat match goal with
      | H : is_digit _ = true |- _ => rewrite H; clear H
      end. reflexivity.
  - rewrite forallb_app.
    match goal with
    | H : prefix_ci _ _ _ = Some [] |- _ => now rewrite (prefix_slash _ H)
    end.
Qed.

Lemma tid_match_slash (u : text) (caps : captures) :
  matches tournament_id_pattern u [] caps -> forallb not_slash u = false.
Proof.
  intros H. destruct (tid_match_groups u caps H) as (d & _ & _ & _ & E).
  exact E.
Qed.

Lemma zfill_digits (s : text) :
  forallb is_digit_char s = true ->
  zfill 4 s = repeat "0"%char (4 - List.length s) ++ s.
Proof.
  unfold zfill. destruct s as [|c s]; intros H.
  - now rewrite app_nil_r.
  - simpl in H. apply andb_true_iff in H. destruct H as [Hc _].
    now rewrite (digit_char_not_sign c Hc).
Qed.

Lemma strip_digit_chars (s : text) :
  forallb is_digit_char s = true -> strip s = s.
Proof.
  intros H.
  apply strip_id;
    apply (stops_forallb is_space is_digit_char _ digit_char_not_space);
    [assumption | now apply forallb_rev].
Qed.

Lemma search_digit_chars (s : text) :
  forallb is_digit_char s = true -> search tournament_id_pattern s = None.
Proof.
  intros H. apply (needs_search not_slash _ tid_match_slash).
  exact (forallb_impl _ _ _ digit_char_not_slash H).
Qed.

(** A string of digit characters is normalised by padding. *)
Lemma normalize_digit_chars (s : text) :
  isdigit s = true ->
  normalize_tournament_id s =
  Some (repeat "0"%char (4 - List.length s) ++ s).
Proof.
  intros H. unfold normalize_tournament_id.
  assert (Hs : forallb is_digit_char s = true)
    by (destruct s; [discriminate | exact H]).
  rewrite (strip_digit_chars s Hs).
  destruct s as [|c s']; [discriminate|]. cbv beta iota.
  now rewrite (search_digit_chars _ Hs), H, (zfill_digits _ Hs).
Qed.

Lemma forallb_repeat_app (p : ascii -> bool) (c : ascii) (n : nat) (s : text) :
  p c = true -> forallb p s = true -> forallb p (repeat c n ++ s) = true.
Proof.
  intros Hc Hs. induction n as [|n IH]; simpl; [assumption|].
  now rewrite Hc, IH.
Qed.

(** X13.  An identifier that [normalize_tournament_id] returns is never
    empty: it has at least four characters, all of them digits in the sense
    of [str.isdigit]; read from an address, it is exactly four decimal
    digits.  Normalising it again returns it unchanged. *)
Theorem normalize_tournament_id_normal (line t : text) :
  normalize_tournament_id line = Some t ->
  (4 <= List.length t)%nat /\
  forallb is_digit_char t = true /\
  (search tournament_id_pattern (strip line) <> None ->
   List.length t = 4%nat /\ forallb is_digit t = true) /\
  normalize_tournament_id t = Some t.
Proof.
  unfold normalize_tournament_id at 1. intros H.
  destruct (strip line) as [|c l] eqn:El; [discriminate|].
  assert (Hfix : forall s,
            (4 <= List.length s)%nat -> forallb is_digit_char s = true ->
            normalize_tournament_id s = Some s).
  { intros s Hlen Hs. rewrite normalize_digit_chars.
    - replace (4 - List.length s)%nat with 0%nat by lia. reflexivity.
    - destruct s; [simpl in Hlen; lia | exact Hs]. }
  destruct (search tournament_id_pattern (c :: l)) as [m|] eqn:Es.
  - injection H as <-.
    destruct (search_sound _ _ _ Es) as (u & Hu).
    destruct (tid_match_groups u m Hu) as (d & -> & Hlen & Hd & _).
    unfold group. simpl nth.
    assert (Hdc : forallb is_digit_char d = true)
      by exact (forallb_impl _ _ _ digit_is_digit_char Hd).
    split; [lia|]. split; [assumption|]. split; [now split|].
    apply Hfix; [lia | assumption].
  - destruct (isdigit (c :: l)) eqn:Ed; [|discriminate].
    assert (Ht : t = repeat "0"%char (4 - List.length (c :: l)) ++ c :: l)
      by (rewrite <- (zfill_digits _ Ed); congruence).
    clear H. subst t.
    assert (Hlen : (4 <= List.length
                          (repeat "0"%char (4 - List.length (c :: l))
                           ++ c :: l))%nat)
      by (rewrite length_app, repeat_length; lia).
    assert (Hdc : forallb is_digit_char
                    (repeat "0"%char (4 - List.length (c :: l)) ++ c :: l)
                  = true)
      by (apply forallb_repeat_app; [reflexivity | exact Ed]).
    split; [assumption|]. split; [assumption|].
    split; [intros Hn; now elim Hn|].
    now apply Hfix.
Qed.

Lemma normalize_tournament_id_normal_witness :
  normalize_tournament_id (str " 46 ") = Some (str "0046") /\
  normalize_tournament_id (str "0046") = Some (str "0046").
Proof.
  assert (H : normalize_tournament_id (str " 46 ") = Some (str "0046"))
    by reflexivity.
  split; [exact H|].
  exact (proj2 (proj2 (proj2
           (normalize_tournament_id_normal (str " 46 ") (str "0046") H)))).
Defined.

Lemma digits_val_zeros (n : nat) (s : text) :
  digits_val (repeat "0"%char n ++ s) = digits_val s.
Proof.
  unfold digits_val. rewrite fold_left_app.
  replace (fold_left (fun acc c => 10 * acc + digit_val c)
             (repeat "0"%char n) 0) with 0; [reflexivity|].
  induction n as [|n IH]; simpl; [reflexivity | exact IH].
Qed.

(** X15.  A line of decimal digits is an identifier as it stands when it
    has four digits or more, and is padded with zeros on the left to four
    digits when it has fewer; the padding leaves the number unchanged. *)
Theorem digits_are_zero_padded (line : text) :
  is_digits line = true ->
  normalize_tournament_id line =
    Some (repeat "0"%char (4 - List.length line) ++ line) /\
  digits_val (repeat "0"%char (4 - List.length line) ++ line)
  = digits_val line /\
  List.length (repeat "0"%char (4 - List.length line) ++ line)
  = Nat.max 4 (List.length line).
Proof.
  intros H. split; [|split].
  - apply normalize_digit_chars. destruct line as [|c l]; [discriminate|].
    exact (forallb_impl _ _ _ digit_is_digit_char H).
  - apply digits_val_zeros.
  - rewrite length_app, repeat_length. lia.
Qed.

Lemma digits_are_zero_padded_witness :
  is_digits (str "46") = true /\
  normalize_tournament_id (str "46") = Some (str "0046").
Proof.
  split; [reflexivity|].
  exact (proj1 (digits_are_zero_padded (str "46") eq_refl)).
Defined.

(** ** The address of a tournament leads back to its identifier *)

Lemma lstrip_spaces (pre s : text) :
  forallb is_space pre = true -> lstrip (pre ++ s) = lstrip s.
Proof.
  induction pre as [|c pre IH]; simpl; intros H; [reflexivity|].
  apply andb_true_iff in H. destruct H as [Hc Hp]. now rewrite Hc, IH.
Qed.

Lemma lstrip_keeps (l t : text) (c : ascii) :
  is_space c = false -> exists l', lstrip (l ++ c :: t) = l' ++ c :: t.
Proof.
  intros Hc. induction l as [|a l IH]; simpl.
  - rewrite Hc. now exists [].
  - destruct (is_space a); [exact IH|]. now exists (a :: l).
Qed.

Lemma rstrip_keeps (a b : text) (z : ascii) :
  is_space z = false ->
  exists b', rstrip ((a ++ [z]) ++ b) = (a ++ [z]) ++ b'.
Proof.
  intros Hz. unfold rstrip. rewrite rev_app_distr, rev_unit.
  destruct (lstrip_keeps (rev b) (rev a) z Hz) as (l' & ->).
  exists (rev l'). rewrite rev_app_distr. simpl.
  now rewrite rev_involutive, <- app_assoc.
Qed.

Lemma search_cons_none (r : regex) (c : ascii) (s : text) :
  match_here r (c :: s) = None -> search r (c :: s) = search r s.
Proof. intros H. cbn [search]. now rewrite H. Qed.

Lemma search_site (s : text) :
  search tournament_id_pattern (site ++ s) = search tournament_id_pattern s.
Proof.
  unfold site, str. cbn [list_ascii_of_string app].
  repeat (rewrite search_cons_none; [|reflexivity]). reflexivity.
Qed.

Lemma match_here_tid (tid rest : text) :
  List.length tid = 4%nat -> forallb is_digit tid = true ->
  match_here tournament_id_pattern ("/"%char :: tid ++ rest)
  = Some ([tid], rest).
Proof.
  intros Hlen Hd.
  destruct tid as [|c1 [|c2 [|c3 [|c4 [|c5 tid]]]]]; try discriminate.
  simpl in Hd. rewrite !andb_true_iff in Hd.
  destruct Hd as (H1 & H2 & H3 & H4 & _).
  unfold match_here, tournament_id_pattern.
  assert (Hlit : leads (Lit false (str "/"))
                   ("/"%char :: [c1; c2; c3; c4] ++ rest) []
                   ([c1; c2; c3; c4] ++ rest) []).
  { intros R k res Hk. exact Hk. }
  refine (leads_seq _ _ _ _ _ _ _ _ Hlit _ _ _ _ eq_refl).
  apply (leads_group _ [c1; c2; c3; c4] rest [] []).
  simpl app.
  repeat (eapply leads_seq; [apply leads_cls; assumption|]).
  now apply leads_cls.
Qed.

(** X14.  The address that the program builds for a tournament of four
    decimal digits leads back to it: [normalize_tournament_id] returns the
    identifier for [BASE_TOURNAMENT_URL.format(tid=tid)], whatever blanks
    come before it and whatever text comes after it, the queries [?day=2] and
    [?conversion=] of lines 233 and 238 included. *)
Theorem tournament_url_round_trip (tid pre post : text) :
  List.length tid = 4%nat ->
  forallb is_digit tid = true ->
  forallb is_space pre = true ->
  normalize_tournament_id (pre ++ BASE_TOURNAMENT_URL tid ++ post) = Some tid.
Proof.
  intros Hlen Hd Hpre. unfold normalize_tournament_id, strip.
  rewrite (lstrip_spaces _ _ Hpre).
  assert (Hurl : BASE_TOURNAMENT_URL tid ++ post =
                 ((site ++ str "/" ++ tid ++ str "/deck") ++ ["s"%char])
                 ++ post).
  { unfold BASE_TOURNAMENT_URL. rewrite <- !app_assoc. reflexivity. }
  rewrite Hurl.
  rewrite lstrip_stops by reflexivity.
  destruct (rstrip_keeps (site ++ str "/" ++ tid ++ str "/deck") post
              "s"%char eq_refl) as (post' & ->).
  replace (((site ++ str "/" ++ tid ++ str "/deck") ++ ["s"%char]) ++ post')
    with (site ++ "/"%char :: tid ++ (str "/decks" ++ post'))
    by (rewrite <- !app_assoc; reflexivity).
  assert (Hs : search tournament_id_pattern
                 (site ++ "/"%char :: tid ++ (str "/decks" ++ post'))
               = Some [tid]).
  { rewrite search_site. cbn [search].
    now rewrite (match_here_tid tid _ Hlen Hd). }
  set (s := site ++ "/"%char :: tid ++ (str "/decks" ++ post')) in *.
  assert (Hne : s <> []) by (unfold s, site; discriminate).
  clearbody s. destruct s as [|a l]; [congruence|].
  rewrite Hs. reflexivity.
Qed.

Lemma tournament_url_round_trip_witness :
  (List.length (str "0046") = 4%nat /\
   forallb is_digit (str "0046") = true /\
   forallb is_space (str " ") = true) /\
  normalize_tournament_id
    (str " " ++ BASE_TOURNAMENT_URL (str "0046") ++ str "?day=2")
  = Some (str "0046").
Proof.
  split; [repeat split|].
  exact (tournament_url_round_trip (str "0046") (str " ") (str "?day=2")
           eq_refl eq_refl eq_refl).
Defined.

(** ** The links of the decks *)

Lemma deck_url_step_spec (tid : text) (d : dict text) (a : Anchor) :
  deck_url_step tid d a =
  if is_deck_link tid a
  then dict_setdefault d (anchor_text a) (absolute_url (href a))
  else d.
Proof.
  unfold deck_url_step, is_deck_link.
  destruct (contains _ (href a)); simpl; [|reflexivity].
  destruct (anchor_text a) as [|c name]; simpl; [reflexivity|].
  destruct (is_navigation (c :: name)); reflexivity.
Qed.

Lemma dict_get_app {V : Type} (d d' : dict V) (k : text) :
  dict_get (d ++ d') k =
  match dict_get d k with
  | Some v => Some v
  | None => dict_get d' k
  end.
Proof.
  induction d as [|[k' v'] d IH]; simpl; [reflexivity|].
  destruct (text_eqb k' k); [reflexivity | exact IH].
Qed.

Lemma dict_get_setdefault {V : Type} (d : dict V) (k k' : text) (v : V) :
  dict_get (dict_setdefault d k v) k' =
  match dict_get d k' with
  | Some u => Some u
  | None => if text_eqb k k' then Some v else None
  end.
Proof.
  unfold dict_setdefault. destruct (dict_get d k) as [u|] eqn:E.
  - destruct (dict_get d k') as [u'|] eqn:E'; [reflexivity|].
    destruct (text_eqb k k') eqn:Ek; [|reflexivity].
    apply text_eqb_true in Ek. congruence.
  - rewrite dict_get_app. simpl. now destruct (dict_get d k').
Qed.

Lemma dict_keys_setdefault {V : Type} (d : dict V) (k : text) (v : V) :
  NoDup (dict_keys d) -> NoDup (dict_keys (dict_setdefault d k v)).
Proof.
  intros H. unfold dict_setdefault.
  destruct (dict_get d k) eqn:E; [assumption|].
  apply dict_get_none in E. unfold dict_keys. rewrite map_app. simpl.
  apply NoDup_rev in H. rewrite <- (rev_involutive (_ ++ _)).
  apply NoDup_rev. rewrite rev_app_distr. simpl.
  constructor; [|assumption]. now rewrite <- in_rev.
Qed.

Lemma fold_deck_url_step_get (tid name : text) (l : list Anchor)
    (d : dict text) :
  dict_get (fold_left (deck_url_step tid) l d) name =
  match dict_get d name with
  | Some u => Some u
  | None =>
      option_map (fun a => absolute_url (href a))
        (find (fun a => is_deck_link tid a && text_eqb (anchor_text a) name)
              l)
  end.
Proof.
  revert d. induction l as [|a l IH]; intros d; cbn [fold_left find].
  - now destruct (dict_get d name).
  - rewrite IH, deck_url_step_spec.
    destruct (is_deck_link tid a); simpl; [|reflexivity].
    rewrite dict_get_setdefault.
    destruct (dict_get d name); [reflexivity|].
    destruct (text_eqb (anchor_text a) name); reflexivity.
Qed.

Lemma fold_deck_url_step_nodup (tid : text) (l : list Anchor) (d : dict text) :
  NoDup (dict_keys d) ->
  NoDup (dict_keys (fold_left (deck_url_step tid) l d)).
Proof.
  revert d. induction l as [|a l IH]; intros d H; simpl; [assumption|].
  apply IH. rewrite deck_url_step_spec.
  destruct (is_deck_link tid a); [|assumption].
  now apply dict_keys_setdefault.
Qed.

(** X17.  The URL that [extract_deck_urls] gives for a name is that of the
    first element, in document order, that passes the tests of lines 131-140
    and has that name as its text; later elements of the same name change
    nothing (line 147), and a name that no such element carries has no
    entry.  No name has two entries. *)
Theorem deck_url_is_first_link (anchors : list Anchor) (tid name : text) :
  dict_get (extract_deck_urls anchors tid) name =
    option_map (fun a => absolute_url (href a))
      (find (fun a => is_deck_link tid a && text_eqb (anchor_text a) name)
            anchors) /\
  NoDup (dict_keys (extract_deck_urls anchors tid)).
Proof.
  unfold extract_deck_urls. split.
  - now rewrite fold_deck_url_step_get.
  - apply fold_deck_url_step_nodup. constructor.
Qed.

Lemma contains_app_l (needle p s : text) :
  contains needle s = true -> contains needle (p ++ s) = true.
Proof.
  intros H. induction p as [|c p IH]; [exact H|].
  simpl app. cbn [contains]. rewrite IH. apply orb_true_r.
Qed.

Lemma absolute_url_http (h : text) :
  starts_with (str "http") (absolute_url h) = true.
Proof.
  unfold absolute_url.
  destruct (starts_with (str "http") h) eqn:E; [exact E | reflexivity].
Qed.

Lemma absolute_url_contains (needle h : text) :
  contains needle h = true -> contains needle (absolute_url h) = true.
Proof.
  intros H. unfold absolute_url.
  destruct (starts_with (str "http") h); [exact H|].
  now apply contains_app_l.
Qed.

(** The shape of the URLs, for the requests made later. *)
Lemma deck_url_shape (anchors : list Anchor) (tid name url : text) :
  dict_get (extract_deck_urls anchors tid) name = Some url ->
  starts_with (str "http") url = true /\
  contains (str "/" ++ tid ++ str "/decks/") url = true.
Proof.
  unfold extract_deck_urls. rewrite fold_deck_url_step_get. simpl.
  destruct (find _ anchors) as [a|] eqn:E; [|discriminate].
  intros [= <-]. apply find_some in E. destruct E as (_ & Ha).
  unfold is_deck_link in Ha. rewrite !andb_true_iff in Ha.
  split; [apply absolute_url_http|]. apply absolute_url_contains. tauto.
Qed.

(** X16.  Every entry of [extract_deck_urls] has a name that is not empty
    and holds none of the words [Decks], [Players] and [Conversion], and a
    URL that starts with [http] and holds the path [/<tid>/decks/] of the
    tournament: a relative link is completed with the address of the site, an
    absolute one is kept as it is. *)
Theorem deck_urls_well_formed (anchors : list Anchor) (tid name url : text) :
  dict_get (extract_deck_urls anchors tid) name = Some url ->
  name <> [] /\
  is_navigation name = false /\
  starts_with (str "http") url = true /\
  contains (str "/" ++ tid ++ str "/decks/") url = true /\
  exists a,
    In a anchors /\ anchor_text a = name /\
    url = (if starts_with (str "http") (href a) then href a
           else site ++ href a).
Proof.
  unfold extract_deck_urls. rewrite fold_deck_url_step_get. simpl.
  destruct (find _ anchors) as [a|] eqn:E; [|discriminate].
  intros [= <-]. apply find_some in E. destruct E as (Hin & Ha).
  apply andb_true_iff in Ha. destruct Ha as [Hl Hn].
  apply text_eqb_true in Hn. subst name.
  unfold is_deck_link in Hl. rewrite !andb_true_iff in Hl.
  destruct Hl as [[Hc Hne] Hnav].
  split; [now destruct (anchor_text a)|].
  split; [now apply negb_true_iff|].
  split; [apply absolute_url_http|].
  split; [now apply absolute_url_contains|].
  exists a. split; [assumption|]. split; reflexivity.
Qed.

Lemma deck_urls_well_formed_witness :
  dict_get
    (extract_deck_urls
       [{| href := str "/0046/decks"; anchor_text := str "Decks" |};
        {| href := str "/0046/decks/12"; anchor_text := str "Gardevoir" |};
        {| href := str "https://x.org/0046/decks/13";
           anchor_text := str "Gardevoir" |}]
       (str "0046")) (str "Gardevoir")
  = Some (str "https://labs.limitlesstcg.com/0046/decks/12") /\
  starts_with (str "http")
    (str "https://labs.limitlesstcg.com/0046/decks/12") = true.
Proof.
  assert (H : dict_get
    (extract_deck_urls
       [{| href := str "/0046/decks"; anchor_text := str "Decks" |};
        {| href := str "/0046/decks/12"; anchor_text := str "Gardevoir" |};
        {| href := str "https://x.org/0046/decks/13";
           anchor_text := str "Gardevoir" |}]
       (str "0046")) (str "Gardevoir")
  = Some (str "https://labs.limitlesstcg.com/0046/decks/12"))
    by reflexivity.
  split; [exact H|].
  exact (proj1 (proj2 (proj2 (deck_urls_well_formed _ _ _ _ H)))).
Defined.

(** ** From the form to the page of results *)

Lemma mapM_none {A B : Type} (f : A -> option B) (l : list A) (a : A) :
  In a l -> f a = None -> mapM f l = None.
Proof.
  induction l as [|x l IH]; simpl; intros Hin Ha; [contradiction|].
  destruct Hin as [-> | Hin]; [now rewrite Ha|].
  destruct (f x); simpl; [|reflexivity]. now rewrite (IH Hin Ha).
Qed.

Lemma mapM_nth {A B : Type} (f : A -> option B) (l : list A) (bs : list B) :
  mapM f l = Some bs ->
  forall i b, nth_error bs i = Some b ->
    exists a, nth_error l i = Some a /\ f a = Some b.
Proof.
  intros H. apply mapM_some in H.
  induction H as [|a b0 l bs Hab _ IH]; intros i b Hi.
  - destruct i; discriminate.
  - destruct i as [|i]; simpl in *; [injection Hi as <-; eauto | eauto].
Qed.

Lemma mapM_length {A B : Type} (f : A -> option B) (l : list A) (bs : list B) :
  mapM f l = Some bs -> List.length bs = List.length l.
Proof.
  intros H. apply mapM_some in H. symmetry.
  exact (Forall2_length_eq _ _ _ H).
Qed.

Section NetFacts.

Variable http_get : text -> option text.
Variable get_text : text -> text.
Variable find_all_a : text -> list Anchor.
Variable set_iter : strset -> list text.

Lemma fetch_tournament_fails (tid : text) :
  http_get (BASE_TOURNAMENT_URL tid) = None \/
  http_get (BASE_TOURNAMENT_URL tid ++ str "?day=2") = None \/
  http_get (BASE_TOURNAMENT_URL tid ++ str "?conversion=") = None ->
  Net.fetch_tournament_data_with_links http_get get_text find_all_a tid
  = None.
Proof.
  unfold Net.fetch_tournament_data_with_links.
  intros [H | [H | H]].
  - now rewrite H.
  - destruct (http_get (BASE_TOURNAMENT_URL tid)); [|reflexivity].
    cbn [bind]. destruct (extract_overall_or_day _); [|reflexivity].
    cbn [bind]. now rewrite H.
  - destruct (http_get (BASE_TOURNAMENT_URL tid)); [|reflexivity].
    cbn [bind]. destruct (extract_overall_or_day _); [|reflexivity].
    cbn [bind]. destruct (http_get (_ ++ str "?day=2")); [|reflexivity].
    cbn [bind]. destruct (extract_overall_or_day _); [|reflexivity].
    cbn [bind]. now rewrite H.
Qed.

(** X18.  The pages of the tournaments are all or nothing: when the main,
    day-2 or conversion page of one of the listed tournaments cannot be
    fetched, [aggregate_tournaments_with_matchups] raises whatever the other
    tournaments hold, and [index] hands the template the message of line 656
    with no results and no matrix. *)
Theorem failing_tournament_aborts (raw tid : text) (minp K : Z)
    (beta : float) :
  In tid (tids_of (splitlines raw)) ->
  http_get (BASE_TOURNAMENT_URL tid) = None \/
  http_get (BASE_TOURNAMENT_URL tid ++ str "?day=2") = None \/
  http_get (BASE_TOURNAMENT_URL tid ++ str "?conversion=") = None ->
  Net.aggregate_tournaments_with_matchups http_get get_text find_all_a
    set_iter (tids_of (splitlines raw)) minp K beta = None /\
  Net.index_post http_get get_text find_all_a set_iter raw minp K beta =
  Net.error_view Net.fetch_or_parse_failure.
Proof.
  intros Hin Hf.
  assert (Ha : Net.aggregate_tournaments_with_matchups http_get get_text
                 find_all_a set_iter (tids_of (splitlines raw)) minp K beta
               = None).
  { unfold Net.aggregate_tournaments_with_matchups.
    now rewrite (mapM_none _ _ tid Hin (fetch_tournament_fails tid Hf)). }
  split; [exact Ha|].
  unfold Net.index_post.
  remember (tids_of (splitlines raw)) as tids eqn:Et in *.
  destruct tids as [|t0 tids]; [contradiction|]. now rewrite Ha.
Qed.

End NetFacts.

Lemma failing_tournament_aborts_witness :
  (In (str "0046") (tids_of (splitlines (str "46"))) /\
   ((fun _ : text => @None text) (BASE_TOURNAMENT_URL (str "0046")) = None \/
    (fun _ : text => @None text)
      (BASE_TOURNAMENT_URL (str "0046") ++ str "?day=2") = None \/
    (fun _ : text => @None text)
      (BASE_TOURNAMENT_URL (str "0046") ++ str "?conversion=") = None)) /\
  Net.index_post (fun _ => None) (fun h => h) (fun _ => []) sample_iter
    (str "46") 20 20 f0_5 =
  Net.error_view Net.fetch_or_parse_failure.
Proof.
  split; [split; [left; reflexivity | left; reflexivity]|].
  exact (proj2 (failing_tournament_aborts (fun _ => None) (fun h => h)
                  (fun _ => []) sample_iter (str "46") (str "0046")
                  20 20 f0_5 (or_introl eq_refl) (or_introl eq_refl))).
Defined.

(** ** The matrix of the page *)

Lemma mapM_nth_l {A B : Type} (f : A -> option B) (l : list A) (bs : list B) :
  mapM f l = Some bs ->
  forall i a, nth_error l i = Some a ->
    exists b, nth_error bs i = Some b /\ f a = Some b.
Proof.
  intros H. apply mapM_some in H.
  induction H as [|a0 b l bs Hab _ IH]; intros i a Hi.
  - destruct i; discriminate.
  - destruct i as [|i]; simpl in *; [injection Hi as <-; eauto | eauto].
Qed.

Lemma matrix_rows_mapM (m : matrix) (headers decks : list text) mx :
  mapM (fun a => mapM (Net.matrix_cell m a) headers) decks = Some mx ->
  Net.matrix_rows m headers decks = (mx, false).
Proof.
  revert mx. induction decks as [|a decks IH]; simpl; intros mx H.
  - now injection H as <-.
  - inv_bind H. inv_bind H. injection H as <-.
    rewrite E, (IH _ E0). reflexivity.
Qed.

Lemma NoDup_firstn {A : Type} (n : nat) (l : list A) :
  NoDup l -> NoDup (firstn n l).
Proof.
  intros H. rewrite <- (firstn_skipn n l) in H.
  exact (NoDup_app_remove_r _ _ H).
Qed.

(** The arithmetic of a cell was already done for the matchup score of
    its row. *)
Lemma term_defined_win_pct (mw : dict float) (b : text) (stats : Cell) :
  term_defined mw (b, stats) ->
  (cell_wins stats + cell_losses stats + cell_ties stats >? 0) = true ->
  win_pct (cell_wins stats) (cell_ties stats)
          (cell_wins stats + cell_losses stats + cell_ties stats) <> None.
Proof.
  unfold term_defined, matchup_term. cbn [bind]. intros H Hg.
  rewrite Z.gtb_ltb in Hg. apply Z.ltb_lt in Hg.
  destruct (_ <=? 0) eqn:E; [apply Z.leb_le in E; lia|].
  destruct (win_pct _ _ _); [discriminate|]. now contradiction H.
Qed.

Lemma matrix_cell_defined (mw : dict float) (m : matrix) (a b : text) :
  Forall (term_defined mw) (inner_of m a) ->
  Net.matrix_cell m a b <> None.
Proof.
  intros H. unfold Net.matrix_cell.
  destruct (text_eqb a b); [discriminate|].
  destruct (cell m a b) as [stats|] eqn:E; [|discriminate].
  destruct (_ >? 0) eqn:Eg; [|discriminate].
  rewrite cell_inner in E. apply dict_get_in in E.
  rewrite Forall_forall in H.
  pose proof (term_defined_win_pct mw b stats (H _ E) Eg) as Hw.
  destruct (win_pct _ _ _); [discriminate | now contradiction Hw].
Qed.

Section IndexFacts.

Variable http_get : text -> option text.
Variable get_text : text -> text.
Variable find_all_a : text -> list Anchor.
Variable set_iter : strset -> list text.

Lemma ranked_cells_defined ts minp K beta rows m r b :
  aggregate_tournaments_with_matchups
    (Net.fetch_page http_get get_text) set_iter ts minp K beta
  = Some (rows, m) ->
  In r rows -> Net.matrix_cell m (deck (row r)) b <> None.
Proof.
  intros H Hr.
  destruct (aggregate_stages _ _ _ _ _ _ _ _ H)
    as (brs & mw & scored & reqs & _ & _ & _ & Hs & _ & ->).
  rewrite in_sort_by_final_score in Hr. apply mapM_some in Hs.
  destruct (Forall2_in_r _ _ _ _ Hs Hr) as (br & _ & Hsc).
  apply score_row_some in Hsc. destruct Hsc as (<- & _ & Hms).
  apply (matrix_cell_defined mw).
  apply (matchup_fold_defined mw _ f0_0). unfold inner_of.
  unfold matchup_score_of in Hms. eauto.
Qed.

(** What [index] hands to the template: an error alone, or the first ten
    rows with the matrix of their names, every cell of which is computed. *)
Lemma index_post_cases raw minp K beta :
  (exists e,
     Net.index_post http_get get_text find_all_a set_iter raw minp K beta
     = Net.error_view e) \/
  (exists ts all_results m mx,
     mapM (Net.fetch_tournament_data_with_links http_get get_text find_all_a)
          (tids_of (splitlines raw)) = Some ts /\
     aggregate_tournaments_with_matchups
       (Net.fetch_page http_get get_text) set_iter ts minp K beta
     = Some (all_results, m) /\
     firstn 10 all_results <> [] /\
     NoDup (map (fun r => deck (row r)) (firstn 10 all_results)) /\
     mapM (fun a =>
             mapM (Net.matrix_cell m a)
                  (map (fun r => deck (row r)) (firstn 10 all_results)))
          (map (fun r => deck (row r)) (firstn 10 all_results)) = Some mx /\
     Net.index_post http_get get_text find_all_a set_iter raw minp K beta =
     {| Net.results := Some (firstn 10 all_results);
        Net.error := None;
        Net.matrix_view := Some mx;
        Net.matrix_headers :=
          Some (map (fun r => deck (row r)) (firstn 10 all_results)) |}).
Proof.
  unfold Net.index_post.
  destruct (tids_of (splitlines raw)) as [|tid tids] eqn:Et; [eauto|].
  destruct (Net.aggregate_tournaments_with_matchups _ _ _ _ _ _ _ _)
    as [[all_results m]|] eqn:Ea; [|eauto].
  destruct all_results as [|r0 rest] eqn:Er; [eauto|]. rewrite <- Er in *.
  right. unfold Net.aggregate_tournaments_with_matchups in Ea.
  inv_bind Ea. rename v into ts.
  change (slice_to 10 all_results) with (firstn 10 all_results).
  set (top := firstn 10 all_results).
  set (headers := map (fun r => deck (row r)) top).
  assert (Hnd : NoDup headers).
  { unfold headers, top. rewrite <- firstn_map. apply NoDup_firstn.
    exact (ranking_names_nodup _ _ _ _ _ _ _ _ Ea). }
  destruct (mapM_defined_all
              (fun a => mapM (Net.matrix_cell m a) headers) headers)
    as (mx & Hmx).
  { intros a Ha. apply mapM_defined_all. intros b _.
    unfold headers in Ha. apply in_map_iff in Ha.
    destruct Ha as (r & <- & Hr). unfold top in Hr.
    apply in_firstn in Hr.
    pose proof (ranked_cells_defined _ _ _ _ _ _ r b Ea Hr) as Hc.
    destruct (Net.matrix_cell m (deck (row r)) b); [eauto | congruence]. }
  exists ts, all_results, m, mx.
  rewrite (matrix_rows_mapM _ _ _ _ Hmx). cbn [fst snd].
  repeat split; try assumption.
  unfold top. rewrite Er. discriminate.
Qed.

Lemma matrix_at_cell (m : matrix) (headers : list text) mx i j c :
  mapM (fun a => mapM (Net.matrix_cell m a) headers) headers = Some mx ->
  Net.matrix_at mx i j = Some c ->
  exists a b,
    nth_error headers i = Some a /\ nth_error headers j = Some b /\
    Net.matrix_cell m a b = Some c.
Proof.
  intros H Hc. unfold Net.matrix_at in Hc.
  destruct (nth_error mx i) as [r|] eqn:Er; [|discriminate].
  destruct (mapM_nth _ _ _ H i r Er) as (a & Ha & Hr).
  destruct (mapM_nth _ _ _ Hr j c Hc) as (b & Hb & Hab).
  eauto.
Qed.

Lemma matrix_at_defined (m : matrix) (headers : list text) mx i j :
  mapM (fun a => mapM (Net.matrix_cell m a) headers) headers = Some mx ->
  (i < List.length headers)%nat -> (j < List.length headers)%nat ->
  exists a b c,
    nth_error headers i = Some a /\ nth_error headers j = Some b /\
    Net.matrix_cell m a b = Some c /\ Net.matrix_at mx i j = Some c.
Proof.
  intros H Hi Hj.
  destruct (nth_error headers i) as [a|] eqn:Ea;
    [|apply nth_error_None in Ea; lia].
  destruct (nth_error headers j) as [b|] eqn:Eb;
    [|apply nth_error_None in Eb; lia].
  destruct (mapM_nth_l _ _ _ H i a Ea) as (r & Hr & Hra).
  destruct (mapM_nth_l _ _ _ Hra j b Eb) as (c & Hc & Hab).
  exists a, b, c. unfold Net.matrix_at. rewrite Hr. auto.
Qed.

Lemma matrix_cell_diag (m : matrix) (a b : text) c :
  Net.matrix_cell m a b = Some c ->
  (Net.c_type c = Net.type_diag <-> a = b).
Proof.
  unfold Net.matrix_cell. destruct (text_eqb a b) eqn:E.
  - apply text_eqb_true in E. intros [= <-]. simpl. tauto.
  - apply text_eqb_false in E. intros H.
    assert (Hc : Net.c_type c <> Net.type_diag).
    { destruct (cell m a b) as [stats|]; [|injection H as <-; discriminate].
      destruct (_ >? 0); [|injection H as <-; discriminate].
      inv_bind H. injection H as <-. discriminate. }
    tauto.
Qed.

(** X19.  A POST request ends in one of two ways.  Either the template
    receives an error message and nothing else; or it receives no error, the
    first ten rows of the ranking (at least one), their names as headers, and
    a square matrix over them that is complete, the arithmetic of its cells
    never raising, with the diagonal cells exactly on the diagonal. *)
Theorem index_shows_error_or_results raw minp K beta :
  let v :=
    Net.index_post http_get get_text find_all_a set_iter raw minp K beta in
  (Net.error v <> None /\ Net.results v = None /\
   Net.matrix_view v = None /\ Net.matrix_headers v = None) \/
  (Net.error v = None /\
   exists all_results matchups_agg top mx,
     Net.aggregate_tournaments_with_matchups http_get get_text find_all_a
       set_iter (tids_of (splitlines raw)) minp K beta
     = Some (all_results, matchups_agg) /\
     top = firstn 10 all_results /\ top <> [] /\
     Net.results v = Some top /\
     Net.matrix_headers v = Some (map (fun r => deck (row r)) top) /\
     Net.matrix_view v = Some mx /\
     List.length mx = List.length top /\
     forall i j,
       (i < List.length top)%nat -> (j < List.length top)%nat ->
       exists c,
         Net.matrix_at mx i j = Some c /\
         (Net.c_type c = Net.type_diag <-> i = j)).
Proof.
  intros v. subst v.
  destruct (index_post_cases raw minp K beta)
    as [(e & ->) | (ts & all_results & m & mx & Hts & Ha & Hne & Hnd & Hmx
                    & ->)].
  - left. simpl. repeat split; discriminate.
  - right. simpl. split; [reflexivity|].
    exists all_results, m, (firstn 10 all_results), mx.
    split.
    { unfold Net.aggregate_tournaments_with_matchups. rewrite Hts. exact Ha. }
    repeat (split; [reflexivity || assumption|]).
    split.
    { rewrite (mapM_length _ _ _ Hmx). apply length_map. }
    intros i j Hi Hj.
    rewrite <- (length_map (fun r => deck (row r))) in Hi, Hj.
    destruct (matrix_at_defined _ _ _ _ _ Hmx Hi Hj)
      as (a & b & c & Ea & Eb & Hc & Hat).
    exists c. split; [assumption|].
    rewrite (matrix_cell_diag _ _ _ _ Hc). split.
    + intros <-. apply (proj1 (NoDup_nth_error _) Hnd i j Hi). congruence.
    + intros <-. congruence.
Qed.

(** X20.  The matrix of the page is consistent across its diagonal: the
    cell of row [i] and column [j] and the cell of row [j] and column [i] are
    of the same kind, and when they show data, the wins of one are the losses
    of the other and their ties agree. *)
Theorem index_matrix_mirrors raw minp K beta mx i j ci cj :
  Net.matrix_view
    (Net.index_post http_get get_text find_all_a set_iter raw minp K beta)
  = Some mx ->
  Net.matrix_at mx i j = Some ci ->
  Net.matrix_at mx j i = Some cj ->
  Net.c_type ci = Net.c_type cj /\
  (Net.c_type ci = Net.type_data ->
   exists stats wi wj,
     Net.c_text ci = Net.cell_label stats wi /\ Net.c_wr ci = Some wi /\
     Net.c_text cj = Net.cell_label (mirror stats) wj /\
     Net.c_wr cj = Some wj).
Proof.
  destruct (index_post_cases raw minp K beta)
    as [(e & ->) | (ts & all_results & m & mx' & Hts & Ha & Hne & Hnd & Hmx
                    & ->)]; [discriminate|].
  simpl. intros [= ->] Hi Hj.
  destruct (matrix_at_cell _ _ _ _ _ _ Hmx Hi) as (a & b & Ea & Eb & Hab).
  destruct (matrix_at_cell _ _ _ _ _ _ Hmx Hj) as (b' & a' & Eb' & Ea' & Hba).
  assert (b' = b) by congruence. assert (a' = a) by congruence. subst a' b'.
  assert (Hsym : symmetric m).
  { destruct (aggregate_stages _ _ _ _ _ _ _ _ Ha)
      as (brs & mw & scored & reqs & _ & _ & Hrun & _).
    change m with (fst (m, reqs)). rewrite <- Hrun.
    apply matchups_run_symmetric. }
  unfold Net.matrix_cell in Hab, Hba. rewrite (text_eqb_sym b a) in Hba.
  destruct (text_eqb a b).
  { injection Hab as <-. injection Hba as <-. split; [reflexivity|].
    discriminate. }
  rewrite (Hsym b a) in Hba.
  destruct (cell m a b) as [stats|]; simpl in Hba.
  2:{ injection Hab as <-. injection Hba as <-. split; [reflexivity|].
      discriminate. }
  replace (cell_losses stats + cell_wins stats + cell_ties stats)
    with (cell_wins stats + cell_losses stats + cell_ties stats) in Hba
    by lia.
  destruct (_ >? 0).
  2:{ injection Hab as <-. injection Hba as <-. split; [reflexivity|].
      discriminate. }
  inv_bind Hab. inv_bind Hba. injection Hab as <-. injection Hba as <-.
  simpl. split; [reflexivity|]. intros _.
  exists stats, v, v0. repeat split; reflexivity.
Qed.

End IndexFacts.

Lemma index_matrix_mirrors_witness :
  Net.matrix_view
    (Net.index_post sample_http sample_get_text sample_find_all_a
       sample_iter sample_raw 20 20 f0_5) = Some sample_view_matrix /\
  exists ci cj,
    Net.matrix_at sample_view_matrix 0 1 = Some ci /\
    Net.matrix_at sample_view_matrix 1 0 = Some cj /\
    Net.c_text ci = str "182-125-54 (57.9%)" /\
    Net.c_text cj = str "125-182-54 (42.1%)" /\
    Net.c_type ci = Net.c_type cj.
Proof.
  assert (H : Net.matrix_view
                (Net.index_post sample_http sample_get_text
                   sample_find_all_a sample_iter sample_raw 20 20 f0_5)
              = Some sample_view_matrix) by (vm_compute; reflexivity).
  split; [exact H|].
  eexists _, _. split; [reflexivity|]. split; [reflexivity|].
  split; [reflexivity|]. split; [reflexivity|].
  exact (proj1 (index_matrix_mirrors sample_http sample_get_text
                  sample_find_all_a sample_iter sample_raw 20 20 f0_5
                  sample_view_matrix 0%nat 1%nat _ _ H eq_refl eq_refl)).
Defined.

(** ** Counts and scores of a run over the network *)

Section NetSigns.

Variable http_get : text -> option text.
Variable get_text : text -> text.
Variable find_all_a : text -> list Anchor.
Variable set_iter : strset -> list text.

Lemma net_fetched_data_nonneg (tid : text) (d : TournamentData) :
  Net.fetch_tournament_data_with_links http_get get_text find_all_a tid
  = Some d ->
  nonneg_data d = true.
Proof.
  unfold Net.fetch_tournament_data_with_links, nonneg_data. intros H.
  inv_bind H. inv_bind H. inv_bind H. inv_bind H. inv_bind H. inv_bind H.
  injection H as <-. simpl.
  rewrite (extract_overall_or_day_nonneg _ _ E0),
    (extract_overall_or_day_nonneg _ _ E2),
    (extract_conversion_nonneg _ _ E4).
  reflexivity.
Qed.

(** X21.  Whatever the pages of the tournaments hold, a run that returns
    has rows whose player counts are natural numbers and whose base scores
    carry no minus sign: no text of a page can make an accumulated count or a
    base score negative. *)
Theorem fetched_scores_not_negative tids minp K beta rows m :
  Net.aggregate_tournaments_with_matchups http_get get_text find_all_a
    set_iter tids minp K beta = Some (rows, m) ->
  forall r, In r rows ->
    0 <= players_overall (row r) /\
    not_negative (overall_win_pct (row r)) = true /\
    not_negative (base_score (row r)) = true.
Proof.
  unfold Net.aggregate_tournaments_with_matchups. intros H r Hr.
  inv_bind H. rename v into ts.
  assert (Hnn : Forall (fun d => nonneg_data d = true) ts).
  { apply Forall_forall. intros d Hd. apply mapM_some in E.
    destruct (Forall2_in_r _ _ _ _ E Hd) as (tid & _ & Hf).
    exact (net_fetched_data_nonneg tid d Hf). }
  destruct (ranking_row_entry _ _ _ _ _ _ _ _ _ H Hr) as (o & Ho & Hrow).
  destruct (aggregate_nonneg ts Hnn) as (So & Sd & Sc).
  pose proof (dict_all_get _ _ _ _ So Ho) as (Hw & Hl & Ht & Hp).
  pose proof (base_row_some _ _ _ _ _ Hrow) as (_ & Hpl & _ & Hg & Hwp & _).
  split; [rewrite Hpl; exact Hp|]. split.
  - rewrite <- win_pct_spec in Hwp by lia. unfold games in Hwp, Hg.
    apply (win_pct_sign (wins o) (ties o) (wins o + losses o + ties o));
      [lia | lia | lia | exact Hwp].
  - exact (ranking_base_score_sign _ _ _ _ _ _ _ _ _ H Hnn Hr).
Qed.

End NetSigns.

Lemma fetched_scores_not_negative_witness :
  Net.aggregate_tournaments_with_matchups sample_http sample_get_text
    sample_find_all_a sample_iter [str "0001"] 20 20 f0_5 <> None /\
  forall rows m,
    Net.aggregate_tournaments_with_matchups sample_http sample_get_text
      sample_find_all_a sample_iter [str "0001"] 20 20 f0_5
    = Some (rows, m) ->
    forall r, In r rows -> not_negative (base_score (row r)) = true.
Proof.
  split; [vm_compute; discriminate|].
  intros rows m H r Hr.
  exact (proj2 (proj2 (fetched_scores_not_negative sample_http
                         sample_get_text sample_find_all_a sample_iter
                         [str "0001"] 20 20 f0_5 rows m H r Hr))).
Defined.

(** ** The counts of a label read back *)

Lemma digits_val_snoc (l : text) (c : ascii) :
  digits_val (l ++ [c]) = 10 * digits_val l + digit_val c.
Proof. unfold digits_val. now rewrite fold_left_app. Qed.

Lemma digit_char_val (d : Z) :
  0 <= d < 10 ->
  digit_val (digit_char d) = d /\ is_digit (digit_char d) = true.
Proof.
  intros H.
  assert (E : d = 0 \/ d = 1 \/ d = 2 \/ d = 3 \/ d = 4 \/ d = 5 \/ d = 6 \/
              d = 7 \/ d = 8 \/ d = 9) by lia.
  repeat (destruct E as [-> | E]; [split; reflexivity|]).
  subst. split; reflexivity.
Qed.

Lemma digits_of_acc (fuel : nat) (n : Z) (acc : text) :
  digits_of fuel n acc = digits_of fuel n [] ++ acc.
Proof.
  revert n acc. induction fuel as [|fuel IH]; intros n acc; simpl;
    [reflexivity|].
  destruct (n <? 10); [reflexivity|].
  rewrite (IH _ (_ :: acc)), (IH _ [_]), <- app_assoc. reflexivity.
Qed.

Lemma digits_of_value (fuel : nat) (n : Z) :
  0 <= n < 10 ^ Z.of_nat fuel ->
  digits_val (digits_of fuel n []) = n /\
  forallb is_digit (digits_of fuel n []) = true.
Proof.
  revert n. induction fuel as [|fuel IH]; intros n Hn.
  - simpl in Hn. assert (n = 0) by lia. subst. split; reflexivity.
  - cbn [digits_of].
    assert (Hd : 0 <= n mod 10 < 10) by (apply Z.mod_pos_bound; lia).
    destruct (digit_char_val _ Hd) as (Hv & Hc).
    destruct (n <? 10) eqn:E.
    + apply Z.ltb_lt in E. unfold digits_val. simpl. rewrite Hv, Hc.
      split; [rewrite Z.mod_small; lia | reflexivity].
    + apply Z.ltb_ge in E. rewrite digits_of_acc.
      rewrite Nat2Z.inj_succ, Z.pow_succ_r in Hn by lia.
      destruct (IH (n / 10)) as (IHv & IHc).
      { split; [apply Z.div_pos; lia|].
        apply Z.div_lt_upper_bound; lia. }
      rewrite digits_val_snoc, IHv, Hv, forallb_app, IHc.
      cbn [forallb andb]. rewrite Hc. split; [|reflexivity].
      pose proof (Z.div_mod n 10). lia.
Qed.

Lemma str_of_nat_value (n : Z) :
  0 <= n ->
  digits_val (str_of_nat n) = n /\ is_digits (str_of_nat n) = true.
Proof.
  intros Hn. unfold str_of_nat.
  destruct (digits_of_value (S (Z.to_nat (Z.log2 n))) n) as (Hv & Hd).
  - split; [assumption|].
    rewrite Nat2Z.inj_succ, Z2Nat.id by apply Z.log2_nonneg.
    destruct (Z.eq_dec n 0) as [-> | Hz]; [reflexivity|].
    pose proof (Z.log2_spec n ltac:(lia)) as (_ & Hlt).
    apply (Z.lt_le_trans _ _ _ Hlt).
    apply Z.pow_le_mono_l. pose proof (Z.log2_nonneg n). lia.
  - split; [assumption|]. unfold is_digits.
    destruct (digits_of _ n []) eqn:E; [|exact Hd].
    cbn [digits_of] in E. destruct (n <? 10); [discriminate|].
    rewrite digits_of_acc in E. now destruct (digits_of _ _ []).
Qed.

Lemma digits_of_length (fuel : nat) :
  forall (n : Z) (k : nat),
    0 <= n < 10 ^ Z.of_nat (S k) ->
    (List.length (digits_of fuel n []) <= S k)%nat.
Proof.
  induction fuel as [|fuel IH]; intros n k Hn; [simpl; lia|].
  cbn [digits_of]. destruct (n <? 10) eqn:E; [simpl; lia|].
  apply Z.ltb_ge in E. rewrite digits_of_acc, length_app.
  cbn [List.length]. destruct k as [|k].
  - change (10 ^ Z.of_nat 1) with 10 in Hn. lia.
  - rewrite Nat2Z.inj_succ, Z.pow_succ_r in Hn by lia.
    assert (H : 0 <= n / 10 < 10 ^ Z.of_nat (S k)).
    { split; [apply Z.div_pos; lia|].
      apply Z.div_lt_upper_bound; lia. }
    pose proof (IH _ _ H). lia.
Qed.

Lemma str_of_nat_length (n : Z) (k : nat) :
  (0 < k)%nat -> 0 <= n < 10 ^ Z.of_nat k ->
  (List.length (str_of_nat n) <= k)%nat.
Proof.
  intros Hk Hn. destruct k as [|k]; [lia|]. now apply digits_of_length.
Qed.

(** X22.  The counts that the label of a data cell shows (line 650) are
    the counts of the cell: the decimal numeral written for a natural number
    (of no more digits than the interpreter converts) is a run of digits that
    [int] reads back as that number, and the label is the three numerals
    joined by hyphens, followed by the percentage between parentheses. *)
Theorem cell_label_reads_back (stats : Cell) (wr : float) :
  0 <= cell_wins stats < 10 ^ Z.of_nat int_max_str_digits ->
  0 <= cell_losses stats < 10 ^ Z.of_nat int_max_str_digits ->
  0 <= cell_ties stats < 10 ^ Z.of_nat int_max_str_digits ->
  exists w l t,
    Net.cell_label stats wr =
      w ++ str "-" ++ l ++ str "-" ++ t ++
      str " (" ++ format_1f wr ++ str "%)" /\
    py_int w = Some (cell_wins stats) /\
    py_int l = Some (cell_losses stats) /\
    py_int t = Some (cell_ties stats).
Proof.
  intros Hw Hl Ht.
  assert (H : forall z, 0 <= z < 10 ^ Z.of_nat int_max_str_digits ->
                        py_int (str_of_int z) = Some z).
  { intros z Hz. unfold str_of_int.
    destruct (z <? 0) eqn:E; [apply Z.ltb_lt in E; lia|].
    destruct (str_of_nat_value z (proj1 Hz)) as (Hv & Hd).
    rewrite (py_int_digits _ Hd), Hv; [reflexivity|].
    apply str_of_nat_length; [|exact Hz].
    apply Nat.ltb_lt. vm_compute. reflexivity. }
  exists (str_of_int (cell_wins stats)), (str_of_int (cell_losses stats)),
    (str_of_int (cell_ties stats)).
  split; [reflexivity|]. auto.
Qed.

Lemma cell_label_reads_back_witness :
  (0 <= 182 < 10 ^ Z.of_nat int_max_str_digits /\
   0 <= 125 < 10 ^ Z.of_nat int_max_str_digits /\
   0 <= 54 < 10 ^ Z.of_nat int_max_str_digits) /\
  exists w l t,
    Net.cell_label {| cell_wins := 182; cell_losses := 125; cell_ties := 54 |}
      (S754_finite false 8148309445847040 (-47)) =
      w ++ str "-" ++ l ++ str "-" ++ t ++
      str " (" ++ format_1f (S754_finite false 8148309445847040 (-47))
      ++ str "%)" /\
    py_int w = Some 182.
Proof.
  assert (Hb : forall z, 0 <= z < 1000 ->
                         0 <= z < 10 ^ Z.of_nat int_max_str_digits).
  { intros z Hz. split; [lia|].
    apply (Z.lt_le_trans _ (10 ^ 3)); [lia|].
    apply Z.pow_le_mono_r; [lia|]. unfold int_max_str_digits. lia. }
  split; [repeat split; apply Hb; lia|].
  destruct (cell_label_reads_back
              {| cell_wins := 182; cell_losses := 125; cell_ties := 54 |}
              (S754_finite false 8148309445847040 (-47)))
    as (w & l & t & H & Hw & _); try (apply Hb; simpl; lia).
  exists w, l, t. split; assumption.
Defined.

(** ** The weights of the pool *)

Lemma fold_meta_weight_none (meta : strset) (total : Z) (l : list BaseRow) :
  fold_left (meta_weight_step meta total) l None = None.
Proof. induction l; simpl; auto. Qed.

Lemma fold_meta_weight_other (meta : strset) (total : Z) (l : list BaseRow)
    (acc mw : dict float) (k : text) :
  fold_left (meta_weight_step meta total) l (Some acc) = Some mw ->
  ~ In k (map deck l) ->
  dict_get mw k = dict_get acc k.
Proof.
  revert acc. induction l as [|r l IH]; simpl; intros acc H Hk.
  - now injection H as <-.
  - destruct (set_mem meta (deck r) && (total >? 0)).
    + destruct (int_truediv (players_overall r) total) as [q|]; cbn [bind] in H;
        [|rewrite fold_meta_weight_none in H; discriminate].
      rewrite (IH _ H) by tauto. unfold dict_set. rewrite dict_get_upd.
      destruct (text_eqb (deck r) k) eqn:E; [|reflexivity].
      apply text_eqb_true in E. tauto.
    + apply (IH _ H). tauto.
Qed.

Lemma fold_meta_weight_share (meta : strset) (total : Z) (l : list BaseRow)
    (acc mw : dict float) (br : BaseRow) :
  fold_left (meta_weight_step meta total) l (Some acc) = Some mw ->
  NoDup (map deck l) -> In br l ->
  set_mem meta (deck br) = true -> 0 < total ->
  exists w,
    dict_get mw (deck br) = Some w /\
    int_truediv (players_overall br) total = Some w.
Proof.
  revert acc. induction l as [|r l IH]; simpl; intros acc H Hnd Hin Hm Ht;
    [contradiction|].
  inversion Hnd as [|? ? Hn Hnd']; subst.
  destruct Hin as [-> | Hin].
  - rewrite Hm in H. apply Z.gtb_lt in Ht. rewrite Ht in H. cbn [andb] in H.
    destruct (int_truediv (players_overall br) total) as [q|]; cbn [bind] in H;
      [|rewrite fold_meta_weight_none in H; discriminate].
    exists q. split; [|reflexivity].
    rewrite (fold_meta_weight_other _ _ _ _ _ _ H Hn).
    unfold dict_set. rewrite dict_get_upd. now rewrite text_eqb_refl.
  - destruct (set_mem meta (deck r) && (total >? 0)).
    + destruct (int_truediv (players_overall r) total) as [q|]; cbn [bind] in H;
        [|rewrite fold_meta_weight_none in H; discriminate].
      eapply IH; eassumption.
    + eapply IH; eassumption.
Qed.

(** X24.  The weight of a pool deck as an opponent is its share of the
    players of the pool: for a row of the pool, when the pool has players at
    all, [meta_weight] holds the quotient of the players of the row by the
    total of the pool (line 367). *)
Theorem meta_weights_are_player_shares (ts : list TournamentData)
    (minp K : Z) (brs : list BaseRow) (mw : dict float) (br : BaseRow) :
  base_rows_of minp (aggregate ts) = Some brs ->
  meta_weight_of (meta_decks_of K (sort_desc by_players brs))
                 (sort_desc by_players brs) = Some mw ->
  In br brs ->
  set_mem (meta_decks_of K (sort_desc by_players brs)) (deck br) = true ->
  0 < total_players_meta_of (meta_decks_of K (sort_desc by_players brs))
                            (sort_desc by_players brs) ->
  exists w,
    dict_get mw (deck br) = Some w /\
    int_truediv (players_overall br)
      (total_players_meta_of (meta_decks_of K (sort_desc by_players brs))
                             (sort_desc by_players brs)) = Some w.
Proof.
  intros Hb Hmw Hin Hm Ht. unfold meta_weight_of in Hmw.
  apply (fold_meta_weight_share _ _ _ _ _ _ Hmw); try assumption.
  - apply (Permutation_NoDup
             (Permutation_sym
                (Permutation_map deck (sort_desc_perm by_players brs)))).
    exact (base_rows_of_nodup _ _ _ Hb).
  - now rewrite in_sort_desc.
Qed.

Lemma meta_weights_are_player_shares_witness :
  (base_rows_of 20 (aggregate sample_ts) = Some sample_base_rows /\
   0 < total_players_meta_of
         (meta_decks_of 2 (sort_desc by_players sample_base_rows))
         (sort_desc by_players sample_base_rows)) /\
  exists mw w,
    meta_weight_of (meta_decks_of 2 (sort_desc by_players sample_base_rows))
                   (sort_desc by_players sample_base_rows) = Some mw /\
    dict_get mw (str "Gholdengo Lunatone") = Some w /\
    int_truediv 347 597 = Some w.
Proof.
  assert (Hb : base_rows_of 20 (aggregate sample_ts) = Some sample_base_rows)
    by (vm_compute; reflexivity).
  split; [split; [exact Hb | reflexivity]|].
  destruct (meta_weight_of
              (meta_decks_of 2 (sort_desc by_players sample_base_rows))
              (sort_desc by_players sample_base_rows)) as [mw|] eqn:E;
    [|vm_compute in E; discriminate].
  destruct (meta_weights_are_player_shares sample_ts 20 2 sample_base_rows
              mw (nth 0 sample_base_rows sample_outside_row) Hb E)
    as (w & Hw & Hq).
  - left. reflexivity.
  - reflexivity.
  - reflexivity.
  - exists mw, w. split; [reflexivity|]. split; [exact Hw | exact Hq].
Defined.

(** ** Where the requests of a run go *)

Lemma code_inj (a c : ascii) : code a = code c -> a = c.
Proof.
  unfold code. intros H.
  rewrite <- (ascii_N_embedding a), <- (ascii_N_embedding c).
  now rewrite H.
Qed.

Lemma prefix_exact (p s r : text) :
  prefix_ci false p s = Some r -> s = p ++ r.
Proof.
  revert s. induction p as [|a p IH]; simpl; intros s H.
  - now injection H as ->.
  - destruct s as [|c s]; [discriminate|].
    destruct (code a =? code c)%N eqn:E; [|discriminate].
    apply N.eqb_eq, code_inj in E. subst c. now rewrite (IH _ H).
Qed.

Lemma starts_with_split (p s : text) :
  starts_with p s = true -> exists r, s = p ++ r.
Proof.
  unfold starts_with.
  destruct (prefix_ci false p s) as [r|] eqn:E; [|discriminate].
  intros _. exists r. now apply prefix_exact.
Qed.

Lemma starts_with_app (p r : text) : starts_with p (p ++ r) = true.
Proof. unfold starts_with. now rewrite prefix_ci_app. Qed.

Lemma contains_split (needle s : text) :
  contains needle s = true -> exists p q, s = p ++ needle ++ q.
Proof.
  induction s as [|c s IH]; cbn [contains]; intros H.
  - rewrite orb_false_r in H. apply starts_with_split in H.
    destruct H as (r & ->). now exists [], r.
  - apply orb_true_iff in H. destruct H as [H | H].
    + apply starts_with_split in H. destruct H as (r & ->). now exists [], r.
    + destruct (IH H) as (p & q & ->). now exists (c :: p), q.
Qed.

Lemma contains_intro (needle p q : text) :
  contains needle (p ++ needle ++ q) = true.
Proof.
  apply contains_app_l. destruct (needle ++ q) as [|c s] eqn:E.
  - destruct needle; [reflexivity | discriminate].
  - cbn [contains]. rewrite <- E, starts_with_app. reflexivity.
Qed.

(** Removing the slashes at the end keeps everything up to the last
    character that is no slash, and a part of what follows it. *)
Lemma rstrip_slash_prefix (x y : text) (z : ascii) :
  is_char "/" z = false ->
  exists b t, rstrip_slash ((x ++ [z]) ++ y) = (x ++ [z]) ++ b /\ y = b ++ t.
Proof.
  intros Hz. unfold rstrip_slash. rewrite rev_app_distr, rev_unit.
  set (go := fix go (r : text) : text :=
               match r with
               | [] => []
               | c :: r' => if is_char "/" c then go r' else r
               end).
  assert (H : forall l, exists l' t',
              go (l ++ z :: rev x) = l' ++ z :: rev x /\ l = t' ++ l').
  { induction l as [|a l IH]; simpl.
    - rewrite Hz. now exists [], [].
    - destruct (is_char "/" a).
      + destruct IH as (l' & t' & -> & ->). now exists l', (a :: t').
      + now exists (a :: l), []. }
  destruct (H (rev y)) as (l' & t' & -> & Hy).
  exists (rev l'), (rev t'). split.
  - rewrite rev_app_distr. simpl. now rewrite rev_involutive, <- app_assoc.
  - rewrite <- (rev_involutive y), Hy. apply rev_app_distr.
Qed.

Lemma matchups_url_keeps (tid u : text) :
  starts_with (str "http") u = true ->
  contains (str "/" ++ tid ++ str "/decks/") u = true ->
  starts_with (str "http") (matchups_url u) = true /\
  contains (str "/" ++ tid ++ str "/decks/") (matchups_url u) = true.
Proof.
  intros Hh Hc. unfold matchups_url.
  destruct (ends_with (str "/matchups") u); [now split|].
  split.
  - apply starts_with_split in Hh. destruct Hh as (r & ->).
    destruct (rstrip_slash_prefix (str "htt") r "p"%char eq_refl)
      as (b & t & Hb & _).
    change ((str "htt" ++ ["p"%char]) ++ r) with (str "http" ++ r) in Hb.
    rewrite Hb. reflexivity.
  - apply contains_split in Hc. destruct Hc as (p & q & ->).
    destruct (rstrip_slash_prefix (p ++ str "/" ++ tid ++ str "/deck")
                ("/"%char :: q) "s"%char eq_refl) as (b & t & Hb & Hq).
    replace (p ++ (str "/" ++ tid ++ str "/decks/") ++ q)
      with (((p ++ str "/" ++ tid ++ str "/deck") ++ ["s"%char])
            ++ "/"%char :: q)
      by (rewrite <- !app_assoc; reflexivity).
    rewrite Hb.
    assert (Hb' : exists t', b ++ str "/matchups" = "/"%char :: t').
    { destruct b as [|c b]; [now exists (str "matchups")|].
      injection Hq as <- _. now exists (b ++ str "/matchups"). }
    destruct Hb' as (t' & Ht').
    rewrite <- app_assoc, Ht'.
    match goal with
    | |- contains _ ?s = true =>
        replace s with (p ++ (str "/" ++ tid ++ str "/decks/") ++ t')
          by (rewrite <- !app_assoc; reflexivity)
    end.
    apply contains_intro.
Qed.

Section Requests.

Variable http_get : text -> option text.
Variable get_text : text -> text.
Variable find_all_a : text -> list Anchor.
Variable set_iter : strset -> list text.

Lemma net_fetched_links (tid : text) (data : TournamentData) :
  Net.fetch_tournament_data_with_links http_get get_text find_all_a tid
  = Some data ->
  exists html,
    http_get (BASE_TOURNAMENT_URL tid) = Some html /\
    deck_urls data = extract_deck_urls (find_all_a html) tid.
Proof.
  unfold Net.fetch_tournament_data_with_links. intros H.
  inv_bind H. inv_bind H. inv_bind H. inv_bind H. inv_bind H. inv_bind H.
  injection H as <-. simpl. eauto.
Qed.

(** Iterating over a set yields elements of the set. *)
Hypothesis set_iter_sound : forall s x, In x (set_iter s) -> In x s.

(** X23.  Every request for matchups that a run makes goes to an address
    that starts with [http], holds the path [/<tid>/decks/] of one of the
    listed tournaments, and ends with [/matchups]: the data fetched for that
    tournament have an overall record of the deck and a link under its name,
    and the address is the matchup tab of that link.  The deck is one of the
    meta pool. *)
Theorem requests_stay_on_tournament_paths tids ts minp K beta scored m reqs
    d url :
  mapM (Net.fetch_tournament_data_with_links http_get get_text find_all_a)
       tids = Some ts ->
  score_all (Net.fetch_page http_get get_text) set_iter (aggregate ts)
            minp K beta = Some (scored, m, reqs) ->
  In (d, url) reqs ->
  ends_with (str "/matchups") url = true /\
  starts_with (str "http") url = true /\
  (exists tid data,
     In tid tids /\
     Net.fetch_tournament_data_with_links http_get get_text find_all_a tid
     = Some data /\
     In data ts /\
     (exists r, In r (overall data) /\ s_deck r = d) /\
     (exists u, dict_get (deck_urls data) d = Some u /\
                url = matchups_url u) /\
     contains (str "/" ++ tid ++ str "/decks/") url = true) /\
  exists brs,
    base_rows_of minp (aggregate ts) = Some brs /\
    In d (meta_decks_of K (sort_desc by_players brs)).
Proof.
  intros Hts Hs Hin. unfold score_all in Hs.
  inv_bind Hs. inv_bind Hs. inv_bind Hs. injection Hs as _ _ <-.
  rename v into brs.
  unfold matchups_run in Hin. rewrite fold_deck_step_requests in Hin.
  simpl in Hin. apply in_flat_map in Hin.
  destruct Hin as (d' & Hd' & Hin). unfold requests_for in Hin.
  apply in_map_iff in Hin. destruct Hin as (u & [= -> <-] & Hu).
  unfold urls_of in Hu.
  assert (Hset : In u (url_set (deck_urls_global (aggregate ts)) d)).
  { unfold url_set.
    destruct (dict_get (deck_urls_global (aggregate ts)) d) as [s|];
      [now apply set_iter_sound | contradiction]. }
  unfold aggregate in Hset. rewrite url_set_from in Hset.
  destruct Hset as [[] | (data & Hdata & Hrec & Hlink)].
  apply mapM_some in Hts.
  destruct (Forall2_in_r _ _ _ _ Hts Hdata) as (tid & Htid & Hf).
  destruct (net_fetched_links tid data Hf) as (html & _ & Hl).
  rewrite Hl in Hlink.
  destruct (deck_url_shape _ _ _ _ Hlink) as (Hh & Hc).
  destruct (matchups_url_keeps tid u Hh Hc) as (Hh' & Hc').
  split.
  { unfold matchups_url.
    destruct (ends_with (str "/matchups") u) eqn:Ee; [exact Ee|].
    apply ends_with_app. }
  split; [exact Hh'|]. split.
  - exists tid, data. rewrite <- Hl in Hlink.
    repeat split; try assumption. now exists u.
  - exists brs. split; [assumption|]. now apply set_iter_sound.
Qed.

End Requests.

Lemma requests_stay_on_tournament_paths_witness :
  (forall s x, In x (sample_iter s) -> In x s) /\
  exists ts scored m reqs,
    mapM (Net.fetch_tournament_data_with_links sample_http sample_get_text
            sample_find_all_a) [str "0001"] = Some ts /\
    score_all (Net.fetch_page sample_http sample_get_text) sample_iter
      (aggregate ts) 20 20 f0_5 = Some (scored, m, reqs) /\
    In (str "Gholdengo Lunatone",
        str "https://labs.limitlesstcg.com/0001/decks/a/matchups") reqs /\
    contains (str "/" ++ str "0001" ++ str "/decks/")
      (str "https://labs.limitlesstcg.com/0001/decks/a/matchups") = true.
Proof.
  split; [exact (fun s x H => H)|].
  destruct (mapM (Net.fetch_tournament_data_with_links sample_http
                    sample_get_text sample_find_all_a) [str "0001"])
    as [ts|] eqn:Ets; [|vm_compute in Ets; discriminate].
  destruct (score_all (Net.fetch_page sample_http sample_get_text)
              sample_iter (aggregate ts) 20 20 f0_5)
    as [[[scored m] reqs]|] eqn:Es;
    [|vm_compute in Ets; injection Ets as <-; vm_compute in Es;
      discriminate].
  assert (Hin : In (str "Gholdengo Lunatone",
                    str "https://labs.limitlesstcg.com/0001/decks/a/matchups")
                   reqs).
  { vm_compute in Ets. injection Ets as <-. vm_compute in Es.
    injection Es as _ _ <-. left. reflexivity. }
  exists ts, scored, m, reqs.
  split; [reflexivity|]. split; [exact Es|]. split; [exact Hin|].
  destruct (requests_stay_on_tournament_paths sample_http sample_get_text
              sample_find_all_a sample_iter (fun s x H => H)
              [str "0001"] ts 20 20 f0_5 scored m reqs _ _ Ets Es Hin)
    as (_ & _ & (tid & data & [<- | []] & _ & _ & _ & _ & Hc) & _).
  exact Hc.
Defined.

(** ** The lines of the form field *)

Lemma splitlines_from_line (l cur s : text) :
  existsb is_linebreak l = false ->
  splitlines_from cur (l ++ s) = splitlines_from (rev l ++ cur) s.
Proof.
  revert cur. induction l as [|c l IH]; intros cur H; [reflexivity|].
  simpl in H. apply orb_false_iff in H. destruct H as [Hc Hl].
  simpl app. cbn [splitlines_from]. rewrite Hc, (IH _ Hl).
  simpl rev. now rewrite <- app_assoc.
Qed.

Lemma splitlines_from_lf (cur s : text) :
  splitlines_from cur (LF :: s) = rev cur :: splitlines s.
Proof. destruct s; reflexivity. Qed.

Lemma splitlines_from_crlf (cur s : text) :
  splitlines_from cur (CR :: LF :: s) = rev cur :: splitlines s.
Proof. reflexivity. Qed.

Lemma splitlines_last (l : text) :
  existsb is_linebreak l = false -> l <> [] -> splitlines l = [l].
Proof.
  intros H Hne. unfold splitlines.
  rewrite <- (app_nil_r l) at 1. rewrite (splitlines_from_line l [] [] H).
  rewrite app_nil_r. cbn [splitlines_from].
  destruct (rev l) eqn:E; [|now rewrite <- E, rev_involutive].
  apply (f_equal (@rev ascii)) in E. rewrite rev_involutive in E.
  contradiction.
Qed.

Lemma splitlines_join (eol : text) (lines : list text) (rest : text) :
  (forall cur s, splitlines_from cur (eol ++ s) = rev cur :: splitlines s) ->
  Forall (fun l => existsb is_linebreak l = false) lines ->
  splitlines (join_lines eol lines ++ rest) = lines ++ splitlines rest.
Proof.
  intros Heol H. induction H as [|l lines Hl _ IH]; [reflexivity|].
  unfold join_lines. cbn [map concat]. fold (join_lines eol lines).
  unfold splitlines at 1. rewrite <- !app_assoc.
  rewrite (splitlines_from_line l [] _ Hl), app_nil_r.
  now rewrite Heol, rev_involutive, IH.
Qed.

(** X25.  The field of the form is read line by line whatever the line
    ends: for lines that hold no line boundary, the text in which each line
    is followed by a line feed, or by a carriage return and a line feed as
    browsers send it, gives back exactly these lines, and so the same
    identifiers; a last line without a line end is read as well. *)
Theorem form_lines_are_read (lines : list text) (last : text) :
  Forall (fun l => existsb is_linebreak l = false) lines ->
  existsb is_linebreak last = false ->
  splitlines (join_lines [LF] lines) = lines /\
  splitlines (join_lines [CR; LF] lines) = lines /\
  tids_of (splitlines (join_lines [CR; LF] lines)) = tids_of lines /\
  (last <> [] ->
   splitlines (join_lines [CR; LF] lines ++ last) = lines ++ [last]).
Proof.
  intros H Hlast.
  assert (Hlf : forall rest,
            splitlines (join_lines [LF] lines ++ rest)
            = lines ++ splitlines rest).
  { intros rest. apply splitlines_join; [|assumption].
    intros cur s. apply splitlines_from_lf. }
  assert (Hcrlf : forall rest,
            splitlines (join_lines [CR; LF] lines ++ rest)
            = lines ++ splitlines rest).
  { intros rest. apply splitlines_join; [|assumption].
    intros cur s. apply splitlines_from_crlf. }
  split; [|split; [|split]].
  - rewrite <- (app_nil_r (join_lines [LF] lines)), Hlf. apply app_nil_r.
  - rewrite <- (app_nil_r (join_lines [CR; LF] lines)), Hcrlf.
    apply app_nil_r.
  - rewrite <- (app_nil_r (join_lines [CR; LF] lines)), Hcrlf.
    now rewrite app_nil_r.
  - intros Hne. now rewrite Hcrlf, (splitlines_last last Hlast Hne).
Qed.

Lemma form_lines_are_read_witness :
  (Forall (fun l => existsb is_linebreak l = false) [str "1"; str "latest"] /\
   existsb is_linebreak (str "0046") = false) /\
  splitlines sample_raw = [str "1"; str "latest"] /\
  tids_of (splitlines sample_raw) = [str "0001"].
Proof.
  assert (H : Forall (fun l => existsb is_linebreak l = false)
                     [str "1"; str "latest"])
    by (repeat constructor).
  split; [split; [exact H | reflexivity]|].
  destruct (form_lines_are_read [str "1"; str "latest"] (str "0046") H
              eq_refl) as (_ & Hs & Ht & _).
  split; [exact Hs | exact Ht].
Defined.

(** ** The properties on the samples *)

Lemma matchups_url_normal_witness :
  matchups_url (str "/0002/decks/a" ++ repeat "/"%char 2)
  = str "/0002/decks/a/matchups" /\
  matchups_url (matchups_url (str "/0002/decks/a//"))
  = matchups_url (str "/0002/decks/a//").
Proof.
  split.
  - exact (proj1 (proj2 (proj2 (matchups_url_normal (str "/0002/decks/a"))))
             1%nat).
  - exact (proj1 (proj2 (matchups_url_normal (str "/0002/decks/a//")))).
Defined.

Lemma aggregated_counts_are_sums_witness :
  dict_get (overall_stats (aggregate sample_ts)) (str "Gholdengo Lunatone")
  = Some {| wins := 1295 + (90 + 0); losses := 1054 + (80 + 0);
            ties := 456 + (30 + 0); players := 307 + (40 + 0) |} /\
  dict_get (day2_stats (aggregate sample_ts)) (str "Gardevoir") = None.
Proof.
  destruct (aggregated_counts_are_sums sample_ts (str "Gholdengo Lunatone"))
    as (Ho & _).
  destruct (aggregated_counts_are_sums sample_ts (str "Gardevoir"))
    as (_ & Hd & _).
  split; [exact Ho | exact Hd].
Defined.

Lemma deck_urls_recorded_witness :
  In (str "/0002/decks/a/")
     (url_set (deck_urls_global (aggregate sample_ts))
              (str "Gholdengo Lunatone")) /\
  NoDup (url_set (deck_urls_global (aggregate sample_ts))
                 (str "Gholdengo Lunatone")).
Proof.
  destruct (deck_urls_recorded sample_ts (str "Gholdengo Lunatone")
              (str "/0002/decks/a/")) as (Hin & Hnd).
  split; [|exact Hnd]. apply Hin.
  exists (nth 1 sample_ts (Build_TournamentData [] [] [] [])).
  split; [right; left; reflexivity|]. split; [|reflexivity].
  eexists. split; [left; reflexivity | reflexivity].
Defined.

Lemma deck_url_is_first_link_witness :
  dict_get (extract_deck_urls (sample_find_all_a []) (str "0001"))
           (str "Dragapult Dusknoir")
  = Some (str "https://labs.limitlesstcg.com/0001/decks/b") /\
  dict_get (extract_deck_urls (sample_find_all_a []) (str "0001"))
           (str "Decks") = None.
Proof.
  split.
  - exact (proj1 (deck_url_is_first_link (sample_find_all_a []) (str "0001")
                    (str "Dragapult Dusknoir"))).
  - exact (proj1 (deck_url_is_first_link (sample_find_all_a []) (str "0001")
                    (str "Decks"))).
Defined.

Lemma index_shows_error_or_results_witness :
  Net.error sample_view = None /\
  exists top mx,
    Net.results sample_view = Some top /\ List.length top = 3%nat /\
    Net.matrix_view sample_view = Some mx /\
    List.length mx = List.length top.
Proof.
  destruct (index_shows_error_or_results sample_http sample_get_text
              sample_find_all_a sample_iter sample_raw 20 20 f0_5)
    as [(He & _) | (He & all & m & top & mx & _ & _ & _ & Hr & _ & Hm & Hl
                    & _)].
  - exfalso. apply He. vm_compute. reflexivity.
  - split; [reflexivity|]. exists top, mx.
    split; [exact Hr|]. split; [|split; [exact Hm | exact Hl]].
    assert (Hs : Net.results sample_view = Some top) by exact Hr.
    vm_compute in Hs. injection Hs as <-. reflexivity.
Defined.
